(** * ne-schemata: the merge / pare engine of [Schemata]

    A shallow embedding of [mergeSDL], [pareSDL] and their helpers
    ([combineTypeAndSubType], [pareTypeAndSubType], [normalizeSource],
    [stripResolversFromSchema], the default conflict resolvers), of the
    tree accessors of [Schemata] and of [ExtendedResolver], together with
    the properties the specification states about them and further
    properties read off the code.

    Conventions of the embedding:
    - a JavaScript exception is a value [Throw e] of the [result] type;
    - a property that is [undefined] on an object is [None];
    - mutation of the left-hand tree is explicit state passing: the node
      found by [Array.prototype.find] is rewritten at the index where it
      was found;
    - the module-level [DefaultConflictResolvers] object and the objects
      a resolver map refers to (nested objects, and resolver functions
      with the properties they carry) are shared mutable stores, so they
      are threaded through the calls that can write to them;
    - the graphql parser, printer and schema builder, and the tag function
      of the package ne-tag-fns that builds the error messages, are
      collaborators outside the repository and are parameters of the
      top-level calls. *)

From Stdlib Require Import String ZArith List Bool Lia.
From stdpp Require Import gmap strings list.
Import ListNotations.
Open Scope string_scope.
Open Scope list_scope.

(** ** Exceptions *)

Inductive JsError : Type :=
| InvalidInput (call : string) (received : string)
    (* [new Error(inline`...`)]: the function the message names and what
       the tag function prints for the value interpolated after
       "received:" *)
| MergeInvalidValue (received : string)
    (* the message of [mergeSDL]'s own [if (!source)] guard *)
| PareUnparsable
    (* the message of [pareSDL]'s own [if (!source)] guard *)
| TypeError
| ReferenceError
| WalkError
    (* whatever the walk over the fields of a built schema throws *).

Inductive result (A : Type) : Type :=
| Ok (a : A)
| Throw (e : JsError).
Arguments Ok {A} a.
Arguments Throw {A} e.

Definition bindR {A B} (r : result A) (k : A -> result B) : result B :=
  match r with
  | Ok a => k a
  | Throw e => Throw e
  end.

Declare Scope js_scope.
Delimit Scope js_scope with js.
Notation "'let*' x ':=' c 'in' k" := (bindR c (fun x => k))
  (at level 10, x pattern, c at level 100, k at level 200) : js_scope.
Open Scope js_scope.

(** [for (let x of xs) body]: the loop stops at the first exception. *)
Fixpoint forOf {S A} (body : S -> A -> result S) (xs : list A) (s : S) : result S :=
  match xs with
  | [] => Ok s
  | x :: rest => let* s' := body s x in forOf body rest s'
  end.

Definition isOk {A} (r : result A) : bool :=
  match r with Ok _ => true | Throw _ => false end.

(** ** The tree *)

(** A member of a sub-collection: a field definition, a directive, an enum
    value or a named member type of a union. The engine reads nothing but
    [name.value]; [sub_detail] stands for the rest of the node (arguments,
    type reference, nested directives) as printed. *)
Record SubNode : Type := mkSub {
  sub_name : string;
  sub_detail : string
}.

(** A top-level definition. A collection the node kind does not have is
    [None] ([undefined] in the parsed tree), and so is the name of a
    definition without one (a schema definition, an anonymous operation).
    [rest] stands for what the engine never touches (description,
    interfaces, location). *)
Record TypeNode : Type := mkType {
  kind : string;
  nameNode : option string;
  directives : option (list SubNode);
  fields : option (list SubNode);
  values : option (list SubNode);
  types : option (list SubNode);
  rest : string
}.

Abbreviation Document := (list TypeNode).

(** [node.name.value] on a definition that has a name. In statements the
    empty text stands for the name of a definition without one (no name a
    parser builds is empty); what the code does when it reads a missing
    name is in [findByName] and [findDefinition]. *)
Definition name (node : TypeNode) : string := default "" (nameNode node).

Definition named (node : TypeNode) : Prop := is_Some (nameNode node).

(** The four collection names [combineTypeAndSubType] and
    [pareTypeAndSubType] are called with. *)
Inductive SubTypeName : Type :=
| SubFields | SubDirectives | SubValues | SubTypes.

(** [node[subTypeName]] *)
Definition getSub (subTypeName : SubTypeName) (node : TypeNode) : option (list SubNode) :=
  match subTypeName with
  | SubFields => fields node
  | SubDirectives => directives node
  | SubValues => values node
  | SubTypes => types node
  end.

(** The array [node[subTypeName]] after an in-place [push] or [splice]. *)
Definition setSub (subTypeName : SubTypeName) (node : TypeNode) (l : list SubNode) : TypeNode :=
  match subTypeName with
  | SubFields =>
      mkType (kind node) (nameNode node) (directives node) (Some l) (values node) (types node) (rest node)
  | SubDirectives =>
      mkType (kind node) (nameNode node) (Some l) (fields node) (values node) (types node) (rest node)
  | SubValues =>
      mkType (kind node) (nameNode node) (directives node) (fields node) (Some l) (types node) (rest node)
  | SubTypes =>
      mkType (kind node) (nameNode node) (directives node) (fields node) (values node) (Some l) (rest node)
  end.

Definition setKind (node : TypeNode) (k : string) : TypeNode :=
  mkType k (nameNode node) (directives node) (fields node) (values node) (types node) (rest node).

(** ** Array helpers *)

(** [Array.prototype.splice(index, deleteCount, ...items)]: a negative
    [index] counts from the end. *)
Definition spliceStart (index : Z) (len : nat) : nat :=
  if (index <? 0)%Z
  then Z.to_nat (Z.max (Z.of_nat len + index) 0)
  else Nat.min (Z.to_nat index) len.

Definition splice {A} (l : list A) (index : Z) (deleteCount : nat) (items : list A) : list A :=
  let start := spliceStart index (length l) in
  take start l ++ items ++ drop (start + Nat.min deleteCount (length l - start)) l.

(** [l.find(f => f.name.value == n)], with the position of the match: the
    caller mutates the match in place. *)
Definition findSub (n : string) (l : list SubNode) : option (nat * SubNode) :=
  list_find (fun f => sub_name f = n) l.

(** The first definition called [n], as an observer of the tree sees it.
    The searches of the code itself are [findByName] and [findDefinition]. *)
Definition findType (n : string) (l : Document) : option (nat * TypeNode) :=
  list_find (fun a => name a = n) l.

(** [definitions.find(f => f.name.value == n)], with the position of the
    match. Reading [name.value] off a definition without a name throws, so
    such a definition met before the match ends the search with a
    [TypeError]. *)
Fixpoint findByName (n : string) (l : Document) : result (option (nat * TypeNode)) :=
  match l with
  | [] => Ok None
  | a :: more =>
      match nameNode a with
      | None => Throw TypeError
      | Some an =>
          if decide (an = n) then Ok (Some (0, a))
          else let* found := findByName n more in
               Ok (prod_map S id <$> found)
      end
  end.

(** [lAST.definitions.find(a => a.name.value == rType.name.value)]: the
    callback reads the left name and then the right one, and it is not
    called at all on a tree without definitions. *)
Definition findDefinition (rType : TypeNode) (l : Document)
    : result (option (nat * TypeNode)) :=
  match l, nameNode rType with
  | [], _ => Ok None
  | _ :: _, None => Throw TypeError
  | _ :: _, Some n => findByName n l
  end.

(** [lType.fields.indexOf(lSubType)], where [lSubType] was found at
    position [i] of [lType[subTypeName]]. Both helpers search the FIELDS
    array whatever the collection is. [indexOf] compares object identity:
    in the fields array the match sits at [i] (it is the first node of
    that name, hence the first occurrence of itself); a directive, enum
    value or member type is no element of the fields array, so the answer
    is -1; and a node kind without fields has no array to search. *)
Definition fieldsIndexOf (subTypeName : SubTypeName) (lType : TypeNode) (i : nat) : result Z :=
  match fields lType with
  | None => Throw TypeError
  | Some _ =>
      Ok (match subTypeName with
          | SubFields => Z.of_nat i
          | _ => (-1)%Z
          end)
  end.

(** ** Node normalizer

    [rType.kind.endsWith('Extension')] and the rewrite
    [kind.substring(0, kind.length - 9) + 'Definition'] on a shallow copy. *)
Definition endsWith (s suffix : string) : bool :=
  (String.length suffix <=? String.length s)%nat
  && String.eqb (substring (String.length s - String.length suffix) (String.length suffix) s) suffix.

Definition definitionKind (k : string) : string :=
  String.append (substring 0 (String.length k - 9) k) "Definition".

Definition normalizeExtension (rType : TypeNode) : TypeNode :=
  if endsWith (kind rType) "Extension"
  then setKind rType (definitionKind (kind rType))
  else rType.

(** ** Conflict resolvers *)

Definition ScalarConfig : Type := string.

Definition SubResolver : Type := TypeNode -> SubNode -> TypeNode -> SubNode -> SubNode.
Definition ScalarMergeResolver : Type :=
  TypeNode -> option ScalarConfig -> TypeNode -> option ScalarConfig -> option ScalarConfig.

Definition DefaultFieldMergeResolver : SubResolver :=
  fun leftType leftField rightType rightField => rightField.
Definition DefaultDirectiveMergeResolver : SubResolver :=
  fun leftType leftDirective rightType rightDirective => rightDirective.
Definition DefaultEnumMergeResolver : SubResolver :=
  fun leftType leftValue rightType rightValue => rightValue.
Definition DefaultUnionMergeResolver : SubResolver :=
  fun leftType leftUnion rightType rightUnion => rightUnion.

(** [rightConfig ? rightConfig : (leftConfig || null)] *)
Definition DefaultScalarMergeResolver : ScalarMergeResolver :=
  fun leftScalar leftConfig rightScalar rightConfig =>
    match rightConfig with
    | Some c => Some c
    | None => leftConfig
    end.

(** The registry object: all five keys present. *)
Record ConflictResolvers : Type := mkResolvers {
  fieldMergeResolver : SubResolver;
  directiveMergeResolver : SubResolver;
  enumValueMergeResolver : SubResolver;
  typeValueMergeResolver : SubResolver;
  scalarMergeResolver : ScalarMergeResolver
}.

(** The value the module initialises [DefaultConflictResolvers] with. *)
Definition DefaultConflictResolvers : ConflictResolvers :=
  mkResolvers DefaultFieldMergeResolver DefaultDirectiveMergeResolver
    DefaultEnumMergeResolver DefaultUnionMergeResolver DefaultScalarMergeResolver.

(** A caller's record: every key optional, [None] for a key left out. *)
Record CustomResolvers : Type := mkCustom {
  customField : option SubResolver;
  customDirective : option SubResolver;
  customEnumValue : option SubResolver;
  customTypeValue : option SubResolver;
  customScalar : option ScalarMergeResolver
}.

(** [Object.assign(target, source)] on these records: the keys of [source]
    overwrite those of [target]; the result IS [target], mutated. *)
Definition Object_assign (target : ConflictResolvers) (source : CustomResolvers) : ConflictResolvers :=
  mkResolvers
    (default (fieldMergeResolver target) (customField source))
    (default (directiveMergeResolver target) (customDirective source))
    (default (enumValueMergeResolver target) (customEnumValue source))
    (default (typeValueMergeResolver target) (customTypeValue source))
    (default (scalarMergeResolver target) (customScalar source)).

(** [conflictResolvers[subTypeResolverMap.get(subTypeName)]] *)
Definition subTypeResolverMap (subTypeName : SubTypeName) (r : ConflictResolvers) : SubResolver :=
  match subTypeName with
  | SubFields => fieldMergeResolver r
  | SubDirectives => directiveMergeResolver r
  | SubValues => enumValueMergeResolver r
  | SubTypes => typeValueMergeResolver r
  end.

(** ** Merge engine *)

(** One round of the loop of [combineTypeAndSubType]. *)
Definition combineSubType (subTypeName : SubTypeName) (conflictResolvers : ConflictResolvers)
    (rType : TypeNode) (lType : TypeNode) (rSubType : SubNode) : result TypeNode :=
  match getSub subTypeName lType with
  | None => Throw TypeError
  | Some lSubs =>
      match findSub (sub_name rSubType) lSubs with
      | None => Ok (setSub subTypeName lType (lSubs ++ [rSubType]))
      | Some (i, lSubType) =>
          let resultingSubType :=
            subTypeResolverMap subTypeName conflictResolvers lType lSubType rType rSubType in
          let* index := fieldsIndexOf subTypeName lType i in
          Ok (setSub subTypeName lType (splice lSubs index 1 [resultingSubType]))
      end
  end.

Definition combineTypeAndSubType (subTypeName : SubTypeName) (lType rType : TypeNode)
    (conflictResolvers : ConflictResolvers) : result TypeNode :=
  match getSub subTypeName rType with
  | None => Ok lType
  | Some rSubs => forOf (combineSubType subTypeName conflictResolvers rType) rSubs lType
  end.

(** The arms of [switch (lType.kind)]; every kind without an arm of its own
    takes the [default] arm, which is the struct-like one. *)
Inductive KindArm : Type := ArmStruct | ArmEnum | ArmUnion | ArmScalar.

Definition kindArm (k : string) : KindArm :=
  if String.eqb k "EnumTypeDefinition" then ArmEnum
  else if String.eqb k "UnionTypeDefinition" then ArmUnion
  else if String.eqb k "ScalarTypeDefinitionNode" then ArmScalar
  else ArmStruct.

(** A built schema, as far as the engine looks into it:
    [schema.getType(name)._scalarConfig]. *)
Definition SchemaRegistry : Type := string -> option ScalarConfig.

(** [lScalarConfig]: stays [undefined] without a schema, else
    [lScalar && lScalar._scalarConfig || null]; both read as "no config". *)
Definition scalarConfigOf (schema : option SchemaRegistry) (n : string) : option ScalarConfig :=
  match schema with
  | None => None
  | Some getType => getType n
  end.

Abbreviation ScalarFns := (gmap string ScalarConfig).

(** The body of [for (let rType of rAST.definitions)] in [mergeSDL]. *)
Definition mergeType (conflictResolvers : ConflictResolvers)
    (thisSchema sourceSchema : option SchemaRegistry)
    (st : Document * ScalarFns) (rType0 : TypeNode) : result (Document * ScalarFns) :=
  let '(lAST, scalarFns) := st in
  let* found := findDefinition rType0 lAST in
  let rType := normalizeExtension rType0 in
  match found with
  | None => Ok (lAST ++ [rType], scalarFns)
  | Some (i, lType) =>
      match kindArm (kind lType) with
      | ArmStruct =>
          let* l1 := combineTypeAndSubType SubDirectives lType rType conflictResolvers in
          let* l2 := combineTypeAndSubType SubFields l1 rType conflictResolvers in
          Ok (<[i := l2]> lAST, scalarFns)
      | ArmEnum =>
          let* l1 := combineTypeAndSubType SubDirectives lType rType conflictResolvers in
          let* l2 := combineTypeAndSubType SubValues l1 rType conflictResolvers in
          Ok (<[i := l2]> lAST, scalarFns)
      | ArmUnion =>
          let* l1 := combineTypeAndSubType SubDirectives lType rType conflictResolvers in
          let* l2 := combineTypeAndSubType SubTypes l1 rType conflictResolvers in
          Ok (<[i := l2]> lAST, scalarFns)
      | ArmScalar =>
          let* l1 := combineTypeAndSubType SubDirectives lType rType conflictResolvers in
          let lScalarConfig := scalarConfigOf thisSchema (name l1) in
          let rScalarConfig := scalarConfigOf sourceSchema (name rType) in
          let resolver :=
            scalarMergeResolver conflictResolvers l1 lScalarConfig rType rScalarConfig in
          Ok (<[i := l1]> lAST,
              match resolver with
              | Some config => <[name l1 := config]> scalarFns
              | None => scalarFns
              end)
      end
  end.

(** The whole loop: the left-hand tree after it, and [_scalarFns]. *)
Definition mergeDefinitions (conflictResolvers : ConflictResolvers)
    (thisSchema sourceSchema : option SchemaRegistry)
    (lAST rAST : Document) : result (Document * ScalarFns) :=
  forOf (mergeType conflictResolvers thisSchema sourceSchema) rAST (lAST, ∅).

(** The tree a merge with the module's initial resolvers produces. *)
Definition mergeTrees (lAST rAST : Document) : result Document :=
  let* st := mergeDefinitions DefaultConflictResolvers None None lAST rAST in
  Ok (fst st).

(** ** Resolver maps

    A resolver map is a plain object whose values are resolver functions
    (flattened root form) or nested objects [{ field: fn }] (nested form).
    Functions and nested objects are heap objects: a shallow copy of the
    map shares them with the original. The heap holds the own properties
    of each that read as truthy: for a nested object its resolvers, for a
    function what it carries itself (a [name] that is not empty, a
    [length] that is not 0, whatever was assigned to it).

    A property read also sees what the object inherits. Not modelled: a
    type name that is itself a member of [Object.prototype] and has no
    entry in the map (the read [resolvers[typeName]] would then answer the
    inherited builtin), an own property with a falsy value under the name
    of an inherited member, the accessors [arguments] and [caller] a
    function inherits, and own properties that cannot be deleted
    ([prototype]). *)

Definition Fn : Type := string.

(** A value of the map: a function (its identity and the address of its
    own properties) or a nested object (its address). *)
Inductive ResolverEntry : Type :=
| ResolverFn (f : Fn) (own : nat)
| ResolverObj (l : nat).

Abbreviation ResolverMap := (gmap string ResolverEntry).
Abbreviation Heap := (list (gmap string Fn)).

(** The string-keyed members of [Object.prototype]: every object inherits
    them, and each reads as a truthy value. *)
Definition objectPrototypeMembers : list string :=
  [ "constructor"; "__defineGetter__"; "__defineSetter__"; "hasOwnProperty";
    "__lookupGetter__"; "__lookupSetter__"; "isPrototypeOf"; "propertyIsEnumerable";
    "toString"; "valueOf"; "__proto__"; "toLocaleString" ].

(** What a function inherits besides from [Function.prototype] and reads
    as truthy (its [name] and [length] there are [""] and [0]). *)
Definition functionPrototypeMembers : list string := ["apply"; "bind"; "call"].

Definition entryAddress (entry : ResolverEntry) : nat :=
  match entry with
  | ResolverFn _ l => l
  | ResolverObj l => l
  end.

(** [entry[p]] read off the entry's own properties. *)
Definition ownProperty (entry : ResolverEntry) (heap : Heap) (p : string) : bool :=
  match heap !! entryAddress entry with
  | Some o => bool_decide (is_Some (o !! p))
  | None => false
  end.

(** [entry[p]] read off what the entry inherits. *)
Definition inheritedProperty (entry : ResolverEntry) (p : string) : bool :=
  bool_decide (p ∈ objectPrototypeMembers)
  || match entry with
     | ResolverFn _ _ => bool_decide (p ∈ functionPrototypeMembers)
     | ResolverObj _ => false
     end.

(** [resolvers[typeName] && resolvers[typeName][subName]] *)
Definition nestedTruthy (resolvers : ResolverMap) (heap : Heap) (typeName subName : string)
    : bool :=
  match resolvers !! typeName with
  | Some entry => ownProperty entry heap subName || inheritedProperty entry subName
  | None => false
  end.

(** The resolver a caller who holds [resolvers] finds in the nested object
    at [resolvers[typeName][subName]]. *)
Definition lookupNested (resolvers : ResolverMap) (heap : Heap) (typeName subName : string)
    : option Fn :=
  match resolvers !! typeName with
  | Some (ResolverObj l) =>
      match heap !! l with
      | Some o => o !! subName
      | None => None
      end
  | _ => None
  end.

(** The [if ... delete ... else if ... delete ...] at the end of a round of
    [pareTypeAndSubType]. [delete] takes an own property away and leaves an
    inherited one where it is; in the second branch it has an effect on an
    own entry of the map only. *)
Definition deleteResolver (typeName subName : string) (resolvers : ResolverMap) (heap : Heap)
    : ResolverMap * Heap :=
  if nestedTruthy resolvers heap typeName subName
  then
    match resolvers !! typeName with
    | Some entry => (resolvers, alter (delete subName) (entryAddress entry) heap)
    | None => (resolvers, heap)
    end
  else
    match resolvers !! subName with
    | Some _ => (delete subName resolvers, heap)
    | None => (resolvers, heap)
    end.

(** ** Pare engine

    The heap outlives an exception, so it is returned next to the result. *)

Fixpoint forOfH {S A} (body : S -> A -> Heap -> result S * Heap)
    (xs : list A) (s : S) (heap : Heap) : result S * Heap :=
  match xs with
  | [] => (Ok s, heap)
  | x :: more =>
      match body s x heap with
      | (Ok s', heap') => forOfH body more s' heap'
      | (Throw e, heap') => (Throw e, heap')
      end
  end.

(** One round of the loop of [pareTypeAndSubType]. *)
Definition pareSubType (subTypeName : SubTypeName)
    (st : TypeNode * ResolverMap) (rSubType : SubNode) (heap : Heap)
    : result (TypeNode * ResolverMap) * Heap :=
  let '(lType, resolvers) := st in
  match getSub subTypeName lType with
  | None => (Throw TypeError, heap)
  | Some lSubs =>
      match findSub (sub_name rSubType) lSubs with
      | None => (Ok st, heap)
      | Some (i, lSubType) =>
          match fieldsIndexOf subTypeName lType i with
          | Throw e => (Throw e, heap)
          | Ok index =>
              let lType' := setSub subTypeName lType (splice lSubs index 1 []) in
              let '(resolvers', heap') :=
                deleteResolver (name lType) (sub_name lSubType) resolvers heap in
              (Ok (lType', resolvers'), heap')
          end
      end
  end.

Definition pareTypeAndSubType (subTypeName : SubTypeName) (lType rType : TypeNode)
    (resolvers : ResolverMap) (heap : Heap) : result (TypeNode * ResolverMap) * Heap :=
  match getSub subTypeName rType with
  | None => (Throw TypeError, heap)
  | Some rSubs => forOfH (pareSubType subTypeName) rSubs (lType, resolvers) heap
  end.

(** [if (!lType[sub].length) { lAST.definitions.splice(indexOf(lType), 1) }]
    for the node found at position [i]; otherwise the node stays, pared. *)
Definition dropIfEmpty (subTypeName : SubTypeName) (i : nat) (lType : TypeNode) (lAST : Document)
    : result Document :=
  match getSub subTypeName lType with
  | None => Throw TypeError
  | Some [] => Ok (delete i lAST)
  | Some (_ :: _) => Ok (<[i := lType]> lAST)
  end.

(** The two pare passes of one [switch] arm, then the emptiness test. *)
Definition pareArm (subTypeName : SubTypeName) (i : nat) (lType rType : TypeNode)
    (lAST : Document) (resolvers : ResolverMap) (heap : Heap)
    : result (Document * ResolverMap) * Heap :=
  match pareTypeAndSubType SubDirectives lType rType resolvers heap with
  | (Throw e, h1) => (Throw e, h1)
  | (Ok (l1, r1), h1) =>
      match pareTypeAndSubType subTypeName l1 rType r1 h1 with
      | (Throw e, h2) => (Throw e, h2)
      | (Ok (l2, r2), h2) =>
          (let* lAST' := dropIfEmpty subTypeName i l2 lAST in Ok (lAST', r2), h2)
      end
  end.

(** The body of [for (let rType of rAST.definitions)] in [pareSDL]. *)
Definition pareType (st : Document * ResolverMap) (rType0 : TypeNode) (heap : Heap)
    : result (Document * ResolverMap) * Heap :=
  let '(lAST, resolvers) := st in
  match findDefinition rType0 lAST with
  | Throw e => (Throw e, heap)
  | Ok found =>
      let rType := normalizeExtension rType0 in
      match found with
      | None => (Ok (lAST ++ [rType], resolvers), heap)
      | Some (i, lType) =>
          match kindArm (kind lType) with
          | ArmStruct => pareArm SubFields i lType rType lAST resolvers heap
          | ArmEnum => pareArm SubValues i lType rType lAST resolvers heap
          | ArmUnion => pareArm SubTypes i lType rType lAST resolvers heap
          | ArmScalar => (Ok (delete i lAST, resolvers), heap)
          end
      end
  end.

Definition pareDefinitions (lAST rAST : Document) (resolvers : ResolverMap) (heap : Heap)
    : result (Document * ResolverMap) * Heap :=
  forOfH pareType rAST (lAST, resolvers) heap.

(** ** Values accepted as "a schema" *)

(** A [Schemata] instance: its text ([this[TYPEDEFS_KEY]]), its resolver map
    and the schema object kept in its weak map, if one was supplied or has
    been stored by [executableSchema]. *)
Record Schemata : Type := mkSchemata {
  sdl : string;
  resolvers : option ResolverMap;
  storedSchema : option SchemaRegistry
}.

(** A built [GraphQLSchema]: what [printSchema] prints for it, the fields
    that carry a [resolve] function (in the order [forEachField] visits
    them) and its type registry. *)
Record GraphQLSchema : Type := mkGraphQLSchema {
  printSchema : string;
  schemaResolvers : list (string * string * Fn);
  schemaRegistry : SchemaRegistry
}.

Inductive JsValue : Type :=
| JsUndefined
| JsNull
| JsString (s : string)
| JsSource (body : string)
| JsSchemata (s : Schemata)
| JsGraphQLSchema (g : GraphQLSchema).

(** [!typeDefs] *)
Definition falsy (v : JsValue) : bool :=
  match v with
  | JsUndefined | JsNull => true
  | JsString s => String.eqb s ""
  | _ => false
  end.

Section TopLevel.

(** The collaborators, all from outside the repository: the tag function
    [inline] of the package ne-tag-fns, as far as the messages built here
    go (what it prints for the one value interpolated into the template);
    [gql.parse] ([None] when it throws), [gql.print] and [gql.buildSchema]
    ([None] when it throws). *)
Variable inline : JsValue -> string.
Variable parse : string -> option Document.
Variable print : Document -> string.
Variable buildSchema : string -> option SchemaRegistry.

(** One more collaborator: the walk [forEachField] of the repository's
    module ./forEachOf, which is not among the sources. As the getter
    [executableSchema] uses it: the schema as the walk leaves it, run
    over a built schema with the callback that binds the resolvers of the
    given map to the fields it visits, [None] when the walk throws. The
    callback reads the resolver map and writes to the visited field
    only. *)
Variable bindResolvers : SchemaRegistry -> ResolverMap -> option SchemaRegistry.

(** [normalizeSource(typeDefs)] with [wrap] left [false]. *)
Definition normalizeSource (typeDefs : JsValue) : result string :=
  if falsy typeDefs
  then Throw (InvalidInput "normalizeSource" (inline typeDefs))
  else
    Ok (match typeDefs with
        | JsString s => s
        | JsSource body => if String.eqb body "" then "[object Object]" else body
        | JsSchemata s => sdl s
        | JsGraphQLSchema g => printSchema g
        | _ => ""
        end).

(** [Schemata.from(text, resolvers)] on a text: the constructor normalizes
    its argument once more, so the empty text is refused. *)
Definition SchemataFrom (text : string) (resolverMap : option ResolverMap) : result Schemata :=
  let* source := normalizeSource (JsString text) in
  Ok (mkSchemata source resolverMap None).

(** [normalizeSource(typeDefs, true)] *)
Definition normalizeSourceWrap (typeDefs : JsValue) : result Schemata :=
  let* source := normalizeSource typeDefs in
  SchemataFrom source None.

(** [!source] for a [Schemata] instance: an object is never falsy. *)
Definition falsyObject (source : Schemata) : bool := false.

(** One step of [stripResolversFromSchema]: a nested object is allocated
    the first time a type name is seen. *)
Definition stripField (st : ResolverMap * Heap) (x : string * string * Fn) : ResolverMap * Heap :=
  let '(resolverMap, heap) := st in
  let '(typeName, fieldName, fn) := x in
  match resolverMap !! typeName with
  | Some (ResolverObj l) => (resolverMap, alter (insert fieldName fn) l heap)
  | _ => (<[typeName := ResolverObj (length heap)]> resolverMap, heap ++ [{[fieldName := fn]}])
  end.

Definition stripResolversFromSchema (g : GraphQLSchema) (heap : Heap) : ResolverMap * Heap :=
  fold_left stripField (schemaResolvers g) (∅, heap).

(** [new Schemata(typeDefs, resolvers)]: the text is normalized first; the
    resolver map is the one supplied, else the one of the [Schemata] or the
    one stripped from the [GraphQLSchema] the instance is built from; a
    [GraphQLSchema] is kept as the stored schema. *)
Definition newSchemata (typeDefs : JsValue) (resolverMap : option ResolverMap) (heap : Heap)
    : result Schemata * Heap :=
  match normalizeSource typeDefs with
  | Throw e => (Throw e, heap)
  | Ok text =>
      let '(kept, heap') :=
        match resolverMap, typeDefs with
        | Some m, _ => (Some m, heap)
        | None, JsSchemata s => (resolvers s, heap)
        | None, JsGraphQLSchema g =>
            let '(stripped, h) := stripResolversFromSchema g heap in (Some stripped, h)
        | None, _ => (None, heap)
        end in
      (Ok (mkSchemata text kept
             (match typeDefs with
              | JsGraphQLSchema g => Some (schemaRegistry g)
              | _ => None
              end)),
       heap')
  end.

(** [this.ast]: [Schemata.parse(this.sdl, false)] swallows every
    exception and answers [null]. *)
Definition ast (s : Schemata) : option Document :=
  if String.eqb (sdl s) "" then None else parse (sdl s).

(** [this.schema]: the stored schema, else one built from the text,
    [null] when that fails. *)
Definition schemaOf (s : Schemata) : option SchemaRegistry :=
  match storedSchema s with
  | Some registry => Some registry
  | None => if String.eqb (sdl s) "" then None else buildSchema (sdl s)
  end.

(** The tail of [mergeSDL]:
    [merged.schema.getType(typeName)._scalarConfig = _scalarConfig[typeName]]
    names a variable that is declared nowhere. *)
Definition attachScalarFns (merged : Schemata) (scalarFns : ScalarFns) : result Schemata :=
  if decide (scalarFns = ∅) then Ok merged
  else
    match schemaOf merged with
    | None => Throw TypeError
    | Some _ => Throw ReferenceError
    end.

(** [mergeSDL] from the loop on. A tree that failed to parse is [null]:
    on the right the loop header throws; on the left the first
    [lAST.definitions.find] throws, and when the right tree has no
    definition the printer hands the [null] on to [Schemata.from]. *)
Definition mergeBody (this source : Schemata) (conflictResolvers : ConflictResolvers)
    : result Schemata :=
  match ast source, ast this with
  | None, _ => Throw TypeError
  | Some [], None => Throw (InvalidInput "normalizeSource" (inline JsNull))
  | Some (_ :: _), None => Throw TypeError
  | Some rAST, Some lAST =>
      let* st :=
        mergeDefinitions conflictResolvers (schemaOf this) (schemaOf source) lAST rAST in
      let* merged := SchemataFrom (print (fst st)) None in
      attachScalarFns merged (snd st)
  end.

(** [this.mergeSDL(schemaLanguage, conflictResolvers)]. [defaults] is the
    content of the module-level [DefaultConflictResolvers] object when the
    call starts; the second component is its content when the call ends.
    [None] for [conflictResolvers] is an argument left out: the parameter
    then defaults to that very object. *)
Definition mergeSDL (this : Schemata) (schemaLanguage : JsValue)
    (conflictResolvers : option CustomResolvers) (defaults : ConflictResolvers)
    : result Schemata * ConflictResolvers :=
  match normalizeSourceWrap schemaLanguage with
  | Throw e => (Throw e, defaults)
  | Ok source =>
      if falsyObject source
      then (Throw (MergeInvalidValue (inline schemaLanguage)), defaults)
      else
        let assigned :=
          match conflictResolvers with
          | None => defaults
          | Some custom => Object_assign defaults custom
          end in
        (mergeBody this source assigned, assigned)
  end.

(** The getter [executableSchema] as [pareSDL] calls it, on the instance
    it has just built: no schema is stored in it and its resolver map is
    [resolverMap]. The answer is the instance as the getter leaves it.
    When building a schema from the text throws, the getter answers
    [null] and stores nothing; else it stores the built schema, runs the
    walk over it and stores it again. *)
Definition executableSchema (instance : Schemata) (resolverMap : ResolverMap)
    : result Schemata :=
  match buildSchema (sdl instance) with
  | None => Ok instance
  | Some schema =>
      match bindResolvers schema resolverMap with
      | None => Throw WalkError
      | Some bound => Ok (mkSchemata (sdl instance) (resolvers instance) (Some bound))
      end
  end.

(** [this.pareSDL(schemaLanguage, resolverMap)]; [heap] holds the objects
    of every resolver map in scope. *)
Definition pareSDL (this : Schemata) (schemaLanguage : JsValue)
    (resolverMap : option ResolverMap) (heap : Heap) : result Schemata * Heap :=
  match normalizeSourceWrap schemaLanguage with
  | Throw e => (Throw e, heap)
  | Ok source =>
      if falsyObject source then (Throw PareUnparsable, heap) else
      let '(resolverMap1, heap1) :=
        match schemaLanguage, resolverMap with
        | JsGraphQLSchema g, None =>
            let '(stripped, h) := stripResolversFromSchema g heap in (Some stripped, h)
        | _, _ => (resolverMap, heap)
        end in
      (* [Object.assign({}, resolverMap || this.resolvers || {})] *)
      let cloned : ResolverMap :=
        match resolverMap1 with
        | Some m => m
        | None => default ∅ (resolvers this)
        end in
      match ast source, ast this with
      | None, _ => (Throw TypeError, heap1)
      | Some [], None => (Throw (InvalidInput "normalizeSource" (inline JsNull)), heap1)
      | Some (_ :: _), None => (Throw TypeError, heap1)
      | Some rAST, Some lAST =>
          match pareDefinitions lAST rAST cloned heap1 with
          | (Throw e, heap2) => (Throw e, heap2)
          | (Ok (lAST', pared), heap2) =>
              (let* result := SchemataFrom (print lAST') (Some pared) in
               executableSchema result pared,
               heap2)
          end
      end
  end.

End TopLevel.

(** ** Observations on trees and resolver maps *)

Definition subNames (l : option (list SubNode)) : list string :=
  match l with
  | Some subs => sub_name <$> subs
  | None => []
  end.

(** The field names of the definition called [typeName], when there is one. *)
Definition fieldNamesOf (typeName : string) (doc : Document) : option (list string) :=
  match findType typeName doc with
  | Some (_, node) => Some (subNames (fields node))
  | None => None
  end.

(** [doc] has a definition called [typeName] with a field called [fieldName]. *)
Definition hasField (doc : Document) (typeName fieldName : string) : Prop :=
  exists node, node ∈ doc /\ name node = typeName /\ fieldName ∈ subNames (fields node).

Definition rootTypeNames : list string := ["Query"; "Mutation"; "Subscription"].

(** Every leaf of the resolver map names a field of the document: a nested
    leaf names a field of its type, a flattened leaf a field of a root
    operation type. *)
Definition leavesNameFields (doc : Document) (resolverMap : ResolverMap) (heap : Heap) : Prop :=
  (forall typeName fieldName fn,
      lookupNested resolverMap heap typeName fieldName = Some fn ->
      hasField doc typeName fieldName)
  /\ (forall fieldName fn own,
         resolverMap !! fieldName = Some (ResolverFn fn own) ->
         exists root, root ∈ rootTypeNames /\ hasField doc root fieldName).

(** [resolvers[typeName]] has an own property [subName]. *)
Definition ownNested (resolvers : ResolverMap) (heap : Heap) (typeName subName : string)
    : bool :=
  match resolvers !! typeName with
  | Some entry => ownProperty entry heap subName
  | None => false
  end.

(** Every entry of the first map is an entry of the second, and what it
    holds (read through the first heap) it holds in the second: every leaf
    of the first map is a leaf of the second. *)
Definition leavesWithin (r' : ResolverMap) (h' : Heap) (r : ResolverMap) (h : Heap) : Prop :=
  forall key entry,
    r' !! key = Some entry ->
    r !! key = Some entry
    /\ forall o', h' !! entryAddress entry = Some o' ->
         exists o, h !! entryAddress entry = Some o /\ o' ⊆ o.

(** No resolver of a root field is stored twice: where the map has a
    flattened entry [fieldName], the read [resolvers[root][fieldName]] is
    falsy for each root operation type. *)
Definition storedOnce (resolverMap : ResolverMap) (heap : Heap) : Prop :=
  forall root fieldName fn own,
    root ∈ rootTypeNames ->
    resolverMap !! fieldName = Some (ResolverFn fn own) ->
    nestedTruthy resolverMap heap root fieldName = false.

(** Only a definition of a struct-like kind has a fields array, as in
    every tree a parser builds. *)
Definition fieldsAreStruct (node : TypeNode) : Prop :=
  is_Some (fields node) -> kindArm (kind node) = ArmStruct.

(** ** Trees of the examples, as the parser builds them *)

Definition objectType (n : string) (ds fs : list SubNode) : TypeNode :=
  mkType "ObjectTypeDefinition" (Some n) (Some ds) (Some fs) None None "".
Definition objectExtension (n : string) (ds fs : list SubNode) : TypeNode :=
  mkType "ObjectTypeExtension" (Some n) (Some ds) (Some fs) None None "".
Definition enumType (n : string) (ds vs : list SubNode) : TypeNode :=
  mkType "EnumTypeDefinition" (Some n) (Some ds) None (Some vs) None "".
Definition unionType (n : string) (ds ts : list SubNode) : TypeNode :=
  mkType "UnionTypeDefinition" (Some n) (Some ds) None None (Some ts) "".
Definition scalarType (n : string) (ds : list SubNode) : TypeNode :=
  mkType "ScalarTypeDefinition" (Some n) (Some ds) None None None "".

(** ["schema { query: Q }"]: a definition without a name. *)
Definition schemaDefinition : TypeNode :=
  mkType "SchemaDefinition" None (Some []) None None None "query: Q".

(** ["type Query { hello: String } type Foo { a: Int }"] *)
Definition docA : Document :=
  [ objectType "Query" [] [mkSub "hello" "String"];
    objectType "Foo" [] [mkSub "a" "Int"] ].

(** ["type Query { world: String } type Foo { a: Int b: Int }"] *)
Definition docB : Document :=
  [ objectType "Query" [] [mkSub "world" "String"];
    objectType "Foo" [] [mkSub "a" "Int"; mkSub "b" "Int"] ].

(** A parser stand-in for closed examples: it knows the texts of [table]
    and rejects every other text. *)
Definition parseTable (table : list (string * Document)) (text : string) : option Document :=
  snd <$> find (fun entry => String.eqb (fst entry) text) table.

(** A printer stand-in for closed examples: the kind and the name of each
    definition. *)
Definition printNames (doc : Document) : string :=
  String.concat " " ((fun node => String.append (kind node) (String.append " " (name node))) <$> doc).

(** A printer stand-in that shows the fields: the name of each definition
    and, between braces, its fields with what stands for their type. *)
Definition printField (f : SubNode) : string :=
  String.append " " (String.append (sub_name f) (String.append ": " (sub_detail f))).

Definition printFields (doc : Document) : string :=
  String.concat " "
    ((fun node =>
        String.append (name node)
          (String.append " {"
             (String.append (String.concat "" (printField <$> default [] (fields node))) " }")))
       <$> doc).

(** A run of [mergeSDL] calls that pass no [conflictResolvers], one after
    the other, against the same module-level object. *)
Fixpoint mergeCalls (inline : JsValue -> string)
    (parse : string -> option Document) (print : Document -> string)
    (buildSchema : string -> option SchemaRegistry)
    (calls : list (Schemata * JsValue)) (defaults : ConflictResolvers)
    : list (result Schemata) * ConflictResolvers :=
  match calls with
  | [] => ([], defaults)
  | (this, schemaLanguage) :: more =>
      let '(r, defaults') :=
        mergeSDL inline parse print buildSchema this schemaLanguage None defaults in
      let '(rs, defaults'') := mergeCalls inline parse print buildSchema more defaults' in
      (r :: rs, defaults'')
  end.

(** A caller's record that overrides the field handler alone, with "the
    left field wins". *)
Definition keepLeftField : CustomResolvers :=
  mkCustom (Some (fun leftType leftField rightType rightField => leftField))
    None None None None.

(** ["scalar Date"], as the parser builds it, and the same node under the
    kind name the [switch] of [mergeSDL] and [pareSDL] tests for. *)
Definition docDate : Document := [scalarType "Date" []].
Definition docDateNode : Document :=
  [mkType "ScalarTypeDefinitionNode" (Some "Date") (Some []) None None None ""].

(** A registry that knows a config for [Date]. *)
Definition dateRegistry (config : ScalarConfig) : SchemaRegistry :=
  fun typeName => if String.eqb typeName "Date" then Some config else None.

(** ["type T { f: Int g: Int }"] and ["type T { f: Int }"], and a caller's
    nested resolver map [{ T: { f, g } }] for them. *)
Definition docT : Document := [objectType "T" [] [mkSub "f" "Int"; mkSub "g" "Int"]].
Definition docTf : Document := [objectType "T" [] [mkSub "f" "Int"]].
Definition callerMap : ResolverMap := {["T" := ResolverObj 0]}.
Definition callerHeap : Heap := [ <["f" := "resolveF"]> {["g" := "resolveG"]} ].
Definition docTfString : Document := [objectType "T" [] [mkSub "f" "String"]].
Definition exampleParse : string -> option Document :=
  parseTable [ ("type T { f: Int g: Int }", docT); ("type T { f: Int }", docTf);
               ("type T { f: String }", docTfString) ].

(** A tag function for closed examples: it prints nothing for a value
    that is no text. *)
Definition inlineText (v : JsValue) : string :=
  match v with
  | JsString s => s
  | _ => ""
  end.

(** The first definition called [typeName] is struct-like and still has a
    field called [fieldName]. *)
Definition fieldStillThere (typeName fieldName : string) (lAST : Document) : Prop :=
  exists i lType,
    findType typeName lAST = Some (i, lType)
    /\ kindArm (kind lType) = ArmStruct
    /\ fieldName ∈ subNames (fields lType).

(** The resolver of [typeName].[fieldName] is gone from the map [r]: no
    own entry at [r[typeName][fieldName]], and no top-level entry either
    when, on the map [r0] the pare started from, the read
    [r0[typeName][fieldName]] was falsy. *)
Definition entryGone (typeName fieldName : string)
    (r0 : ResolverMap) (h0 : Heap) (r : ResolverMap) (h : Heap) : Prop :=
  ownNested r h typeName fieldName = false
  /\ (nestedTruthy r0 h0 typeName fieldName = false -> r !! fieldName = None).

(** ["type Query { hello: String world: String }"] and
    ["type Query { hello: String }"], with a resolver map that holds the
    resolver of [hello] both nested and flattened. *)
Definition docQuery : Document :=
  [objectType "Query" [] [mkSub "hello" "String"; mkSub "world" "String"]].
Definition docHello : Document := [objectType "Query" [] [mkSub "hello" "String"]].
Definition mixedMap : ResolverMap :=
  <["Query" := ResolverObj 0]> {["hello" := ResolverFn "rootHello" 1]}.
Definition mixedHeap : Heap :=
  [ {["hello" := "resolveHello"]}; <["name" := "hello"]> {["length" := "4"]} ].

(** The same tree with a resolver map in flattened root form: each
    resolver is a function of four parameters that carries its name. *)
Definition flatMap : ResolverMap :=
  <["hello" := ResolverFn "rootHello" 0]> {["world" := ResolverFn "rootWorld" 1]}.
Definition flatHeap : Heap :=
  [ <["name" := "hello"]> {["length" := "4"]}; <["name" := "world"]> {["length" := "4"]} ].

(** ["type Query { name: String Query: String }"] and
    ["type Query { name: String }"], with a resolver map in flattened root
    form: the resolver stored under [Query] is a function, and a function
    has a [name]. *)
Definition docSelf : Document :=
  [objectType "Query" [] [mkSub "name" "String"; mkSub "Query" "String"]].
Definition docName : Document := [objectType "Query" [] [mkSub "name" "String"]].
Definition selfMap : ResolverMap :=
  <["Query" := ResolverFn "rootQuery" 0]> {["name" := ResolverFn "rootName" 1]}.
Definition selfHeap : Heap :=
  [ <["name" := "Query"]> {["length" := "4"]}; <["name" := "name"]> {["length" := "4"]} ].

(** The tree side of what a pare step returns. *)
Definition treeOf {T} (x : result (T * ResolverMap) * Heap) : result T :=
  match fst x with
  | Ok (t, _) => Ok t
  | Throw e => Throw e
  end.

(** A nested resolver map for [docT] that also holds a leaf for a type the
    document does not have. *)
Definition strayMap : ResolverMap :=
  <["T" := ResolverObj 0]> {["Gone" := ResolverObj 1]}.
Definition strayHeap : Heap :=
  [ <["f" := "resolveF"]> {["g" := "resolveG"]}; {["x" := "resolveX"]} ].

(** ** Tree accessors of [Schemata] *)

(** [this.validSDL]: does [gql.parse(this.sdl)] return? *)
Definition validSDL (parse : string -> option Document) (s : Schemata) : bool :=
  match parse (sdl s) with
  | Some _ => true
  | None => false
  end.

(** [this.ast.definitions]: reading [definitions] off a [null] tree throws. *)
Definition astDefinitions (parse : string -> option Document) (s : Schemata) : result Document :=
  match ast parse s with
  | Some definitions => Ok definitions
  | None => Throw TypeError
  end.

(** [this.astTypeByName(type)]: [null] without valid SDL, else the first
    definition of that name ([undefined] when there is none). *)
Definition astTypeByName (parse : string -> option Document) (s : Schemata) (type : string)
    : result (option TypeNode) :=
  if validSDL parse s
  then let* definitions := astDefinitions parse s in
       let* _type := findByName type definitions in
       Ok (snd <$> _type)
  else Ok None.

(** [this.astFieldByName(type, field)]:
    [_type && _type.fields.find(f => f.name.value === field) || null]. *)
Definition astFieldByName (parse : string -> option Document) (s : Schemata) (type field : string)
    : result (option SubNode) :=
  if validSDL parse s
  then let* definitions := astDefinitions parse s in
       let* found := findByName type definitions in
       match found with
       | None => Ok None
       | Some (_, _type) =>
           match fields _type with
           | None => Throw TypeError
           | Some fs => Ok (snd <$> findSub field fs)
           end
       end
  else Ok None.

(** [key in resolvers]: an own key of the map, or a member the map
    inherits from [Object.prototype]. *)
Definition keyIn (key : string) (resolverMap : ResolverMap) : bool :=
  bool_decide (is_Some (resolverMap !! key)) || bool_decide (key ∈ objectPrototypeMembers).

(** The inner loops of [hasFlattenedResolvers]: is some field name of the
    type [in] the resolver map? A type that was not found, or that has
    no fields array, is skipped. *)
Definition rootHasResolverKey (resolverMap : ResolverMap) (type : option (nat * TypeNode)) : bool :=
  match type with
  | Some (_, node) =>
      match fields node with
      | Some fs => existsb (fun field => keyIn (sub_name field) resolverMap) fs
      | None => false
      end
  | None => false
  end.

(** [this.hasFlattenedResolvers] *)
Definition hasFlattenedResolvers (parse : string -> option Document) (s : Schemata) : result bool :=
  let* asts :=
    (if validSDL parse s
     then let* definitions := astDefinitions parse s in Ok (Some definitions)
     else Ok None) in
  match asts, resolvers s with
  | Some definitions, Some resolverMap =>
      let* query := findByName "Query" definitions in
      let* mutation := findByName "Mutation" definitions in
      let* subscription := findByName "Subscription" definitions in
      match query, mutation, subscription with
      | None, None, None => Ok false
      | _, _, _ =>
          Ok (existsb (rootHasResolverKey resolverMap) [query; mutation; subscription])
      end
  | _, _ => Ok false
  end.

(** ** [ExtendedResolver]: the ordered list of resolvers around an original *)

Module ExtendedResolver.

(** A value handed to [prepend], [append], [push] or as a patcher: a plain
    function, an [ExtendedResolver] instance (whose [Symbol.toStringTag]
    is its class name), or anything else. Values are told apart by
    identity. *)
Inductive Arg : Type :=
| AFunction (f : Fn)
| AExtended (id : Fn)
| AOther (id : Fn) (truthy : bool).

(** The instance state: [this[listing]], [this[original]], [this[patcher]]
    ([None] for [null]). *)
Record t : Type := mk {
  listing : list Fn;
  original : Fn;
  patcher : option Arg
}.

Definition argId (a : Arg) : Fn :=
  match a with
  | AFunction f => f
  | AExtended id => id
  | AOther id _ => id
  end.

Definition argTruthy (a : Arg) : bool :=
  match a with
  | AOther _ truthy => truthy
  | _ => true
  end.

(** [isFn]: [/Function\]/.test(Object.prototype.toString.call(o))]. An
    instance of [ExtendedResolver] answers ["[object ExtendedResolver]"]. *)
Definition isFn (a : Arg) : bool :=
  match a with
  | AFunction _ => true
  | _ => false
  end.

(** What the constructor is given: nothing ([defaultFieldResolver] then),
    an [ExtendedResolver], or any other value. *)
Inductive CtorArg : Type :=
| Omitted
| FromExtended (e : t)
| FromValue (resolver : Fn).

Definition defaultFieldResolver : Fn := "defaultFieldResolver".

(** [new ExtendedResolver(resolver)] *)
Definition new (resolver : CtorArg) : t :=
  match resolver with
  | FromExtended e => mk (listing e) (original e) (patcher e)
  | FromValue r => mk [r] r None
  | Omitted => mk [defaultFieldResolver] defaultFieldResolver None
  end.

(** [this[listing].indexOf(this[original])], [None] for -1. *)
Definition indexOfOriginal (e : t) : option nat :=
  fst <$> list_find (fun f => f = original e) (listing e).

(** [originalIndex] *)
Definition originalIndex (e : t) : Z :=
  match indexOfOriginal e with
  | Some i => Z.of_nat i
  | None => (-1)%Z
  end.

Definition setListing (e : t) (l : list Fn) : t := mk l (original e) (patcher e).

(** [prepend(preresolver)]: [index = ~index ? index : 0]. *)
Definition prepend (e : t) (preresolver : Arg) : t :=
  if argTruthy preresolver && isFn preresolver
  then
    let index := match indexOfOriginal e with Some i => i | None => 0 end in
    setListing e (splice (listing e) (Z.of_nat index) 0 [argId preresolver])
  else e.

(** [append(postresolver)]: [index = ~index ? index + 1 : length]. *)
Definition append (e : t) (postresolver : Arg) : t :=
  if argTruthy postresolver && isFn postresolver
  then
    let index :=
      match indexOfOriginal e with Some i => i + 1 | None => length (listing e) end in
    setListing e (splice (listing e) (Z.of_nat index) 0 [argId postresolver])
  else e.

(** [push(postresolver)] *)
Definition push (e : t) (postresolver : Arg) : t :=
  if argTruthy postresolver && isFn postresolver
  then setListing e (listing e ++ [argId postresolver])
  else e.

(** [ExtendedResolver.from(resolver, patcher)]: any truthy patcher is kept. *)
Definition from (resolver : CtorArg) (patcherArg : option Arg) : t :=
  let newResolver := new resolver in
  match patcherArg with
  | Some p =>
      if argTruthy p
      then mk (listing newResolver) (original newResolver) (Some p)
      else newResolver
  | None => newResolver
  end.

(** The [prepends] / [appends] parameter of [wrap]: an array, or one value
    that is wrapped into an array when truthy. *)
Inductive Extras : Type :=
| ExtrasArray (l : list Arg)
| ExtrasSingle (a : Arg).

Definition extrasList (x : Extras) : list Arg :=
  match x with
  | ExtrasArray l => l
  | ExtrasSingle a => if argTruthy a then [a] else []
  end.

(** [ExtendedResolver.wrap(original, prepends, appends, patcher)] *)
Definition wrap (originalArg : CtorArg) (prepends appends : Extras) (patcherArg : option Arg) : t :=
  let resolver := from originalArg None in
  let resolver :=
    match patcherArg with
    | Some p =>
        if argTruthy p && isFn p
        then mk (listing resolver) (original resolver) (Some p)
        else resolver
    | None => resolver
    end in
  let resolver := fold_left prepend (extrasList prepends) resolver in
  fold_left append (extrasList appends) resolver.

(** The plain functions among the arguments, in order. *)
Definition functionsOf (l : list Arg) : list Fn :=
  argId <$> filter (fun a => isFn a = true) l.

(** *** Calling an [ExtendedResolver]: the [apply] trap of its proxy

    What a listed function returns (or what its promise resolves to) is a
    primitive or an object; of an object only its own enumerable
    properties matter to [Object.assign]. (An object without
    [Object.prototype] in its chain counts as a primitive: it is no
    [instanceof Object].) *)
Inductive Value : Type :=
| VPrimitive (id : string)
| VObject (props : gmap string string).

(** The two errors the trap rethrows. *)
Inductive CallError : Type :=
| WrappedResolverExecutionError (error : string) (index : Z) (args : list Value)
| ResolverResultsPatcherError (error : string) (results : Value).

(** [o instanceof Function]: an [ExtendedResolver] is one. *)
Definition instanceofFunction (a : Arg) : bool :=
  match a with
  | AFunction _ | AExtended _ => true
  | AOther _ _ => false
  end.

(** [target[listing].indexOf(fn)] *)
Definition indexOf (l : list Fn) (fn : Fn) : Z :=
  match list_find (fun f => f = fn) l with
  | Some (i, _) => Z.of_nat i
  | None => (-1)%Z
  end.

(** [if (results instanceof Object && result instanceof Object)
       Object.assign(results, result) else results = result] *)
Definition coalesce (results result : Value) : Value :=
  match results, result with
  | VObject o, VObject r => VObject (r ∪ o)
  | _, _ => result
  end.

Section Calls.

(** What calling a listed value with some arguments gives: its result, or
    the error it throws (the promise it rejects with; a [TypeError] for a
    value that is no function). The functions leave their arguments as
    they are. *)
Variable call : Fn -> list Value -> Value + string.

(** The loop of the trap over [fns], a tail of the listing [all]. *)
Fixpoint reduce (all fns : list Fn) (myArgs : list Value) (results : Value)
    : Value + CallError :=
  match fns with
  | [] => inl results
  | fn :: more =>
      match call fn (myArgs ++ [results]) with
      | inr error =>
          inr (WrappedResolverExecutionError error (indexOf all fn) (myArgs ++ [results]))
      | inl result => reduce all more myArgs (coalesce results result)
      end
  end.

(** [handler.apply(target, thisArg, args)], awaited. *)
Definition apply (target : t) (args : list Value) : Value + CallError :=
  match reduce (listing target) (listing target) args (VObject ∅) with
  | inr e => inr e
  | inl results =>
      match patcher target with
      | Some p =>
          if instanceofFunction p
          then match call (argId p) [results] with
               | inl patched => inl patched
               | inr error => inr (ResolverResultsPatcherError error results)
               end
          else inl results
      | None => inl results
      end
  end.

End Calls.

End ExtendedResolver.

(** ** Vocabulary of the further properties *)

(** The names after a merge: a name already there keeps its place, a new
    one goes to the end. *)
Definition addName (acc : list string) (n : string) : list string :=
  if decide (n ∈ acc) then acc else acc ++ [n].

Definition mergeNames (left right : list string) : list string :=
  fold_left addName right left.

(** A definition with a name, a directives array and a fields array. *)
Definition hasArrays (node : TypeNode) : Prop :=
  named node /\ is_Some (directives node) /\ is_Some (fields node).

(** The same, handled by the struct-like arm of the switch: as it stands
    (a left-hand definition) or once normalized (a right-hand one). *)
Definition structLeft (node : TypeNode) : Prop :=
  hasArrays node /\ kindArm (kind node) = ArmStruct.

Definition structRight (node : TypeNode) : Prop :=
  hasArrays node /\ kindArm (kind (normalizeExtension node)) = ArmStruct.

(** A sub-resolver that answers a node of the colliding name. *)
Definition keepsName (resolver : SubResolver) : Prop :=
  forall lType lSub rType rSub,
    sub_name lSub = sub_name rSub -> sub_name (resolver lType lSub rType rSub) = sub_name rSub.

(** The registry whose field handler answers the left field. *)
Definition keepLeftResolvers : ConflictResolvers :=
  Object_assign DefaultConflictResolvers keepLeftField.

(** The map refers to the heap object at [l]: a nested object, or the own
    properties of a function. *)
Definition refersTo (resolverMap : ResolverMap) (l : nat) : Prop :=
  exists key entry, resolverMap !! key = Some entry /\ entryAddress entry = l.

(** The [resolve] function [stripResolversFromSchema] ends up with for
    [typeName].[fieldName]: that of the last such field visited. *)
Definition lastResolver (visited : list (string * string * Fn)) (typeName fieldName : string)
    : option Fn :=
  fold_left
    (fun acc x =>
       let '(t, f, fn) := x in
       if bool_decide (t = typeName /\ f = fieldName) then Some fn else acc)
    visited None.

(** A struct-like definition with a name, at most one directive and
    unique field names. *)
Definition plainStruct (node : TypeNode) : Prop :=
  named node
  /\ kindArm (kind node) = ArmStruct
  /\ exists ds fs,
       directives node = Some ds /\ fields node = Some fs
       /\ length ds <= 1 /\ NoDup (sub_name <$> fs).




(** What a pare may do to the heap of nested resolver objects: no object
    is created or dropped, an object only loses keys, and an object the
    map does not refer to is left as it was. *)
Definition heapFrame (resolverMap : ResolverMap) (heap heap' : Heap) : Prop :=
  length heap' = length heap
  /\ (forall l o', heap' !! l = Some o' -> exists o, heap !! l = Some o /\ o' ⊆ o)
  /\ (forall l, ~ refersTo resolverMap l -> heap' !! l = heap !! l).

(** The same for one step of a loop whose state carries the map. *)
Definition frameStep {S} (proj : S -> ResolverMap) (s : S) (heap : Heap)
    (out : result S * Heap) : Prop :=
  heapFrame (proj s) heap out.2
  /\ forall s', out.1 = Ok s' -> proj s' ⊆ proj s.


(** What holds of the map and heap [stripResolversFromSchema] has built
    after the fields [visited], starting from the heap [heap0]: the heap
    has grown at its end only, every entry of the map is a nested object
    allocated since, no two entries share an object, and a nested lookup
    answers the last [resolve] function visited at that place. *)
Definition stripped (heap0 : Heap) (visited : list (string * string * Fn))
    (resolverMap : ResolverMap) (heap : Heap) : Prop :=
  (exists fresh, heap = heap0 ++ fresh)
  /\ (forall key entry, resolverMap !! key = Some entry ->
        exists l, entry = ResolverObj l /\ length heap0 <= l < length heap)
  /\ (forall k1 k2 l, resolverMap !! k1 = Some (ResolverObj l) ->
        resolverMap !! k2 = Some (ResolverObj l) -> k1 = k2)
  /\ (forall typeName fieldName,
        lookupNested resolverMap heap typeName fieldName
        = lastResolver visited typeName fieldName).

(** The errors a merge or a pare throws: a TypeError, a ReferenceError,
    what the walk of [executableSchema] throws, or the error
    [normalizeSource] builds. *)
Definition engineError (e : JsError) : Prop :=
  e = TypeError \/ e = ReferenceError \/ e = WalkError
  \/ exists received, e = InvalidInput "normalizeSource" received.

(** A definition without a name sits in the tree with no definition
    called [n] before it: a search for [n] comes to read its missing
    name. *)
Definition namelessBefore (n : string) (l : Document) : Prop :=
  exists i a, l !! i = Some a /\ nameNode a = None
              /\ forall j b, l !! j = Some b -> j < i -> nameNode b <> Some n.

(** * Properties *)

(** ** The searches of the code and the observer's search *)

Lemma findByName_Ok n (l : Document) found :
  findByName n l = Ok found -> found = findType n l.
Proof.
  revert found. induction l as [|a l IH]; intros found; [by intros [= <-]|].
  unfold findType in *. cbn [findByName list_find].
  destruct (nameNode a) as [an|] eqn:Ha; [|done].
  assert (Hname : name a = an) by (unfold name; by rewrite Ha).
  destruct (decide (an = n)) as [Heq|Hne].
  - intros [= <-]. by rewrite decide_True by congruence.
  - rewrite decide_False by congruence.
    destruct (findByName n l) as [r|e]; [|done]. simpl. intros [= <-].
    by rewrite (IH r eq_refl).
Qed.

Lemma findByName_named n (l : Document) :
  Forall named l -> findByName n l = Ok (findType n l).
Proof.
  induction 1 as [|a l [an Ha] _ IH]; [done|].
  unfold findType in *. cbn [findByName list_find]. rewrite Ha.
  assert (Hname : name a = an) by (unfold name; by rewrite Ha).
  destruct (decide (an = n)) as [Heq|Hne].
  - by rewrite decide_True by congruence.
  - rewrite decide_False by congruence. by rewrite IH.
Qed.

Lemma findDefinition_Ok rType (l : Document) found :
  findDefinition rType l = Ok found -> found = findType (name rType) l.
Proof.
  unfold findDefinition. destruct l as [|a l]; [by intros [= <-]|].
  unfold name at 1. destruct (nameNode rType) as [n|]; [|done].
  apply findByName_Ok.
Qed.

Lemma findDefinition_named rType (l : Document) :
  Forall named l -> named rType -> findDefinition rType l = Ok (findType (name rType) l).
Proof.
  intros Hl [n Hn]. unfold findDefinition, name. rewrite Hn. simpl.
  destruct l as [|a l]; [done|]. by apply findByName_named.
Qed.

Lemma findDefinition_nil rType : findDefinition rType [] = Ok None.
Proof. done. Qed.

(** The head of the tree is found under its own name. *)
Lemma findDefinition_head (a rType : TypeNode) (l : Document) :
  named a -> nameNode rType = nameNode a -> findDefinition rType (a :: l) = Ok (Some (0, a)).
Proof.
  intros [n Hn] Heq. unfold findDefinition. rewrite Heq, Hn. simpl.
  by rewrite Hn, decide_True.
Qed.

(** A round of either loop that returns has searched without throwing,
    and found what the observer finds. *)
Lemma mergeType_search reg s1 s2 (lAST : Document) fns rType0 out :
  mergeType reg s1 s2 (lAST, fns) rType0 = Ok out ->
  findDefinition rType0 lAST = Ok (findType (name rType0) lAST).
Proof.
  unfold mergeType. destruct (findDefinition rType0 lAST) as [found|e] eqn:Hfind; [|done].
  intros _. by rewrite (findDefinition_Ok _ _ _ Hfind).
Qed.

Lemma pareType_search (lAST : Document) (r : ResolverMap) rType0 (h : Heap) out h' :
  pareType (lAST, r) rType0 h = (Ok out, h') ->
  findDefinition rType0 lAST = Ok (findType (name rType0) lAST).
Proof.
  unfold pareType. destruct (findDefinition rType0 lAST) as [found|e] eqn:Hfind; [|done].
  intros _. by rewrite (findDefinition_Ok _ _ _ Hfind).
Qed.

(** In a round that has returned, replace the search by what the observer
    finds: on the goal (the round is the next premise) or in a hypothesis. *)
Ltac searched Hfind :=
  let Hstep := fresh "Hstep" in
  let Hs := fresh "Hs" in
  intros Hstep;
  first [ pose proof (mergeType_search _ _ _ _ _ _ _ Hstep) as Hs
        | pose proof (pareType_search _ _ _ _ _ _ Hstep) as Hs ];
  revert Hstep; unfold mergeType, pareType; rewrite Hs, Hfind; cbn [bindR]; clear Hs.

Ltac searched_in Hstep Hfind :=
  let Hs := fresh "Hs" in
  first [ pose proof (mergeType_search _ _ _ _ _ _ _ Hstep) as Hs
        | pose proof (pareType_search _ _ _ _ _ _ Hstep) as Hs ];
  unfold mergeType, pareType in Hstep; rewrite Hs, Hfind in Hstep; cbn [bindR] in Hstep;
  clear Hs.

Lemma setSub_nameNode c l subs : nameNode (setSub c l subs) = nameNode l.
Proof. by destruct c. Qed.

Lemma normalizeExtension_nameNode rType : nameNode (normalizeExtension rType) = nameNode rType.
Proof. unfold normalizeExtension. by destruct (endsWith _ _). Qed.

Lemma normalizeExtension_name rType : name (normalizeExtension rType) = name rType.
Proof. unfold normalizeExtension. by destruct (endsWith _ _). Qed.

Lemma normalizeExtension_fields rType : fields (normalizeExtension rType) = fields rType.
Proof. unfold normalizeExtension. by destruct (endsWith _ _). Qed.

Lemma normalizeExtension_directives rType :
  directives (normalizeExtension rType) = directives rType.
Proof. unfold normalizeExtension. by destruct (endsWith _ _). Qed.

(** ** The tree a pare produces does not depend on the resolver map *)

Lemma forOfH_tree {T A} (body : T * ResolverMap -> A -> Heap -> result (T * ResolverMap) * Heap) :
  (forall t r r' x (h h' : Heap), treeOf (body (t, r) x h) = treeOf (body (t, r') x h')) ->
  forall xs t r r' (h h' : Heap),
    treeOf (forOfH body xs (t, r) h) = treeOf (forOfH body xs (t, r') h').
Proof.
  intros Hbody. induction xs as [|x xs IH]; intros t r r' h h'; [done|].
  cbn [forOfH]. specialize (Hbody t r r' x h h'). unfold treeOf in Hbody.
  destruct (body (t, r) x h) as [[[t1 r1]|e1] h1];
    destruct (body (t, r') x h') as [[[t2 r2]|e2] h2]; simplify_eq/=; [|done].
  apply IH.
Qed.

Lemma pareSubType_tree c lType (r r' : ResolverMap) rSub (h h' : Heap) :
  treeOf (pareSubType c (lType, r) rSub h) = treeOf (pareSubType c (lType, r') rSub h').
Proof.
  unfold pareSubType.
  destruct (getSub c lType) as [lSubs|]; [|done].
  destruct (findSub (sub_name rSub) lSubs) as [[i lSub]|]; [|done].
  destruct (fieldsIndexOf c lType i); [|done].
  by destruct (deleteResolver _ _ r h), (deleteResolver _ _ r' h').
Qed.

Lemma pareTypeAndSubType_tree c lType rType (r r' : ResolverMap) (h h' : Heap) :
  treeOf (pareTypeAndSubType c lType rType r h)
  = treeOf (pareTypeAndSubType c lType rType r' h').
Proof.
  unfold pareTypeAndSubType. destruct (getSub c rType); [|done].
  apply forOfH_tree. intros. apply pareSubType_tree.
Qed.

Lemma pareArm_tree c i lType rType (lAST : Document) (r r' : ResolverMap) (h h' : Heap) :
  treeOf (pareArm c i lType rType lAST r h) = treeOf (pareArm c i lType rType lAST r' h').
Proof.
  unfold pareArm.
  pose proof (pareTypeAndSubType_tree SubDirectives lType rType r r' h h') as H1.
  unfold treeOf in H1.
  destruct (pareTypeAndSubType SubDirectives lType rType r h) as [[[l1 r1]|e1] h1];
    destruct (pareTypeAndSubType SubDirectives lType rType r' h') as [[[l1' r1']|e1'] h1'];
    simplify_eq/=; [|done].
  pose proof (pareTypeAndSubType_tree c l1' rType r1 r1' h1 h1') as H2.
  unfold treeOf in H2.
  destruct (pareTypeAndSubType c l1' rType r1 h1) as [[[l2 r2]|e2] h2];
    destruct (pareTypeAndSubType c l1' rType r1' h1') as [[[l2' r2']|e2'] h2'];
    simplify_eq/=; [|done].
  unfold treeOf. simpl. by destruct (dropIfEmpty c i l2' lAST).
Qed.

Lemma pareType_tree (lAST : Document) (r r' : ResolverMap) rType0 (h h' : Heap) :
  treeOf (pareType (lAST, r) rType0 h) = treeOf (pareType (lAST, r') rType0 h').
Proof.
  unfold pareType. destruct (findDefinition rType0 lAST) as [[[i lType]|]|e]; [|done..].
  destruct (kindArm (kind lType)); try apply pareArm_tree. done.
Qed.

Lemma pareDefinitions_tree (lAST rAST : Document) (r r' : ResolverMap) (h h' : Heap) :
  treeOf (pareDefinitions lAST rAST r h) = treeOf (pareDefinitions lAST rAST r' h').
Proof.
  unfold pareDefinitions. apply forOfH_tree. intros. apply pareType_tree.
Qed.

(** ** From the loops to the calls *)

(** On a valid source whose text and the instance's text both parse, and
    with no scalar config collected, [mergeSDL] answers the print of the
    tree its loop ends with. *)
Lemma mergeSDL_prints_loop_tree inline parse print buildSchema this schemaLanguage custom defaults
    source (lAST rAST merged : Document) :
  normalizeSourceWrap inline schemaLanguage = Ok source ->
  ast parse this = Some lAST -> ast parse source = Some rAST ->
  let assigned :=
    match custom with
    | None => defaults
    | Some c => Object_assign defaults c
    end in
  mergeDefinitions assigned (schemaOf buildSchema this) (schemaOf buildSchema source) lAST rAST
    = Ok (merged, ∅) ->
  print merged <> "" ->
  mergeSDL inline parse print buildSchema this schemaLanguage custom defaults
    = (Ok (mkSchemata (print merged) None None), assigned).
Proof.
  intros Hsrc Hl Hr assigned Hloop Hprint. unfold mergeSDL. rewrite Hsrc. simpl.
  fold assigned. f_equal. unfold mergeBody. rewrite Hl, Hr.
  destruct rAST; rewrite Hloop; simpl;
    unfold SchemataFrom, normalizeSource; simpl;
    apply String.eqb_neq in Hprint; by rewrite Hprint.
Qed.

(** Likewise [pareSDL] answers the print of the tree its loop ends with,
    together with the pared copy of the resolver map. *)
Lemma pareSDL_prints_loop_tree inline parse print buildSchema bindResolvers this
    (text : string) resolverMap (heap heap' : Heap)
    source (lAST rAST pared : Document) (paredMap : ResolverMap) :
  normalizeSourceWrap inline (JsString text) = Ok source ->
  ast parse this = Some lAST -> ast parse source = Some rAST ->
  pareDefinitions lAST rAST
    (match resolverMap with Some m => m | None => default ∅ (resolvers this) end) heap
    = (Ok (pared, paredMap), heap') ->
  print pared <> "" ->
  pareSDL inline parse print buildSchema bindResolvers this (JsString text) resolverMap heap
    = (executableSchema buildSchema bindResolvers
         (mkSchemata (print pared) (Some paredMap) None) paredMap, heap').
Proof.
  intros Hsrc Hl Hr Hloop Hprint. unfold pareSDL. rewrite Hsrc. simpl.
  rewrite Hl, Hr.
  destruct rAST; rewrite Hloop;
    unfold SchemataFrom, normalizeSource; simpl;
    apply String.eqb_neq in Hprint; by rewrite Hprint.
Qed.

(** ** The end-to-end scenario *)

(** C1: merging A = "type Query { hello: String } type Foo { a: Int }" with
    B = "type Query { world: String } type Foo { a: Int b: Int }" gives a
    tree whose Query has exactly the fields hello and world and whose Foo
    has exactly a and b; paring that tree by B, with whatever resolver map,
    gives a tree whose Query has exactly the field hello and which has no
    definition named Foo. *)
Theorem scenario_merge_then_pare :
  exists merged,
    (forall thisSchema sourceSchema,
        mergeDefinitions DefaultConflictResolvers thisSchema sourceSchema docA docB
        = Ok (merged, ∅))
    /\ fieldNamesOf "Query" merged = Some ["hello"; "world"]
    /\ fieldNamesOf "Foo" merged = Some ["a"; "b"]
    /\ name <$> merged = ["Query"; "Foo"]
    /\ forall (resolverMap : ResolverMap) (heap : Heap),
         exists pared,
           treeOf (pareDefinitions merged docB resolverMap heap) = Ok pared
           /\ fieldNamesOf "Query" pared = Some ["hello"]
           /\ findType "Foo" pared = None
           /\ name <$> pared = ["Query"].
Proof.
  exists [ objectType "Query" [] [mkSub "hello" "String"; mkSub "world" "String"];
           objectType "Foo" [] [mkSub "a" "Int"; mkSub "b" "Int"] ].
  split; [intros; vm_compute; reflexivity|].
  do 3 (split; [vm_compute; reflexivity|]).
  intros resolverMap heap. eexists.
  rewrite (pareDefinitions_tree _ _ resolverMap ∅ heap []).
  split; [vm_compute; reflexivity|].
  repeat split; vm_compute; reflexivity.
Qed.

(** ** Identity *)

(** C9, as amended. Merging with the empty text is refused: whatever the
    target, [mergeSDL] throws the error [normalizeSource] builds and
    leaves the module-level registry as it was. A merge with a source
    that is accepted and whose tree has no definitions (where the parser
    in use builds such a tree) returns an instance whose text is the
    print of the target's own tree: no definition added, changed or
    removed. *)
Theorem merge_empty_identity :
  forall (inline : JsValue -> string)
         (parse : string -> option Document) (print : Document -> string)
         (buildSchema : string -> option SchemaRegistry)
         (this : Schemata) (custom : option CustomResolvers) (defaults : ConflictResolvers),
    mergeSDL inline parse print buildSchema this (JsString "") custom defaults
    = (Throw (InvalidInput "normalizeSource" (inline (JsString ""))), defaults)
    /\ (forall (v : JsValue) (source : Schemata) (lAST : Document),
          normalizeSourceWrap inline v = Ok source ->
          ast parse source = Some [] -> ast parse this = Some lAST -> print lAST <> "" ->
          mergeSDL inline parse print buildSchema this v custom defaults
          = (Ok (mkSchemata (print lAST) None None),
             match custom with
             | None => defaults
             | Some c => Object_assign defaults c
             end)).
Proof.
  intros. split; [reflexivity|].
  intros v source lAST Hsrc Hr Hl Hprint.
  by apply (mergeSDL_prints_loop_tree inline parse print buildSchema this v custom defaults
              source lAST [] lAST).
Qed.

(** With a parser stand-in that builds the empty tree for a text of one
    comment. *)
Lemma merge_empty_identity_witness :
  let table :=
    parseTable [ ("type T { f: Int }", docTf); ("# nothing", []) ] in
  let this := mkSchemata "type T { f: Int }" None None in
  mergeSDL inlineText table printFields (fun _ => None) this (JsString "") None
    DefaultConflictResolvers
  = (Throw (InvalidInput "normalizeSource" ""), DefaultConflictResolvers)
  /\ mergeSDL inlineText table printFields (fun _ => None) this (JsString "# nothing") None
       DefaultConflictResolvers
     = (Ok (mkSchemata "T { f: Int }" None None), DefaultConflictResolvers).
Proof.
  intros table this.
  destruct (merge_empty_identity inlineText table printFields (fun _ => None) this None
              DefaultConflictResolvers) as [Hempty Hsame].
  split; [exact Hempty|].
  apply (Hsame (JsString "# nothing") (mkSchemata "# nothing" None None) docTf);
    try reflexivity. discriminate.
Defined.

(** C9, as stated, fails: the merge of "type T { f: Int }" with the empty
    document, the empty text, does not give the document back; it throws.
    So does the merge with a text of blanks, which the parser rejects as
    it rejects every text without a definition. *)
Lemma merge_empty_text_throws :
  let this := mkSchemata "type T { f: Int }" None None in
  mergeSDL inlineText exampleParse printFields (fun _ => None) this (JsString "") None
    DefaultConflictResolvers
  = (Throw (InvalidInput "normalizeSource" ""), DefaultConflictResolvers)
  /\ mergeSDL inlineText exampleParse printFields (fun _ => None) this (JsString " ") None
       DefaultConflictResolvers
     = (Throw TypeError, DefaultConflictResolvers)
  /\ forall text merged,
       text = "" \/ text = " " ->
       fst (mergeSDL inlineText exampleParse printFields (fun _ => None) this (JsString text)
              None DefaultConflictResolvers) <> Ok merged.
Proof.
  intros this. split; [vm_compute; reflexivity|]. split; [vm_compute; reflexivity|].
  intros text merged [-> | ->]; vm_compute; discriminate.
Qed.

(** ** Collisions inside a sub-collection *)

(** [splice(i, 1, x)] inside the array is an update in place, and
    [splice(i, 1)] a removal. *)
Lemma splice_replace {A} (l : list A) (i : nat) (x : A) :
  i < length l -> splice l (Z.of_nat i) 1 [x] = <[i := x]> l.
Proof.
  intros Hi. unfold splice, spliceStart.
  destruct (Z.ltb_spec (Z.of_nat i) 0) as [Hneg|_]; [lia|].
  rewrite Nat2Z.id.
  replace (Nat.min i (length l)) with i by lia.
  replace (i + Nat.min 1 (length l - i)) with (S i) by lia.
  revert i Hi. induction l as [|a l IH]; intros [|i] Hi; simpl in *; try lia.
  - by rewrite drop_0.
  - f_equal. apply IH. lia.
Qed.

Lemma splice_remove {A} (l : list A) (i : nat) :
  i < length l -> splice l (Z.of_nat i) 1 [] = delete i l.
Proof.
  intros Hi. unfold splice, spliceStart.
  destruct (Z.ltb_spec (Z.of_nat i) 0) as [Hneg|_]; [lia|].
  rewrite Nat2Z.id.
  replace (Nat.min i (length l)) with i by lia.
  replace (i + Nat.min 1 (length l - i)) with (S i) by lia.
  revert i Hi. induction l as [|a l IH]; intros [|i] Hi; simpl in *; try lia.
  - by rewrite drop_0.
  - f_equal. apply IH. lia.
Qed.

(** [splice(-1, 1, x)] on a non-empty array overwrites its LAST element. *)
Lemma splice_minus_one {A} (l : list A) (x : A) :
  l <> [] -> splice l (-1) 1 [x] = take (length l - 1) l ++ [x].
Proof.
  intros Hl. unfold splice, spliceStart. simpl.
  assert (0 < length l) by (destruct l; simpl; [done|lia]).
  replace (Z.to_nat (Z.max (Z.of_nat (length l) + -1) 0)) with (length l - 1) by lia.
  replace (length l - (length l - 1)) with 1 by lia.
  replace (length l - 1 + 1) with (length l) by lia.
  by rewrite drop_all.
Qed.

Lemma findSub_Some n l i sub :
  findSub n l = Some (i, sub) ->
  l !! i = Some sub /\ sub_name sub = n /\ i < length l.
Proof.
  unfold findSub. intros H. apply list_find_Some in H as (Hi & Hn & _).
  split; [done|]. split; [done|]. by eapply lookup_lt_Some.
Qed.

(** What a collision does, for every collection: the resolver of the
    collection is called with both containers and both sub-nodes; its
    answer lands on the matched node in [fields], on the last node in
    [directives] when the left node has fields, and nowhere (the call
    throws) when the left node has no fields. *)
Lemma combineSubType_collision subTypeName conflictResolvers rType lType rSubType lSubs i lSubType :
  getSub subTypeName lType = Some lSubs ->
  findSub (sub_name rSubType) lSubs = Some (i, lSubType) ->
  let resulting :=
    subTypeResolverMap subTypeName conflictResolvers lType lSubType rType rSubType in
  combineSubType subTypeName conflictResolvers rType lType rSubType =
    match fields lType with
    | None => Throw TypeError
    | Some _ =>
        Ok (setSub subTypeName lType
              (match subTypeName with
               | SubFields => <[i := resulting]> lSubs
               | _ => take (length lSubs - 1) lSubs ++ [resulting]
               end))
    end.
Proof.
  intros Hget Hfind resulting. unfold combineSubType. rewrite Hget, Hfind.
  apply findSub_Some in Hfind as (Hi & _ & Hlt).
  unfold fieldsIndexOf. destruct (fields lType) as [fs|]; [|done]. simpl.
  assert (lSubs <> []) by (intros ->; simpl in Hlt; lia).
  destruct subTypeName; fold resulting;
    rewrite ?splice_minus_one by done; rewrite ?splice_replace by done; done.
Qed.

(** C2: the code evaluated where the claim fails. A collision between enum
    values, or between union members, throws a TypeError instead of
    replacing the matched node; a collision between directives overwrites
    the last directive of the left node, not the matched one; only a
    collision between fields replaces the matched node in place. *)
Theorem combine_collision_outside_fields :
  mergeTrees [enumType "E" [] [mkSub "X" ""]] [enumType "E" [] [mkSub "X" "@deprecated"]]
    = Throw TypeError
  /\ mergeTrees [unionType "U" [] [mkSub "Cat" ""]] [unionType "U" [] [mkSub "Cat" ""]]
    = Throw TypeError
  /\ mergeTrees
       [objectType "T" [mkSub "a" "(v: 1)"; mkSub "b" ""] [mkSub "f" "Int"]]
       [objectType "T" [mkSub "a" "(v: 2)"] [mkSub "g" "Int"]]
     = Ok [objectType "T" [mkSub "a" "(v: 1)"; mkSub "a" "(v: 2)"]
             [mkSub "f" "Int"; mkSub "g" "Int"]]
  /\ mergeTrees
       [objectType "T" [] [mkSub "f" "Int"; mkSub "g" "Int"]]
       [objectType "T" [] [mkSub "f" "String"]]
     = Ok [objectType "T" [] [mkSub "f" "String"; mkSub "g" "Int"]].
Proof.
  repeat split; vm_compute; reflexivity.
Qed.

(** ** Pruning of emptied containers *)

(** C3: the code evaluated where the claim fails. Paring the last value of
    an enum, or the last member of a union, throws a TypeError and nothing
    is dropped; paring the only field of an object type drops the type. *)
Theorem pare_last_value_or_member_throws :
  fst (pareDefinitions [enumType "E" [] [mkSub "X" ""]] [enumType "E" [] [mkSub "X" ""]] ∅ [])
    = Throw TypeError
  /\ fst (pareDefinitions [unionType "U" [] [mkSub "Cat" ""]] [unionType "U" [] [mkSub "Cat" ""]] ∅ [])
    = Throw TypeError
  /\ fst (pareDefinitions
            [objectType "Query" [] [mkSub "hello" "String"]; objectType "T" [] [mkSub "f" "Int"]]
            [objectType "T" [] [mkSub "f" "Int"]] ∅ [])
    = Ok ([objectType "Query" [] [mkSub "hello" "String"]], ∅).
Proof.
  repeat split; vm_compute; reflexivity.
Qed.

(** ** Scalars *)

(** C4: the code evaluated where the claim fails. For "scalar Date" on both
    sides, each with a buildable registry that holds a config for Date, the
    merge never consults the scalar resolver and collects no config,
    although the default resolver would answer the right-hand config: the
    kind the parser gives a scalar takes the default arm of the switch. On
    a tree whose scalar carries the kind the switch does test for, a config
    is collected, and attaching any collected config throws. A collision
    between directives of two scalars throws as well. *)
Theorem scalar_config_never_attached :
  (forall (conflictResolvers : ConflictResolvers),
      mergeDefinitions conflictResolvers
        (Some (dateRegistry "left")) (Some (dateRegistry "right")) docDate docDate
      = Ok (docDate, ∅))
  /\ scalarMergeResolver DefaultConflictResolvers
       (scalarType "Date" []) (Some "left") (scalarType "Date" []) (Some "right")
     = Some "right"
  /\ mergeDefinitions DefaultConflictResolvers
       (Some (dateRegistry "left")) (Some (dateRegistry "right")) docDateNode docDateNode
     = Ok (docDateNode, {["Date" := "right"]})
  /\ (forall (buildSchema : string -> option SchemaRegistry) (merged : Schemata),
         isOk (attachScalarFns buildSchema merged {["Date" := "right"]}) = false)
  /\ mergeTrees [scalarType "Date" [mkSub "format" "(v: 1)"]]
                [scalarType "Date" [mkSub "format" "(v: 2)"]]
     = Throw TypeError.
Proof.
  split; [intros; reflexivity|]. split; [reflexivity|].
  split; [vm_compute; reflexivity|]. split; [|vm_compute; reflexivity].
  intros buildSchema merged. unfold attachScalarFns.
  destruct (decide (({["Date" := "right"]} : ScalarFns) = ∅)) as [E|_].
  - by apply (f_equal (fun m : ScalarFns => m !! "Date")) in E.
  - by destruct (schemaOf buildSchema merged).
Qed.

(** ** Frame of a pare *)

(** C6: the code evaluated where the claim fails. The caller passes the
    nested map { T: { f, g } } to a pare of "type T { f: Int g: Int }" by
    "type T { f: Int }". The call succeeds, and afterwards the caller's own
    map no longer has T.f: the copy the call works on shares the nested
    objects with the caller's map. *)
Theorem pare_mutates_supplied_nested_map :
  let call :=
    pareSDL inlineText exampleParse printNames (fun _ => None) (fun schema _ => Some schema)
      (mkSchemata "type T { f: Int g: Int }" None None) (JsString "type T { f: Int }")
      (Some callerMap) callerHeap in
  isOk (fst call) = true
  /\ lookupNested callerMap callerHeap "T" "f" = Some "resolveF"
  /\ lookupNested callerMap (snd call) "T" "f" = None
  /\ lookupNested callerMap (snd call) "T" "g" = Some "resolveG".
Proof.
  repeat split; vm_compute; reflexivity.
Qed.

(** ** Invalid input *)

(** The only error [normalizeSource(typeDefs, true)] throws is its own:
    for a falsy value at once, for an instance without text when the
    constructor normalizes its text once more. *)
Lemma normalizeSourceWrap_Throw inline v :
  isOk (normalizeSourceWrap inline v) = false ->
  normalizeSourceWrap inline v
  = Throw (InvalidInput "normalizeSource" (inline (if falsy v then v else JsString ""))).
Proof.
  unfold normalizeSourceWrap, normalizeSource.
  destruct (falsy v) eqn:Hv; [done|]. simpl.
  unfold SchemataFrom, normalizeSource. simpl.
  destruct (String.eqb _ "") eqn:Ht; [|done].
  apply String.eqb_eq in Ht. by rewrite Ht.
Qed.

Lemma forOf_Throw {S A} (P : JsError -> Prop) (body : S -> A -> result S) :
  (forall s x e, body s x = Throw e -> P e) ->
  forall xs s e, forOf body xs s = Throw e -> P e.
Proof.
  intros Hbody. induction xs as [|x xs IH]; intros s e; [done|].
  cbn [forOf]. destruct (body s x) as [s1|e1] eqn:Hstep; cbn [bindR].
  - apply IH.
  - intros [= <-]. by eapply Hbody.
Qed.

Lemma forOfH_Throw {S A} (P : JsError -> Prop) (body : S -> A -> Heap -> result S * Heap) :
  (forall s x h e h', body s x h = (Throw e, h') -> P e) ->
  forall xs s h e h', forOfH body xs s h = (Throw e, h') -> P e.
Proof.
  intros Hbody. induction xs as [|x xs IH]; intros s h e h'; [done|].
  cbn [forOfH]. destruct (body s x h) as [[s1|e1] h1] eqn:Hstep.
  - apply IH.
  - intros [= <- <-]. by eapply Hbody.
Qed.

Lemma findByName_Throw n (l : Document) e : findByName n l = Throw e -> e = TypeError.
Proof.
  induction l as [|a l IH]; [done|]. cbn [findByName].
  destruct (nameNode a) as [an|]; [|by intros [= <-]].
  destruct (decide (an = n)); [done|].
  destruct (findByName n l) as [found|e']; [done|]. simpl. intros [= <-]. by apply IH.
Qed.

Lemma findDefinition_Throw rType (l : Document) e :
  findDefinition rType l = Throw e -> e = TypeError.
Proof.
  unfold findDefinition. destruct l as [|a l]; [done|].
  destruct (nameNode rType); [apply findByName_Throw|by intros [= <-]].
Qed.

Lemma combineTypeAndSubType_Throw c lType rType reg e :
  combineTypeAndSubType c lType rType reg = Throw e -> e = TypeError.
Proof.
  unfold combineTypeAndSubType. destruct (getSub c rType) as [rSubs|]; [|done].
  apply (forOf_Throw (fun e => e = TypeError)). clear. intros l rSub e.
  unfold combineSubType. destruct (getSub c l) as [lSubs|]; [|by intros [= <-]].
  destruct (findSub (sub_name rSub) lSubs) as [[i lSub]|]; [|done].
  unfold fieldsIndexOf. destruct (fields l); [done|]. by intros [= <-].
Qed.

Lemma mergeDefinitions_Throw reg s1 s2 (lAST rAST : Document) e :
  mergeDefinitions reg s1 s2 lAST rAST = Throw e -> e = TypeError.
Proof.
  unfold mergeDefinitions. apply (forOf_Throw (fun e => e = TypeError)). clear.
  intros [lAST fns] rType0 e. unfold mergeType.
  destruct (findDefinition rType0 lAST) as [[[i lType]|]|e0] eqn:Hfind; cbn [bindR];
    [| done | intros [= <-]; by eapply findDefinition_Throw].
  destruct (kindArm (kind lType));
    (destruct (combineTypeAndSubType SubDirectives lType (normalizeExtension rType0) reg)
       as [l1|e1] eqn:E1; cbn [bindR];
     [|intros [= <-]; by eapply combineTypeAndSubType_Throw]).
  1-3: match goal with
       | |- context [combineTypeAndSubType ?c ?l ?r ?g] =>
           destruct (combineTypeAndSubType c l r g) as [l2|e2] eqn:E2; cbn [bindR];
           [done|intros [= <-]; by eapply combineTypeAndSubType_Throw]
       end.
  done.
Qed.

Lemma pareTypeAndSubType_Throw c lType rType (r : ResolverMap) (h : Heap) e h' :
  pareTypeAndSubType c lType rType r h = (Throw e, h') -> e = TypeError.
Proof.
  unfold pareTypeAndSubType. destruct (getSub c rType) as [rSubs|]; [|by intros [= <- <-]].
  apply (forOfH_Throw (fun e => e = TypeError)). clear. intros [l r] rSub h e h'.
  unfold pareSubType. destruct (getSub c l) as [lSubs|]; [|by intros [= <- <-]].
  destruct (findSub (sub_name rSub) lSubs) as [[i lSub]|]; [|done].
  unfold fieldsIndexOf. destruct (fields l); [|by intros [= <- <-]].
  by destruct (deleteResolver _ _ r h).
Qed.

Lemma pareArm_Throw c i lType rType (lAST : Document) (r : ResolverMap) (h : Heap) e h' :
  pareArm c i lType rType lAST r h = (Throw e, h') -> e = TypeError.
Proof.
  unfold pareArm.
  destruct (pareTypeAndSubType SubDirectives lType rType r h) as [[[l1 r1]|e1] h1] eqn:E1;
    [|intros [= <- <-]; by eapply pareTypeAndSubType_Throw].
  destruct (pareTypeAndSubType c l1 rType r1 h1) as [[[l2 r2]|e2] h2] eqn:E2;
    [|intros [= <- <-]; by eapply pareTypeAndSubType_Throw].
  unfold dropIfEmpty. destruct (getSub c l2) as [[|sub subs]|]; simpl; [done..|].
  by intros [= <- <-].
Qed.

Lemma pareDefinitions_Throw (lAST rAST : Document) (r : ResolverMap) (h : Heap) e h' :
  pareDefinitions lAST rAST r h = (Throw e, h') -> e = TypeError.
Proof.
  unfold pareDefinitions. apply (forOfH_Throw (fun e => e = TypeError)). clear.
  intros [lAST r] rType0 h e h'. unfold pareType.
  destruct (findDefinition rType0 lAST) as [[[i lType]|]|e0] eqn:Hfind;
    [| done | intros [= <- <-]; by eapply findDefinition_Throw].
  destruct (kindArm (kind lType)); try apply pareArm_Throw. done.
Qed.

Lemma SchemataFrom_Throw inline text resolverMap e :
  SchemataFrom inline text resolverMap = Throw e -> engineError e.
Proof.
  unfold SchemataFrom, normalizeSource. destruct (falsy (JsString text)); [|done].
  intros [= <-]. do 3 right. by eexists.
Qed.

Lemma mergeBody_Throw inline parse print buildSchema this source reg e :
  mergeBody inline parse print buildSchema this source reg = Throw e -> engineError e.
Proof.
  unfold mergeBody.
  destruct (ast parse source) as [[|x rAST]|], (ast parse this) as [lAST|];
    try (intros [= <-]; by left); try (intros [= <-]; do 3 right; by eexists).
  all: match goal with
       | |- context [mergeDefinitions ?a ?b ?c ?d ?f] =>
           destruct (mergeDefinitions a b c d f) as [st|e0] eqn:Hloop; cbn [bindR];
           [|intros [= <-]; left; by eapply mergeDefinitions_Throw]
       end.
  all: match goal with
       | |- context [SchemataFrom ?a ?b ?c] =>
           destruct (SchemataFrom a b c) as [merged|e1] eqn:Hfrom; cbn [bindR];
           [|intros [= <-]; by eapply SchemataFrom_Throw]
       end.
  all: unfold attachScalarFns; case_decide; [done|];
    destruct (schemaOf buildSchema merged); intros [= <-]; [right|]; by left.
Qed.

Lemma mergeSDL_Throw inline parse print buildSchema this v custom defaults e :
  fst (mergeSDL inline parse print buildSchema this v custom defaults) = Throw e ->
  engineError e.
Proof.
  unfold mergeSDL.
  destruct (normalizeSourceWrap inline v) as [source|e0] eqn:Hsrc.
  - simpl. apply mergeBody_Throw.
  - simpl. intros [= <-]. do 3 right.
    assert (Hv : isOk (normalizeSourceWrap inline v) = false) by (by rewrite Hsrc).
    rewrite (normalizeSourceWrap_Throw inline v Hv) in Hsrc. injection Hsrc as <-. by eexists.
Qed.

Lemma pareSDL_Throw inline parse print buildSchema bindResolvers this v resolverMap heap e :
  fst (pareSDL inline parse print buildSchema bindResolvers this v resolverMap heap) = Throw e ->
  engineError e.
Proof.
  unfold pareSDL.
  destruct (normalizeSourceWrap inline v) as [source|e0] eqn:Hsrc.
  - simpl.
    destruct (match v with
              | JsGraphQLSchema g =>
                  match resolverMap with
                  | Some _ => (resolverMap, heap)
                  | None => let '(stripped, h) := stripResolversFromSchema g heap in
                            (Some stripped, h)
                  end
              | _ => (resolverMap, heap)
              end) as [resolverMap1 heap1] eqn:Hmap.
    assert (Hgoal : forall cloned,
      fst (match ast parse source, ast parse this with
           | None, _ => (Throw TypeError, heap1)
           | Some [], None => (Throw (InvalidInput "normalizeSource" (inline JsNull)), heap1)
           | Some (_ :: _), None => (Throw TypeError, heap1)
           | Some rAST, Some lAST =>
               match pareDefinitions lAST rAST cloned heap1 with
               | (Throw e, heap2) => (Throw e, heap2)
               | (Ok (lAST', pared), heap2) =>
                   (let* result := SchemataFrom inline (print lAST') (Some pared) in
                    executableSchema buildSchema bindResolvers result pared,
                    heap2)
               end
           end) = Throw e -> engineError e).
    { intros cloned.
      destruct (ast parse source) as [[|x rAST]|], (ast parse this) as [lAST|];
        try (intros [= <-]; by left); try (intros [= <-]; do 3 right; by eexists).
      all: match goal with
           | |- context [pareDefinitions ?a ?b ?c ?d] =>
               destruct (pareDefinitions a b c d) as [[[lAST' pared]|e0] heap2] eqn:Hloop;
               [|intros [= <-]; left; by eapply pareDefinitions_Throw]
           end.
      all: cbn [fst];
        destruct (SchemataFrom inline (print lAST') (Some pared)) as [result|e1] eqn:Hfrom;
        cbn [bindR]; [|intros [= <-]; by eapply SchemataFrom_Throw].
      all: unfold executableSchema; destruct (buildSchema (sdl result)) as [schema|]; [|done];
        destruct (bindResolvers schema pared); [done|].
      all: intros [= <-]; right; right; by left. }
    destruct v; try destruct resolverMap; simplify_eq/=; apply Hgoal.
  - simpl. intros [= <-]. do 3 right.
    assert (Hv : isOk (normalizeSourceWrap inline v) = false) by (by rewrite Hsrc).
    rewrite (normalizeSourceWrap_Throw inline v Hv) in Hsrc. injection Hsrc as <-. by eexists.
Qed.

(** C8: the code evaluated where the claim fails. When the value handed
    to a merge or a pare cannot be normalized to a text, the call does
    throw at once, with the default registry and every resolver object
    untouched; but the error is the one built inside [normalizeSource]:
    the same for a merge, a pare and a constructor call, it names that
    function and not the failing call, and of the received value it has
    what the tag function prints for it. The errors of the guards in
    [mergeSDL] and [pareSDL], which would name the call, are thrown on no
    input. And an instance whose own text does not parse does not make the
    call fail fast: the failure to parse is swallowed, the registry is
    overwritten first, and the loop then throws a TypeError. *)
Theorem invalid_source_throws :
  forall (inline : JsValue -> string)
         (parse : string -> option Document) (print : Document -> string)
         (buildSchema : string -> option SchemaRegistry)
         (bindResolvers : SchemaRegistry -> ResolverMap -> option SchemaRegistry)
         (this : Schemata) (v : JsValue) (custom : option CustomResolvers)
         (defaults : ConflictResolvers) (resolverMap : option ResolverMap) (heap : Heap),
    isOk (normalizeSourceWrap inline v) = false ->
    let error :=
      InvalidInput "normalizeSource" (inline (if falsy v then v else JsString "")) in
    mergeSDL inline parse print buildSchema this v custom defaults = (Throw error, defaults)
    /\ pareSDL inline parse print buildSchema bindResolvers this v resolverMap heap = (Throw error, heap)
    /\ (falsy v = true -> newSchemata inline v resolverMap heap = (Throw error, heap))
    /\ (forall this' v' custom' defaults' received,
          fst (mergeSDL inline parse print buildSchema this' v' custom' defaults')
          <> Throw (MergeInvalidValue received))
    /\ (forall this' v' resolverMap' heap0,
          fst (pareSDL inline parse print buildSchema bindResolvers this' v' resolverMap' heap0)
          <> Throw PareUnparsable)
    /\ (forall this' v' source x rAST custom',
          normalizeSourceWrap inline v' = Ok source ->
          ast parse source = Some (x :: rAST) -> ast parse this' = None ->
          mergeSDL inline parse print buildSchema this' v' (Some custom') defaults
          = (Throw TypeError, Object_assign defaults custom')).
Proof.
  intros * Hv error. pose proof (normalizeSourceWrap_Throw inline v Hv) as E.
  split; [by unfold mergeSDL; rewrite E|]. split; [by unfold pareSDL; rewrite E|].
  split; [|split; [|split]].
  - intros Hf. unfold newSchemata, normalizeSource, error. by rewrite Hf.
  - intros this' v' custom' defaults' received Hthrow.
    apply mergeSDL_Throw in Hthrow as [?|[?|[?|[? ?]]]]; done.
  - intros this' v' resolverMap' heap0 Hthrow.
    apply pareSDL_Throw in Hthrow as [?|[?|[?|[? ?]]]]; done.
  - intros this' v' source x rAST custom' Hsrc Hr Hl.
    unfold mergeSDL. rewrite Hsrc. simpl. unfold mergeBody. by rewrite Hr, Hl.
Qed.

Lemma invalid_source_throws_witness :
  let this := mkSchemata "type T { f: Int }" None None in
  let error := InvalidInput "normalizeSource" "" in
  isOk (normalizeSourceWrap inlineText JsUndefined) = false
  /\ mergeSDL inlineText exampleParse printNames (fun _ => None) this JsUndefined None
       DefaultConflictResolvers
     = (Throw error, DefaultConflictResolvers)
  /\ pareSDL inlineText exampleParse printNames (fun _ => None) (fun schema _ => Some schema) this JsUndefined
       (Some callerMap) callerHeap
     = (Throw error, callerHeap)
  /\ mergeSDL inlineText exampleParse printNames (fun _ => None)
       (mkSchemata "type T {" None None) (JsString "type T { f: Int }") (Some keepLeftField)
       DefaultConflictResolvers
     = (Throw TypeError, keepLeftResolvers).
Proof.
  split; [reflexivity|].
  destruct (invalid_source_throws inlineText exampleParse printNames (fun _ => None)
              (fun schema _ => Some schema)
              (mkSchemata "type T { f: Int }" None None) JsUndefined None
              DefaultConflictResolvers (Some callerMap) callerHeap eq_refl)
    as (Hmerge & Hpare & _ & _ & _ & Hleft).
  split; [exact Hmerge|]. split; [exact Hpare|].
  apply (Hleft (mkSchemata "type T {" None None) (JsString "type T { f: Int }")
           (mkSchemata "type T { f: Int }" None None) (objectType "T" [] [mkSub "f" "Int"]) []
           keepLeftField); reflexivity.
Defined.

(** ** The shared default registry *)

Lemma mergeSDL_without_resolvers inline parse print buildSchema this schemaLanguage defaults :
  mergeSDL inline parse print buildSchema this schemaLanguage None defaults =
    (match normalizeSourceWrap inline schemaLanguage with
     | Throw e => Throw e
     | Ok source => mergeBody inline parse print buildSchema this source defaults
     end, defaults).
Proof.
  unfold mergeSDL. by destruct (normalizeSourceWrap inline schemaLanguage).
Qed.

Lemma mergeCalls_keep_registry inline parse print buildSchema calls defaults :
  snd (mergeCalls inline parse print buildSchema calls defaults) = defaults
  /\ fst (mergeCalls inline parse print buildSchema calls defaults)
     = (fun call => fst (mergeSDL inline parse print buildSchema call.1 call.2 None defaults)) <$> calls.
Proof.
  induction calls as [|[this lang] more [IHs IHf]]; [done|].
  cbn [mergeCalls]. rewrite fmap_cons. cbn [fst snd].
  rewrite !mergeSDL_without_resolvers. cbv beta iota.
  destruct (mergeCalls inline parse print buildSchema more defaults) as [rs d] eqn:E.
  cbn [fst snd] in *. subst d. split; [done|]. by rewrite IHf.
Qed.

(** The loop on two one-definition trees that collide on their one field:
    the field handler of the registry decides. *)
Lemma mergeDefinitions_one_collision reg s1 s2 (lType rType : TypeNode) (lf rf : SubNode) :
  named lType -> nameNode rType = nameNode lType ->
  kindArm (kind lType) = ArmStruct ->
  directives rType = Some [] ->
  fields lType = Some [lf] -> fields rType = Some [rf] -> sub_name lf = sub_name rf ->
  mergeDefinitions reg s1 s2 [lType] [rType]
  = Ok ([setSub SubFields lType
           [fieldMergeResolver reg lType lf (normalizeExtension rType) rf]], ∅).
Proof.
  intros Hnm Hname Harm Hrd Hlf Hrf Hsame.
  unfold mergeDefinitions. cbn [forOf]. unfold mergeType.
  rewrite (findDefinition_head lType rType [] Hnm Hname). cbn [bindR]. rewrite Harm.
  unfold combineTypeAndSubType. cbn [getSub].
  rewrite normalizeExtension_directives, normalizeExtension_fields, Hrd, Hrf.
  cbn [forOf bindR].
  assert (Hfind : findSub (sub_name rf) [lf] = Some (0, lf)).
  { unfold findSub. simpl. by rewrite decide_True. }
  rewrite (combineSubType_collision SubFields reg (normalizeExtension rType) lType rf
             [lf] 0 lf Hlf Hfind).
  rewrite Hlf. reflexivity.
Qed.

(** C10: a merge called with a custom record on a valid source leaves the
    module-level defaults overwritten by that record, handler by handler;
    a later merge that supplies no resolvers, on whatever instance, runs
    with the overwritten registry and leaves it as it found it: where its
    two trees collide on a field, the field it returns is the one the
    earlier caller's field handler answers, not the one the documented
    default would; and so for every run of such later calls. *)
Theorem custom_resolvers_overwrite_defaults :
  forall (inline : JsValue -> string)
         (parse : string -> option Document) (print : Document -> string)
         (buildSchema : string -> option SchemaRegistry)
         (this : Schemata) (schemaLanguage : JsValue)
         (custom : CustomResolvers) (defaults : ConflictResolvers),
    isOk (normalizeSourceWrap inline schemaLanguage) = true ->
    let after :=
      snd (mergeSDL inline parse print buildSchema this schemaLanguage (Some custom) defaults) in
    after = Object_assign defaults custom
    /\ (forall f, customField custom = Some f -> fieldMergeResolver after = f)
    /\ (forall f, customDirective custom = Some f -> directiveMergeResolver after = f)
    /\ (forall f, customEnumValue custom = Some f -> enumValueMergeResolver after = f)
    /\ (forall f, customTypeValue custom = Some f -> typeValueMergeResolver after = f)
    /\ (forall f, customScalar custom = Some f -> scalarMergeResolver after = f)
    /\ (forall f (later source : Schemata) (v : JsValue) (lType rType : TypeNode)
               (lf rf : SubNode),
           customField custom = Some f ->
           normalizeSourceWrap inline v = Ok source ->
           ast parse later = Some [lType] -> ast parse source = Some [rType] ->
           named lType -> nameNode rType = nameNode lType ->
           kindArm (kind lType) = ArmStruct ->
           directives rType = Some [] ->
           fields lType = Some [lf] -> fields rType = Some [rf] -> sub_name lf = sub_name rf ->
           let merged := [setSub SubFields lType [f lType lf (normalizeExtension rType) rf]] in
           print merged <> "" ->
           mergeSDL inline parse print buildSchema later v None after
           = (Ok (mkSchemata (print merged) None None), after))
    /\ (forall (calls : list (Schemata * JsValue)),
           snd (mergeCalls inline parse print buildSchema calls after) = after
           /\ fst (mergeCalls inline parse print buildSchema calls after)
              = (fun call =>
                   match normalizeSourceWrap inline call.2 with
                   | Throw e => Throw e
                   | Ok source => mergeBody inline parse print buildSchema call.1 source after
                   end) <$> calls).
Proof.
  intros * Hok after.
  assert (Hafter : after = Object_assign defaults custom).
  { unfold after, mergeSDL. destruct (normalizeSourceWrap inline schemaLanguage); [done|discriminate]. }
  split; [exact Hafter|].
  rewrite Hafter.
  do 5 (split; [by intros f Hf; simpl; rewrite Hf|]).
  split.
  - intros f later source v lType rType lf rf Hf Hsrc Hl Hr Hnm Hname Harm Hrd Hlf Hrf Hsame
      merged Hprint.
    apply (mergeSDL_prints_loop_tree inline parse print buildSchema later v None
             (Object_assign defaults custom) source [lType] [rType] merged Hsrc Hl Hr);
      [|done].
    cbv zeta. rewrite (mergeDefinitions_one_collision _ _ _ lType rType lf rf) by done.
    unfold merged. simpl. by rewrite Hf.
  - intros calls. destruct (mergeCalls_keep_registry inline parse print buildSchema calls
                              (Object_assign defaults custom)) as [Hs Hf].
    split; [exact Hs|]. rewrite Hf. apply list_fmap_ext. intros i [this' lang'] _.
    by rewrite mergeSDL_without_resolvers.
Qed.

(** After one merge with "left field wins" as custom field handler, a
    merge that passes no handlers keeps the LEFT field of a collision,
    where the same merge against the module's initial registry returns the
    right one. *)
Lemma custom_resolvers_overwrite_defaults_witness :
  let this := mkSchemata "type T { f: Int g: Int }" None None in
  let later := mkSchemata "type T { f: Int }" None None in
  let after :=
    snd (mergeSDL inlineText exampleParse printFields (fun _ => None)
           this (JsString "type T { f: Int }") (Some keepLeftField) DefaultConflictResolvers) in
  isOk (normalizeSourceWrap inlineText (JsString "type T { f: Int }")) = true
  /\ mergeSDL inlineText exampleParse printFields (fun _ => None)
       later (JsString "type T { f: String }") None DefaultConflictResolvers
     = (Ok (mkSchemata "T { f: String }" None None), DefaultConflictResolvers)
  /\ mergeSDL inlineText exampleParse printFields (fun _ => None)
       later (JsString "type T { f: String }") None after
     = (Ok (mkSchemata "T { f: Int }" None None), after)
  /\ snd (mergeCalls inlineText exampleParse printFields (fun _ => None)
            [(later, JsString "type T { f: String }")] after) = after.
Proof.
  split; [reflexivity|]. split; [vm_compute; reflexivity|].
  pose proof (custom_resolvers_overwrite_defaults inlineText exampleParse printFields
                (fun _ => None)
                (mkSchemata "type T { f: Int g: Int }" None None) (JsString "type T { f: Int }")
                keepLeftField DefaultConflictResolvers eq_refl)
    as (_ & _ & _ & _ & _ & _ & Hlater & Hcalls).
  split.
  - apply (Hlater (fun leftType leftField rightType rightField => leftField)
             (mkSchemata "type T { f: Int }" None None)
             (mkSchemata "type T { f: String }" None None)
             (JsString "type T { f: String }")
             (objectType "T" [] [mkSub "f" "Int"]) (objectType "T" [] [mkSub "f" "String"])
             (mkSub "f" "Int") (mkSub "f" "String"));
      try reflexivity; [unfold named; simpl; eauto|discriminate].
  - apply (Hcalls [(mkSchemata "type T { f: Int }" None None, JsString "type T { f: String }")]).
Defined.

(** ** Extension folding *)

Section StringFacts.

Lemma append_cons (c : Ascii.ascii) (p s : string) :
  String.append (String c p) s = String c (String.append p s).
Proof. reflexivity. Qed.

Lemma length_append (p s : string) :
  String.length (String.append p s) = String.length p + String.length s.
Proof. induction p as [|c p IH]; simpl; [done|by rewrite IH]. Qed.

Lemma substring_skip (p s : string) (n m : nat) :
  substring (String.length p + n) m (String.append p s) = substring n m s.
Proof. induction p as [|c p IH]; simpl; done. Qed.

Lemma substring_whole (s : string) : substring 0 (String.length s) s = s.
Proof. induction s as [|c s IH]; simpl; [done|by rewrite IH]. Qed.

Lemma substring_prefix (p s : string) :
  substring 0 (String.length p) (String.append p s) = p.
Proof.
  induction p as [|c p IH]; simpl; [by destruct s|by rewrite IH].
Qed.

Lemma substring_split (s : string) (k : nat) :
  k <= String.length s ->
  s = String.append (substring 0 k s) (substring k (String.length s - k) s).
Proof.
  revert k. induction s as [|c s IH]; intros [|k] Hk; simpl in *; try lia.
  - done.
  - by rewrite substring_whole.
  - rewrite append_cons. f_equal. apply IH. lia.
Qed.

Lemma endsWith_append (p suffix : string) :
  endsWith (String.append p suffix) suffix = true.
Proof.
  unfold endsWith. rewrite length_append. apply andb_true_intro. split.
  - apply Nat.leb_le. lia.
  - replace (String.length p + String.length suffix - String.length suffix)
      with (String.length p + 0) by lia.
    rewrite substring_skip, substring_whole. apply String.eqb_refl.
Qed.

Lemma endsWith_inv (s suffix : string) :
  endsWith s suffix = true -> exists p, s = String.append p suffix.
Proof.
  unfold endsWith. intros H. apply andb_prop in H as [Hlen Heq].
  apply Nat.leb_le in Hlen. apply String.eqb_eq in Heq.
  exists (substring 0 (String.length s - String.length suffix) s).
  pose proof (substring_split s (String.length s - String.length suffix)) as Hs.
  replace (String.length s - (String.length s - String.length suffix))
    with (String.length suffix) in Hs by lia.
  rewrite Heq in Hs. apply Hs. lia.
Qed.

Lemma definitionKind_append (base : string) :
  definitionKind (String.append base "Extension") = String.append base "Definition".
Proof.
  unfold definitionKind. rewrite length_append. simpl.
  replace (String.length base + 9 - 9) with (String.length base) by lia.
  by rewrite substring_prefix.
Qed.

Lemma definition_not_extension (base : string) :
  endsWith (String.append base "Definition") "Extension" = false.
Proof.
  unfold endsWith. rewrite length_append. simpl String.length.
  replace (String.length base + 10 - 9) with (String.length base + 1) by lia.
  rewrite substring_skip. apply andb_false_intro2. reflexivity.
Qed.

End StringFacts.

Lemma normalizeExtension_extension (rType : TypeNode) (base : string) :
  kind rType = String.append base "Extension" ->
  normalizeExtension rType = setKind rType (String.append base "Definition").
Proof.
  intros Hk. unfold normalizeExtension.
  by rewrite Hk, endsWith_append, definitionKind_append.
Qed.

Lemma normalizeExtension_definition (node : TypeNode) (base : string) :
  kind node = String.append base "Definition" -> normalizeExtension node = node.
Proof.
  intros Hk. unfold normalizeExtension. by rewrite Hk, definition_not_extension.
Qed.

Lemma normalizeExtension_other (node : TypeNode) :
  (forall base, kind node <> String.append base "Extension") ->
  normalizeExtension node = node.
Proof.
  intros Hk. unfold normalizeExtension.
  destruct (endsWith (kind node) "Extension") eqn:E; [|done].
  apply endsWith_inv in E as [base Hb]. by destruct (Hk base).
Qed.

(** The loop body reads the right-hand node through its normal form only. *)
Lemma findDefinition_normalized rType (l : Document) :
  findDefinition (normalizeExtension rType) l = findDefinition rType l.
Proof. unfold findDefinition. by rewrite normalizeExtension_nameNode. Qed.

Lemma mergeType_normalized conflictResolvers thisSchema sourceSchema st rType :
  normalizeExtension (normalizeExtension rType) = normalizeExtension rType ->
  mergeType conflictResolvers thisSchema sourceSchema st (normalizeExtension rType)
  = mergeType conflictResolvers thisSchema sourceSchema st rType.
Proof.
  intros Hi. unfold mergeType. destruct st as [lAST scalarFns].
  by rewrite Hi, findDefinition_normalized.
Qed.

Lemma pareType_normalized st rType (heap : Heap) :
  normalizeExtension (normalizeExtension rType) = normalizeExtension rType ->
  pareType st (normalizeExtension rType) heap = pareType st rType heap.
Proof.
  intros Hi. unfold pareType. destruct st as [lAST resolverMap].
  by rewrite Hi, findDefinition_normalized.
Qed.

(** ** Resolver-map synchronisation in a pare *)

Lemma leavesWithin_refl (r : ResolverMap) (h : Heap) : leavesWithin r h r h.
Proof. intros key entry Hkey. split; [done|]. intros o' Ho. by exists o'. Qed.

Lemma leavesWithin_trans (r1 r2 r3 : ResolverMap) (h1 h2 h3 : Heap) :
  leavesWithin r1 h1 r2 h2 -> leavesWithin r2 h2 r3 h3 -> leavesWithin r1 h1 r3 h3.
Proof.
  intros H12 H23 key entry Hkey.
  destruct (H12 key entry Hkey) as [Hkey2 Hobj2].
  destruct (H23 key entry Hkey2) as [Hkey3 Hobj3].
  split; [done|]. intros o1 Ho1.
  destruct (Hobj2 o1 Ho1) as (o2 & Ho2 & Hsub12).
  destruct (Hobj3 o2 Ho2) as (o3 & Ho3 & Hsub23).
  exists o3. split; [done|]. by etrans.
Qed.

Lemma leavesWithin_key (r' r : ResolverMap) (h' h : Heap) key entry :
  leavesWithin r' h' r h -> r' !! key = Some entry -> r !! key = Some entry.
Proof. intros Hw Hkey. by destruct (Hw key entry Hkey). Qed.

Lemma leavesWithin_key_None (r' r : ResolverMap) (h' h : Heap) key :
  leavesWithin r' h' r h -> r !! key = None -> r' !! key = None.
Proof.
  intros Hw Hnone. destruct (r' !! key) as [entry|] eqn:E; [|done].
  apply (leavesWithin_key _ _ _ _ _ _ Hw) in E. congruence.
Qed.

(** Every leaf of the first map is a leaf of the second. *)
Lemma leavesWithin_nested (r' r : ResolverMap) (h' h : Heap) typeName fieldName fn :
  leavesWithin r' h' r h ->
  lookupNested r' h' typeName fieldName = Some fn ->
  lookupNested r h typeName fieldName = Some fn.
Proof.
  intros Hw. unfold lookupNested.
  destruct (r' !! typeName) as [[fn' own|l]|] eqn:E; try done.
  destruct (Hw _ _ E) as [-> Hobj]. simpl in Hobj.
  destruct (h' !! l) as [o'|]; [|done].
  destruct (Hobj o' eq_refl) as (o & -> & Hsub).
  intros Hf. by eapply lookup_weaken.
Qed.

Lemma leavesWithin_own (r' r : ResolverMap) (h' h : Heap) typeName fieldName :
  leavesWithin r' h' r h ->
  ownNested r h typeName fieldName = false ->
  ownNested r' h' typeName fieldName = false.
Proof.
  intros Hw. unfold ownNested, ownProperty.
  destruct (r' !! typeName) as [entry|] eqn:E; [|done].
  destruct (Hw _ _ E) as [-> Hobj].
  destruct (h' !! entryAddress entry) as [o'|]; [|done].
  destruct (Hobj o' eq_refl) as (o & -> & Hsub).
  intros Hfalse%bool_decide_eq_false. apply bool_decide_eq_false.
  intros [fn Hfn]. apply Hfalse. exists fn. by eapply lookup_weaken.
Qed.

Lemma leavesWithin_truthy (r' r : ResolverMap) (h' h : Heap) typeName fieldName :
  leavesWithin r' h' r h ->
  nestedTruthy r h typeName fieldName = false ->
  nestedTruthy r' h' typeName fieldName = false.
Proof.
  intros Hw. pose proof (leavesWithin_own _ _ _ _ typeName fieldName Hw) as Hown.
  unfold nestedTruthy, ownNested in *.
  destruct (r' !! typeName) as [entry|] eqn:E; [|done].
  destruct (Hw _ _ E) as [Hkey _]. rewrite Hkey in *.
  intros [Ho Hi]%orb_false_iff. apply orb_false_iff. split; [by apply Hown|done].
Qed.

Lemma leavesWithin_stored (r' r : ResolverMap) (h' h : Heap) :
  leavesWithin r' h' r h -> storedOnce r h -> storedOnce r' h'.
Proof.
  intros Hw Hstored root fieldName fn own Hroot Hkey.
  eapply leavesWithin_truthy; [done|].
  eapply Hstored; [done|]. by eapply leavesWithin_key.
Qed.

Lemma ownNested_truthy (r : ResolverMap) (h : Heap) typeName fieldName :
  nestedTruthy r h typeName fieldName = false -> ownNested r h typeName fieldName = false.
Proof.
  unfold nestedTruthy, ownNested. destruct (r !! typeName); [|done].
  by intros [? _]%orb_false_iff.
Qed.

(** Without an own property there is no leaf. *)
Lemma ownNested_lookupNested (r : ResolverMap) (h : Heap) typeName fieldName :
  ownNested r h typeName fieldName = false -> lookupNested r h typeName fieldName = None.
Proof.
  unfold ownNested, lookupNested, ownProperty.
  destruct (r !! typeName) as [[fn own|l]|]; try done. simpl.
  destruct (h !! l) as [o|]; [|done].
  intros Hfalse%bool_decide_eq_false.
  destruct (o !! fieldName) as [fn|] eqn:E; [|done]. exfalso. apply Hfalse. by exists fn.
Qed.

(** A deletion adds no leaf. *)
Lemma deleteResolver_within typeName subName (r : ResolverMap) (h : Heap) r' h' :
  deleteResolver typeName subName r h = (r', h') -> leavesWithin r' h' r h.
Proof.
  unfold deleteResolver.
  destruct (nestedTruthy r h typeName subName).
  - destruct (r !! typeName) as [target|]; intros [= <- <-]; [|apply leavesWithin_refl].
    intros key entry Hkey. split; [done|]. intros o'.
    destruct (decide (entryAddress target = entryAddress entry)) as [->|Hne].
    + rewrite list_lookup_alter_eq.
      destruct (h !! entryAddress entry) as [o|]; simpl; [|done].
      intros [= <-]. exists o. split; [done|]. apply delete_subseteq.
    + rewrite list_lookup_alter_ne by done. intros Ho. by exists o'.
  - destruct (r !! subName); intros [= <- <-]; [|apply leavesWithin_refl].
    intros key entry [_ Hkey]%lookup_delete_Some. split; [done|].
    intros o' Ho. by exists o'.
Qed.

(** After the deletion for [typeName].[subName] the entry has no own
    property of that name, and when the read of it was falsy before, the
    top-level entry is gone. *)
Lemma deleteResolver_gone typeName subName (r : ResolverMap) (h : Heap) r' h' :
  deleteResolver typeName subName r h = (r', h') ->
  ownNested r' h' typeName subName = false
  /\ (nestedTruthy r h typeName subName = false -> r' !! subName = None).
Proof.
  intros Hdel. pose proof (deleteResolver_within _ _ _ _ _ _ Hdel) as Hw.
  revert Hdel. unfold deleteResolver.
  destruct (nestedTruthy r h typeName subName) eqn:E.
  - destruct (r !! typeName) as [target|] eqn:ET; intros [= <- <-].
    + split; [|done]. unfold ownNested, ownProperty. rewrite ET, list_lookup_alter_eq.
      destruct (h !! entryAddress target) as [o|]; simpl; [|done].
      apply bool_decide_eq_false. rewrite lookup_delete_eq. by intros [? ?].
    + split; [|done]. unfold ownNested. by rewrite ET.
  - intros Hdel. split.
    + eapply leavesWithin_own; [done|]. by apply ownNested_truthy.
    + intros _. destruct (r !! subName) eqn:Ef; injection Hdel as <- <-; [|done].
      apply lookup_delete_eq.
Qed.

Lemma setSub_name c l subs : name (setSub c l subs) = name l.
Proof. by destruct c. Qed.

Lemma setSub_kind c l subs : kind (setSub c l subs) = kind l.
Proof. by destruct c. Qed.

Lemma setSub_fields_other c l subs : c <> SubFields -> fields (setSub c l subs) = fields l.
Proof. by destruct c. Qed.

Lemma subNames_delete_other (subs : list SubNode) (i : nat) (sub : SubNode) (f : string) :
  subs !! i = Some sub -> f <> sub_name sub ->
  f ∈ sub_name <$> subs -> f ∈ sub_name <$> delete i subs.
Proof.
  intros Hi Hne Hf. apply list_elem_of_fmap in Hf as (y & -> & Hy).
  apply list_elem_of_lookup in Hy as [j Hj].
  assert (j <> i) by (intros ->; congruence).
  apply list_elem_of_fmap_2, list_elem_of_lookup.
  destruct (decide (j < i)).
  - exists j. by rewrite list_lookup_delete_lt.
  - exists (j - 1). rewrite list_lookup_delete_ge by lia.
    by replace (S (j - 1)) with j by lia.
Qed.

(** What one round of [pareTypeAndSubType] does to the node and to the
    resolver map. *)
Lemma pareSubType_round c lType (r : ResolverMap) rSub (h : Heap) l1 r1 h1 :
  pareSubType c (lType, r) rSub h = (Ok (l1, r1), h1) ->
  name l1 = name lType /\ kind l1 = kind lType /\ leavesWithin r1 h1 r h
  /\ (c <> SubFields -> fields l1 = fields lType)
  /\ (c = SubFields -> forall f, f ∈ subNames (fields lType) ->
        (f = sub_name rSub -> entryGone (name lType) f r h r1 h1)
        /\ (f <> sub_name rSub -> f ∈ subNames (fields l1))).
Proof.
  unfold pareSubType.
  destruct (getSub c lType) as [lSubs|] eqn:Hget; [|done].
  destruct (findSub (sub_name rSub) lSubs) as [[i lSub]|] eqn:Hfind.
  - destruct (fieldsIndexOf c lType i) as [index|] eqn:Hidx; [|done].
    destruct (deleteResolver (name lType) (sub_name lSub) r h) as [r' h'] eqn:Hdel.
    intros [= <- <- <-].
    split; [apply setSub_name|]. split; [apply setSub_kind|].
    split; [by eapply deleteResolver_within|].
    split; [apply setSub_fields_other|].
    intros -> f Hf. simpl in Hget. unfold fieldsIndexOf in Hidx.
    rewrite Hget in Hidx, Hf. injection Hidx as <-.
    apply findSub_Some in Hfind as (Hi & Hn & Hlt).
    rewrite splice_remove by done. split.
    + intros ->. rewrite <- Hn. by eapply deleteResolver_gone.
    + intros Hne. simpl. eapply subNames_delete_other; [done| |done]. by rewrite Hn.
  - intros [= <- <- <-].
    split; [done|]. split; [done|]. split; [apply leavesWithin_refl|].
    split; [done|]. intros -> f Hf. split; [|done].
    intros ->. exfalso. simpl in Hget. rewrite Hget in Hf. simpl in Hf.
    apply list_elem_of_fmap in Hf as (y & Hy & Hin).
    apply list_find_None in Hfind. rewrite Forall_forall in Hfind.
    by apply (Hfind y Hin).
Qed.

(** An entry that is gone stays gone while the map only shrinks. *)
Lemma entryGone_later typeName fieldName (r0 r1 r2 : ResolverMap) (h0 h1 h2 : Heap) :
  leavesWithin r2 h2 r1 h1 ->
  entryGone typeName fieldName r0 h0 r1 h1 -> entryGone typeName fieldName r0 h0 r2 h2.
Proof.
  intros Hw [Hown Htop]. split; [by eapply leavesWithin_own|].
  intros Hfalse. eapply leavesWithin_key_None; [done|]. by apply Htop.
Qed.

Lemma entryGone_earlier typeName fieldName (r0 r1 r2 : ResolverMap) (h0 h1 h2 : Heap) :
  leavesWithin r1 h1 r0 h0 ->
  entryGone typeName fieldName r1 h1 r2 h2 -> entryGone typeName fieldName r0 h0 r2 h2.
Proof.
  intros Hw [Hown Htop]. split; [done|].
  intros Hfalse. apply Htop. by eapply leavesWithin_truthy.
Qed.

(** What a whole pass of [pareTypeAndSubType] does. *)
Lemma pareSubType_pass c rSubs :
  forall lType (r : ResolverMap) (h : Heap) l' r' h',
    forOfH (pareSubType c) rSubs (lType, r) h = (Ok (l', r'), h') ->
    name l' = name lType /\ kind l' = kind lType /\ leavesWithin r' h' r h
    /\ (c <> SubFields -> fields l' = fields lType)
    /\ (c = SubFields -> forall f, f ∈ subNames (fields lType) ->
          (f ∈ sub_name <$> rSubs -> entryGone (name lType) f r h r' h')
          /\ (f ∉ sub_name <$> rSubs -> f ∈ subNames (fields l'))).
Proof.
  induction rSubs as [|rSub rSubs IH]; intros lType r h l' r' h'.
  - simpl. intros [= <- <- <-].
    split; [done|]. split; [done|]. split; [apply leavesWithin_refl|].
    split; [done|]. intros _ f Hf. split; [|done].
    intros Hin. by apply elem_of_nil in Hin.
  - cbn [forOfH].
    destruct (pareSubType c (lType, r) rSub h) as [[[l1 r1]|e] h1] eqn:Hround; [|done].
    intros Hrest.
    apply pareSubType_round in Hround as (Hn1 & Hk1 & Hw1 & Ho1 & Hf1).
    apply IH in Hrest as (Hn2 & Hk2 & Hw2 & Ho2 & Hf2).
    split; [congruence|]. split; [congruence|].
    split; [by eapply leavesWithin_trans|].
    split; [intros Hc; rewrite Ho2, Ho1; done|].
    intros Hc f Hf. destruct (Hf1 Hc f Hf) as [Hhead Hother].
    rewrite fmap_cons. destruct (decide (f = sub_name rSub)) as [Heq|Hne].
    + split; [|intros Hnot; exfalso; apply Hnot; rewrite Heq; apply list_elem_of_here].
      intros _. eapply entryGone_later; [done|]. by apply Hhead.
    + specialize (Hother Hne). destruct (Hf2 Hc f Hother) as [Hin Hout].
      rewrite Hn1 in Hin. split.
      * intros Hmem. apply elem_of_cons in Hmem as [?|Hmem]; [done|].
        eapply entryGone_earlier; [done|]. by apply Hin.
      * intros Hnot. apply Hout. intros Hmem. apply Hnot. by apply list_elem_of_further.
Qed.

Lemma pareTypeAndSubType_inv c lType rType (r : ResolverMap) (h : Heap) l' r' h' :
  pareTypeAndSubType c lType rType r h = (Ok (l', r'), h') ->
  name l' = name lType /\ kind l' = kind lType /\ leavesWithin r' h' r h
  /\ (c <> SubFields -> fields l' = fields lType)
  /\ (c = SubFields -> forall f, f ∈ subNames (fields lType) ->
        (f ∈ subNames (fields rType) -> entryGone (name lType) f r h r' h')
        /\ (f ∉ subNames (fields rType) -> f ∈ subNames (fields l'))).
Proof.
  unfold pareTypeAndSubType.
  destruct (getSub c rType) as [rSubs|] eqn:Hget; [|done].
  intros Hpass. apply pareSubType_pass in Hpass as (Hn & Hk & Hw & Ho & Hf).
  split; [done|]. split; [done|]. split; [done|]. split; [done|].
  intros Hc. subst c. simpl in Hget. rewrite Hget. by apply Hf.
Qed.

(** One arm of the switch of [pareSDL]: the node at [i] is dropped or
    rewritten in place, and no leaf is added to the resolver map. *)
Lemma pareArm_inv c i lType rType (lAST : Document) (r : ResolverMap) (h : Heap) lAST' r' h' :
  pareArm c i lType rType lAST r h = (Ok (lAST', r'), h') ->
  leavesWithin r' h' r h
  /\ (lAST' = delete i lAST
      \/ exists l2, lAST' = <[i := l2]> lAST /\ name l2 = name lType /\ kind l2 = kind lType
                    /\ (c <> SubFields -> fields l2 = fields lType))
  /\ (c = SubFields -> forall f, f ∈ subNames (fields lType) ->
        (f ∈ subNames (fields rType) -> entryGone (name lType) f r h r' h')
        /\ (f ∉ subNames (fields rType) ->
            exists l2, lAST' = <[i := l2]> lAST /\ name l2 = name lType
                       /\ kind l2 = kind lType /\ f ∈ subNames (fields l2))).
Proof.
  unfold pareArm.
  destruct (pareTypeAndSubType SubDirectives lType rType r h)
    as [[[l1 r1]|e1] h1] eqn:Hpass1; [|done].
  destruct (pareTypeAndSubType c l1 rType r1 h1) as [[[l2 r2]|e2] h2] eqn:Hpass2; [|done].
  apply pareTypeAndSubType_inv in Hpass1 as (Hn1 & Hk1 & Hw1 & Ho1 & _).
  apply pareTypeAndSubType_inv in Hpass2 as (Hn2 & Hk2 & Hw2 & Ho2 & Hf2).
  specialize (Ho1 ltac:(done)).
  assert (Hgone : c = SubFields -> forall f, f ∈ subNames (fields lType) ->
            f ∈ subNames (fields rType) -> entryGone (name lType) f r h r2 h2).
  { intros Hc f Hf Hmem. rewrite <- Ho1 in Hf. destruct (Hf2 Hc f Hf) as [Hin _].
    rewrite Hn1 in Hin. eapply entryGone_earlier; [done|]. by apply Hin. }
  unfold dropIfEmpty.
  destruct (getSub c l2) as [[|sub subs]|] eqn:Hget; simpl; [| |done];
    intros [= <- <- <-].
  - split; [by eapply leavesWithin_trans|]. split; [by left|].
    intros -> f Hf. split; [by apply Hgone|].
    intros Hnot. rewrite <- Ho1 in Hf. destruct (Hf2 eq_refl f Hf) as [_ Hout].
    specialize (Hout Hnot). simpl in Hget. rewrite Hget in Hout.
    by apply elem_of_nil in Hout.
  - split; [by eapply leavesWithin_trans|].
    split.
    { right. exists l2. split; [done|]. split; [congruence|]. split; [congruence|].
      intros Hc. by rewrite (Ho2 Hc). }
    intros -> f Hf. split; [by apply Hgone|].
    intros Hnot. rewrite <- Ho1 in Hf. destruct (Hf2 eq_refl f Hf) as [_ Hout].
    exists l2. split; [done|]. split; [congruence|].
    split; [congruence|]. by apply Hout.
Qed.

(** The first definition of a given name survives what the loop does to
    definitions of other names. *)
Lemma findType_Some n (l : Document) i x :
  findType n l = Some (i, x) ->
  l !! i = Some x /\ name x = n /\ forall j y, l !! j = Some y -> j < i -> name y <> n.
Proof. unfold findType. by intros H%list_find_Some. Qed.

Lemma findType_insert_same n (l : Document) i x y :
  findType n l = Some (i, x) -> name y = n -> findType n (<[i := y]> l) = Some (i, y).
Proof.
  intros (Hi & Hn & Hleast)%findType_Some Hy. unfold findType.
  apply list_find_insert_Some. right; left.
  split; [done|]. split; [done|]. split; [by eapply lookup_lt_Some|]. split; [done|].
  exact Hleast.
Qed.

Lemma findType_insert_other n (l : Document) i x j z y :
  findType n l = Some (i, x) -> l !! j = Some z -> name z <> n -> name y <> n ->
  findType n (<[j := y]> l) = Some (i, x).
Proof.
  intros Hfind Hj Hz Hy. pose proof Hfind as (Hi & Hn & Hleast)%findType_Some.
  assert (j <> i) by (intros ->; congruence).
  unfold findType in *. apply list_find_insert_Some.
  destruct (decide (i < j)); [left; split; [done|done]|].
  right; right; left. split; [lia|]. split; [done|]. split; [done|].
  intros z' Hz'. congruence.
Qed.

Lemma findType_delete_other n (l : Document) i x j z :
  findType n l = Some (i, x) -> l !! j = Some z -> name z <> n ->
  exists i', findType n (delete j l) = Some (i', x).
Proof.
  intros (Hi & Hn & Hleast)%findType_Some Hj Hz.
  assert (j <> i) by (intros ->; congruence).
  unfold findType. destruct (decide (i < j)).
  - exists i. apply list_find_Some. rewrite list_lookup_delete_lt by done.
    split; [done|]. split; [done|]. intros k y Hk Hlt.
    rewrite list_lookup_delete_lt in Hk by lia. by eapply Hleast.
  - exists (i - 1). apply list_find_Some. rewrite list_lookup_delete_ge by lia.
    replace (S (i - 1)) with i by lia.
    split; [done|]. split; [done|]. intros k y Hk Hlt.
    destruct (decide (k < j)).
    + rewrite list_lookup_delete_lt in Hk by done. eapply Hleast; [done|lia].
    + rewrite list_lookup_delete_ge in Hk by lia. eapply Hleast; [done|lia].
Qed.

(** The loop body of [pareSDL] when the left tree has a definition of the
    name. *)
Lemma pareType_found (lAST : Document) (r : ResolverMap) rType0 (h : Heap) j lj lAST' r' h' :
  findType (name rType0) lAST = Some (j, lj) ->
  pareType (lAST, r) rType0 h = (Ok (lAST', r'), h') ->
  leavesWithin r' h' r h
  /\ (lAST' = delete j lAST
      \/ exists l2, lAST' = <[j := l2]> lAST /\ name l2 = name lj /\ kind l2 = kind lj
                    /\ (kindArm (kind lj) <> ArmStruct -> fields l2 = fields lj))
  /\ (kindArm (kind lj) = ArmStruct -> forall f, f ∈ subNames (fields lj) ->
        (f ∈ subNames (fields rType0) -> entryGone (name lj) f r h r' h')
        /\ (f ∉ subNames (fields rType0) ->
            exists l2, lAST' = <[j := l2]> lAST /\ name l2 = name lj
                       /\ kind l2 = kind lj /\ f ∈ subNames (fields l2))).
Proof.
  intros Hfind Hstep. pose proof (pareType_search _ _ _ _ _ _ Hstep) as Hsearch.
  revert Hstep. unfold pareType. rewrite Hsearch, Hfind.
  destruct (kindArm (kind lj)) eqn:Harm.
  - intros (Hw & Hshape & Hf)%pareArm_inv. split; [done|]. split.
    { destruct Hshape as [->|(l2 & -> & Hn2 & Hk2 & _)]; [by left|].
      right. exists l2. by repeat split. }
    intros _ f Hin. rewrite <- (normalizeExtension_fields rType0). by apply Hf.
  - intros (Hw & Hshape & _)%pareArm_inv. split; [done|]. split; [|done].
    destruct Hshape as [->|(l2 & -> & Hn2 & Hk2 & Hsame)]; [by left|].
    right. exists l2. split; [done|]. split; [done|]. split; [done|].
    intros _. by apply Hsame.
  - intros (Hw & Hshape & _)%pareArm_inv. split; [done|]. split; [|done].
    destruct Hshape as [->|(l2 & -> & Hn2 & Hk2 & Hsame)]; [by left|].
    right. exists l2. split; [done|]. split; [done|]. split; [done|].
    intros _. by apply Hsame.
  - intros [= <- <- <-]. split; [apply leavesWithin_refl|]. split; [by left|done].
Qed.

(** One round of the loop of [pareSDL], seen from the field
    [typeName].[fieldName]. *)
Lemma pareType_step typeName fieldName (lAST : Document) (r : ResolverMap) rType0 (h : Heap)
    lAST' r' h' :
  pareType (lAST, r) rType0 h = (Ok (lAST', r'), h') ->
  leavesWithin r' h' r h
  /\ (fieldStillThere typeName fieldName lAST ->
        (name rType0 = typeName /\ fieldName ∈ subNames (fields rType0) ->
           entryGone typeName fieldName r h r' h')
        /\ (~ (name rType0 = typeName /\ fieldName ∈ subNames (fields rType0)) ->
            fieldStillThere typeName fieldName lAST')).
Proof.
  intros Hstep.
  destruct (findType (name rType0) lAST) as [[j lj]|] eqn:Hfind.
  - destruct (pareType_found _ _ _ _ _ _ _ _ _ Hfind Hstep) as (Hw & Hshape & Hstruct).
    split; [done|]. intros (i & lType & HfT & Hk & Hf).
    pose proof Hfind as (Hj & Hnj & _)%findType_Some.
    destruct (decide (name rType0 = typeName)) as [Heq|Hne].
    + rewrite Heq in Hfind. rewrite Hfind in HfT. injection HfT as <- <-.
      rewrite Heq in Hnj. destruct (Hstruct Hk fieldName Hf) as [Hin Hout].
      rewrite Hnj in Hin, Hout. split; [by intros [_ Hmem]; apply Hin|].
      intros Hnot. destruct Hout as (l2 & -> & Hn2 & Hk2 & Hf2); [by intros Hmem; apply Hnot|].
      exists j, l2. split; [by eapply findType_insert_same|]. split; [congruence|done].
    + split; [by intros [? _]|]. intros _.
      assert (Hz : name lj <> typeName) by congruence.
      destruct Hshape as [->|(l2 & -> & Hn2 & _)].
      * destruct (findType_delete_other _ _ _ _ _ _ HfT Hj Hz) as [i' Hi'].
        by exists i', lType.
      * exists i, lType. split; [|done].
        eapply findType_insert_other; [done..|congruence].
  - pose proof (pareType_search _ _ _ _ _ _ Hstep) as Hsearch.
    unfold pareType in Hstep. rewrite Hsearch, Hfind in Hstep. injection Hstep as <- <- <-.
    split; [apply leavesWithin_refl|]. intros (i & lType & HfT & Hk & Hf).
    split.
    + intros [Heq _]. rewrite Heq in Hfind. congruence.
    + intros _. exists i, lType. split; [|done]. by apply list_find_app_l.
Qed.

(** The whole loop of [pareSDL], seen from the field. *)
Lemma pareDefinitions_loop typeName fieldName rAST :
  forall (lAST : Document) (r : ResolverMap) (h : Heap) lAST' r' h',
    forOfH pareType rAST (lAST, r) h = (Ok (lAST', r'), h') ->
    leavesWithin r' h' r h
    /\ (fieldStillThere typeName fieldName lAST ->
        (exists rType, rType ∈ rAST /\ name rType = typeName
                       /\ fieldName ∈ subNames (fields rType)) ->
        entryGone typeName fieldName r h r' h').
Proof.
  induction rAST as [|x rAST IH]; intros lAST r h lAST' r' h'.
  - simpl. intros [= <- <- <-]. split; [apply leavesWithin_refl|].
    intros _ (rType & Hin & _). by apply elem_of_nil in Hin.
  - cbn [forOfH].
    destruct (pareType (lAST, r) x h) as [[[l1 r1]|e] h1] eqn:Hstep; [|done].
    intros Hrest.
    apply (pareType_step typeName fieldName) in Hstep as (Hw1 & Hfield).
    apply IH in Hrest as (Hw2 & Hlater).
    split; [by eapply leavesWithin_trans|].
    intros Hthere (rType & Hin & Hn & Hf). destruct (Hfield Hthere) as [Hyes Hno].
    destruct (decide (name x = typeName /\ fieldName ∈ subNames (fields x))) as [Hx|Hx].
    + eapply entryGone_later; [done|]. by apply Hyes.
    + eapply entryGone_earlier; [done|]. apply Hlater; [by apply Hno|]. exists rType.
      apply elem_of_cons in Hin as [->|Hin]; [by destruct Hx|done].
Qed.

(** *** The leaves of the map and the fields of the tree *)

Lemma hasField_elsewhere (doc doc' : Document) k node typeName fieldName :
  doc !! k = Some node -> node ∈ doc' ->
  name node = typeName -> fieldName ∈ subNames (fields node) ->
  hasField doc' typeName fieldName.
Proof. intros _ Hin Hn Hf. by exists node. Qed.

(** A round of the loop of [pareSDL] takes a field out of the tree only
    together with its resolver. *)
Lemma pareType_fields (lAST : Document) (r : ResolverMap) rType0 (h : Heap) lAST' r' h' :
  Forall fieldsAreStruct lAST ->
  pareType (lAST, r) rType0 h = (Ok (lAST', r'), h') ->
  forall typeName fieldName,
    hasField lAST typeName fieldName ->
    hasField lAST' typeName fieldName \/ entryGone typeName fieldName r h r' h'.
Proof.
  intros Hkinds Hstep typeName fieldName (node & Hin & Hn & Hf).
  apply list_elem_of_lookup in Hin as [k Hk].
  destruct (findType (name rType0) lAST) as [[j lj]|] eqn:Hfind.
  - destruct (pareType_found _ _ _ _ _ _ _ _ _ Hfind Hstep) as (Hw & Hshape & Hstruct).
    pose proof Hfind as (Hj & Hnj & _)%findType_Some.
    destruct (decide (k = j)) as [->|Hne].
    + assert (node = lj) as -> by congruence.
      assert (Harm : kindArm (kind lj) = ArmStruct).
      { rewrite Forall_forall in Hkinds. apply Hkinds; [by eapply list_elem_of_lookup_2|].
        destruct (fields lj); [done|]. by apply elem_of_nil in Hf. }
      destruct (Hstruct Harm fieldName Hf) as [Hyes Hno].
      destruct (decide (fieldName ∈ subNames (fields rType0))) as [Hmem|Hmem].
      * right. rewrite <- Hn. by apply Hyes.
      * left. destruct (Hno Hmem) as (l2 & -> & Hn2 & _ & Hf2).
        exists l2. split; [|split; [congruence|done]].
        apply list_elem_of_lookup. exists j.
        apply list_lookup_insert_eq. by eapply lookup_lt_Some.
    + left. exists node. split; [|done]. apply list_elem_of_lookup.
      destruct Hshape as [->|(l2 & -> & _)].
      * destruct (decide (k < j)).
        -- exists k. by rewrite list_lookup_delete_lt.
        -- exists (k - 1). rewrite list_lookup_delete_ge by lia.
           by replace (S (k - 1)) with k by lia.
      * exists k. by rewrite list_lookup_insert_ne.
  - pose proof (pareType_search _ _ _ _ _ _ Hstep) as Hsearch.
    unfold pareType in Hstep. rewrite Hsearch, Hfind in Hstep. injection Hstep as <- <- <-.
    left. exists node. split; [|done]. apply elem_of_app. left.
    by eapply list_elem_of_lookup_2.
Qed.

(** A round keeps the fields arrays where they belong. *)
Lemma pareType_kinds (lAST : Document) (r : ResolverMap) rType0 (h : Heap) lAST' r' h' :
  Forall fieldsAreStruct lAST -> fieldsAreStruct (normalizeExtension rType0) ->
  pareType (lAST, r) rType0 h = (Ok (lAST', r'), h') ->
  Forall fieldsAreStruct lAST'.
Proof.
  intros Hkinds Hright Hstep.
  destruct (findType (name rType0) lAST) as [[j lj]|] eqn:Hfind.
  - destruct (pareType_found _ _ _ _ _ _ _ _ _ Hfind Hstep) as (_ & Hshape & _).
    pose proof Hfind as (Hj & _)%findType_Some.
    destruct Hshape as [->|(l2 & -> & _ & Hk2 & Hsame)]; [by apply Forall_delete|].
    apply Forall_insert; [done|].
    assert (Hlj : fieldsAreStruct lj).
    { rewrite Forall_forall in Hkinds. apply Hkinds. by eapply list_elem_of_lookup_2. }
    unfold fieldsAreStruct in *. rewrite Hk2.
    destruct (kindArm (kind lj)) eqn:Harm; [done|..]; rewrite Hsame by done; exact Hlj.
  - pose proof (pareType_search _ _ _ _ _ _ Hstep) as Hsearch.
    unfold pareType in Hstep. rewrite Hsearch, Hfind in Hstep. injection Hstep as <- <- <-.
    apply Forall_app. split; [done|]. by apply Forall_singleton.
Qed.

(** The whole loop takes a field out of the tree only together with its
    resolver. *)
Lemma pareDefinitions_fields rAST :
  forall (lAST : Document) (r : ResolverMap) (h : Heap) lAST' r' h',
    Forall fieldsAreStruct lAST ->
    Forall (fun rType => fieldsAreStruct (normalizeExtension rType)) rAST ->
    forOfH pareType rAST (lAST, r) h = (Ok (lAST', r'), h') ->
    forall typeName fieldName,
      hasField lAST typeName fieldName ->
      hasField lAST' typeName fieldName \/ entryGone typeName fieldName r h r' h'.
Proof.
  induction rAST as [|x rAST IH]; intros lAST r h lAST' r' h' Hkinds Hright.
  - simpl. intros [= <- <- <-] typeName fieldName Hhas. by left.
  - cbn [forOfH]. apply Forall_cons in Hright as [Hx Hright].
    destruct (pareType (lAST, r) x h) as [[[l1 r1]|e] h1] eqn:Hstep; [|done].
    intros Hrest typeName fieldName Hhas.
    pose proof (pareType_kinds _ _ _ _ _ _ _ Hkinds Hx Hstep) as Hkinds1.
    pose proof (pareType_step typeName fieldName _ _ _ _ _ _ _ Hstep) as [Hw1 _].
    pose proof (pareDefinitions_loop typeName fieldName _ _ _ _ _ _ _ Hrest) as [Hw2 _].
    destruct (pareType_fields _ _ _ _ _ _ _ Hkinds Hstep _ _ Hhas) as [Hhas1|Hgone].
    + destruct (IH _ _ _ _ _ _ Hkinds1 Hright Hrest _ _ Hhas1) as [Hhas2|Hgone];
        [by left|right].
      by eapply entryGone_earlier.
    + right. by eapply entryGone_later.
Qed.

(** C5, as amended. For a pare that ends, type names that are names of
    members of [Object.prototype] apart:
    - when field [fieldName] of the struct-like definition [typeName] of
      the target is pared (the source has a definition of that name with a
      field of that name), the entry [pared[typeName]] has no own property
      [fieldName] afterwards, and the map has no top-level entry
      [fieldName] either when the read [resolverMap[typeName][fieldName]]
      was falsy on the supplied map;
    - a pare adds no entry: every leaf of the resulting map is a leaf of
      the supplied one;
    - on trees whose fields arrays sit on struct-like definitions only, a
      supplied map that stores no root resolver twice and whose every leaf
      names a field of the target gives a map whose every leaf names a
      field of the resulting tree. *)
Theorem pare_removes_resolver_entry :
  forall (lAST rAST : Document) (resolverMap : ResolverMap) (heap : Heap)
         (lAST' : Document) (pared : ResolverMap) (heap' : Heap),
    pareDefinitions lAST rAST resolverMap heap = (Ok (lAST', pared), heap') ->
    (forall (typeName fieldName : string) (rType : TypeNode),
        typeName ∉ objectPrototypeMembers ->
        fieldStillThere typeName fieldName lAST ->
        rType ∈ rAST -> name rType = typeName -> fieldName ∈ subNames (fields rType) ->
        ownNested pared heap' typeName fieldName = false
        /\ lookupNested pared heap' typeName fieldName = None
        /\ (nestedTruthy resolverMap heap typeName fieldName = false ->
            pared !! fieldName = None))
    /\ leavesWithin pared heap' resolverMap heap
    /\ (forall typeName fieldName fn,
           lookupNested pared heap' typeName fieldName = Some fn ->
           lookupNested resolverMap heap typeName fieldName = Some fn)
    /\ (Forall fieldsAreStruct lAST ->
        Forall (fun rType => fieldsAreStruct (normalizeExtension rType)) rAST ->
        Forall (fun rType => name rType ∉ objectPrototypeMembers) rAST ->
        storedOnce resolverMap heap ->
        leavesNameFields lAST resolverMap heap ->
        leavesNameFields lAST' pared heap').
Proof.
  intros * Hpare. unfold pareDefinitions in Hpare.
  assert (Hw : leavesWithin pared heap' resolverMap heap).
  { by destruct (pareDefinitions_loop "" "" _ _ _ _ _ _ _ Hpare). }
  split; [|split; [done|split]].
  - intros typeName fieldName rType _ Hthere Hin Hn Hf.
    destruct (pareDefinitions_loop typeName fieldName _ _ _ _ _ _ _ Hpare) as [_ Hgone].
    destruct Hgone as [Hown Htop]; [done|by exists rType|].
    split; [done|]. split; [by apply ownNested_lookupNested|done].
  - intros typeName fieldName fn. by apply leavesWithin_nested.
  - intros Hkinds Hright _ Hstored [Hnested Hflat].
    pose proof (pareDefinitions_fields _ _ _ _ _ _ _ Hkinds Hright Hpare) as Hfields.
    split.
    + intros typeName fieldName fn Hleaf.
      pose proof (leavesWithin_nested _ _ _ _ _ _ _ Hw Hleaf) as Hleaf0.
      destruct (Hfields _ _ (Hnested _ _ _ Hleaf0)) as [Hhas|[Hown _]]; [done|].
      apply ownNested_lookupNested in Hown. congruence.
    + intros fieldName fn own Hkey.
      pose proof (leavesWithin_key _ _ _ _ _ _ Hw Hkey) as Hkey0.
      destruct (Hflat _ _ _ Hkey0) as (root & Hroot & Hhas).
      destruct (Hfields _ _ Hhas) as [Hhas'|[_ Htop]]; [by exists root|].
      rewrite Htop in Hkey; [done|]. by eapply Hstored.
Qed.

Lemma pare_removes_resolver_entry_witness :
  let lAST' : Document := [objectType "Query" [] [mkSub "world" "String"]] in
  let pared : ResolverMap := {["world" := ResolverFn "rootWorld" 1]} in
  pareDefinitions docQuery docHello flatMap flatHeap = (Ok (lAST', pared), flatHeap)
  /\ flatMap !! "hello" = Some (ResolverFn "rootHello" 0)
  /\ pared !! "hello" = None
  /\ leavesWithin pared flatHeap flatMap flatHeap
  /\ leavesNameFields docQuery flatMap flatHeap
  /\ leavesNameFields lAST' pared flatHeap.
Proof.
  assert (Hpare : pareDefinitions docQuery docHello flatMap flatHeap
                  = (Ok ([objectType "Query" [] [mkSub "world" "String"]],
                         {["world" := ResolverFn "rootWorld" 1]}), flatHeap))
    by (vm_compute; reflexivity).
  assert (Hhello : hasField docQuery "Query" "hello").
  { eexists. split; [apply list_elem_of_here|]. split; [reflexivity|].
    simpl. apply list_elem_of_here. }
  assert (Hworld : hasField docQuery "Query" "world").
  { eexists. split; [apply list_elem_of_here|]. split; [reflexivity|].
    simpl. apply list_elem_of_further, list_elem_of_here. }
  assert (Hleaves : leavesNameFields docQuery flatMap flatHeap).
  { split.
    - intros typeName fieldName fn. unfold lookupNested.
      destruct (flatMap !! typeName) as [[fn' own|l]|] eqn:E; try done.
      unfold flatMap in E. apply lookup_insert_Some in E as [[_ [=]]|[_ E]].
      by apply lookup_singleton_Some in E as [_ [=]].
    - intros fieldName fn own E. exists "Query". split; [apply list_elem_of_here|].
      unfold flatMap in E. apply lookup_insert_Some in E as [[<- _]|[_ E]]; [done|].
      by apply lookup_singleton_Some in E as [<- _]. }
  destruct (pare_removes_resolver_entry docQuery docHello flatMap flatHeap
              [objectType "Query" [] [mkSub "world" "String"]]
              {["world" := ResolverFn "rootWorld" 1]} flatHeap Hpare)
    as (Hgone & Hwithin & _ & Hinv).
  split; [exact Hpare|]. split; [vm_compute; reflexivity|].
  split.
  { destruct (Hgone "Query" "hello" (objectType "Query" [] [mkSub "hello" "String"]))
      as (_ & _ & Htop).
    - unfold objectPrototypeMembers.
      repeat (apply not_elem_of_cons; split; [discriminate|]). apply not_elem_of_nil.
    - exists 0, (objectType "Query" [] [mkSub "hello" "String"; mkSub "world" "String"]).
      split; [vm_compute; reflexivity|]. split; [vm_compute; reflexivity|].
      simpl. apply list_elem_of_here.
    - apply list_elem_of_here.
    - reflexivity.
    - simpl. apply list_elem_of_here.
    - apply Htop. vm_compute; reflexivity. }
  split; [exact Hwithin|]. split; [exact Hleaves|].
  apply Hinv.
  - apply Forall_singleton. intros _. vm_compute; reflexivity.
  - apply Forall_singleton. intros _. vm_compute; reflexivity.
  - apply Forall_singleton. unfold objectPrototypeMembers.
    repeat (apply not_elem_of_cons; split; [discriminate|]). apply not_elem_of_nil.
  - intros root fieldName fn own Hroot _. unfold nestedTruthy.
    repeat (apply elem_of_cons in Hroot as [->|Hroot]; [vm_compute; reflexivity|]).
    by apply elem_of_nil in Hroot.
  - exact Hleaves.
Defined.

(** C5, as stated, fails, in each of its parts.
    - On "type Query { hello: String world: String }" with a resolver map
      that holds the resolver of hello both nested and flattened, every
      leaf names a field of the document; after paring by
      "type Query { hello: String }" the flattened leaf hello is still in
      the map and names a field the document no longer has.
    - A leaf for a type the document never had is still there after a
      pare.
    - On "type Query { name: String Query: String }" with a map in
      flattened root form, paring the field name leaves the entry
      [resolverMap[name]] where it was: the entry stored under Query is a
      function, the read of its [name] is truthy, and that property of the
      function is what gets deleted. *)
Lemma pare_leaves_orphan_leaf :
  (leavesNameFields docQuery mixedMap mixedHeap
   /\ exists lAST' pared heap',
        pareDefinitions docQuery docHello mixedMap mixedHeap = (Ok (lAST', pared), heap')
        /\ fieldNamesOf "Query" lAST' = Some ["world"]
        /\ ~ leavesNameFields lAST' pared heap')
  /\ (exists lAST' pared heap',
         pareDefinitions docT docTf strayMap strayHeap = (Ok (lAST', pared), heap')
         /\ lookupNested pared heap' "Gone" "x" = Some "resolveX"
         /\ ~ leavesNameFields lAST' pared heap')
  /\ (exists lAST' pared heap',
         pareDefinitions docSelf docName selfMap selfHeap = (Ok (lAST', pared), heap')
         /\ fieldNamesOf "Query" lAST' = Some ["Query"]
         /\ lookupNested selfMap selfHeap "Query" "name" = None
         /\ pared !! "name" = Some (ResolverFn "rootName" 1)
         /\ ~ leavesNameFields lAST' pared heap').
Proof.
  assert (Hhas : hasField docQuery "Query" "hello").
  { eexists. split; [apply list_elem_of_here|]. split; [reflexivity|].
    simpl. apply list_elem_of_here. }
  split; [split|split].
  - split.
    + intros typeName fieldName fn. unfold lookupNested, mixedMap.
      destruct (decide (typeName = "Query")) as [->|Hne].
      * rewrite lookup_insert_eq. simpl.
        intros [<- _]%lookup_singleton_Some. exact Hhas.
      * rewrite lookup_insert_ne by done.
        destruct ({["hello" := ResolverFn "rootHello" 1]} !! typeName)
          as [[fn' own|l]|] eqn:E; try done.
        by apply lookup_singleton_Some in E as [_ ?].
    + intros fieldName fn own. unfold mixedMap.
      destruct (decide (fieldName = "Query")) as [->|Hne].
      * by rewrite lookup_insert_eq.
      * rewrite lookup_insert_ne by done. intros [<- _]%lookup_singleton_Some.
        exists "Query". split; [apply list_elem_of_here|exact Hhas].
  - exists [objectType "Query" [] [mkSub "world" "String"]], mixedMap,
      [∅; <["name" := "hello"]> {["length" := "4"]}].
    split; [vm_compute; reflexivity|]. split; [vm_compute; reflexivity|].
    intros [_ Hflat].
    destruct (Hflat "hello" "rootHello" 1) as (root & _ & node & Hin & _ & Hf);
      [vm_compute; reflexivity|].
    apply list_elem_of_singleton in Hin as ->. simpl in Hf.
    by apply list_elem_of_singleton in Hf.
  - exists [objectType "T" [] [mkSub "g" "Int"]], strayMap,
      [ {["g" := "resolveG"]}; {["x" := "resolveX"]} ].
    split; [vm_compute; reflexivity|]. split; [vm_compute; reflexivity|].
    intros [Hnested _].
    destruct (Hnested "Gone" "x" "resolveX") as (node & Hin & Hname & _);
      [vm_compute; reflexivity|].
    by apply list_elem_of_singleton in Hin as ->.
  - exists [objectType "Query" [] [mkSub "Query" "String"]], selfMap,
      [ {["length" := "4"]}; <["name" := "name"]> {["length" := "4"]} ].
    split; [vm_compute; reflexivity|]. split; [vm_compute; reflexivity|].
    split; [vm_compute; reflexivity|]. split; [vm_compute; reflexivity|].
    intros [_ Hflat].
    destruct (Hflat "name" "rootName" 1) as (root & _ & node & Hin & _ & Hf);
      [vm_compute; reflexivity|].
    apply list_elem_of_singleton in Hin as ->. simpl in Hf.
    by apply list_elem_of_singleton in Hf.
Qed.

(** ** Paring a struct-like definition down to nothing

    The part of the pruning rule the code does implement: on a definition
    with a directives array and a fields array no pass throws, and when
    the source names every field of the target definition, the definition
    is dropped from the tree. *)

Lemma getSub_setSub c l subs : getSub c (setSub c l subs) = Some subs.
Proof. by destruct c. Qed.

Lemma pareSubType_total c lType (r : ResolverMap) rSub (h : Heap) :
  is_Some (getSub c lType) -> is_Some (fields lType) ->
  exists l1 r1 h1,
    pareSubType c (lType, r) rSub h = (Ok (l1, r1), h1)
    /\ is_Some (getSub c l1) /\ is_Some (fields l1).
Proof.
  intros [lSubs Hget] [fs Hfs]. unfold pareSubType. rewrite Hget.
  destruct (findSub (sub_name rSub) lSubs) as [[i lSub]|]; [|by eauto 10].
  unfold fieldsIndexOf. rewrite Hfs. simpl.
  destruct (deleteResolver (name lType) (sub_name lSub) r h) as [r1 h1].
  eexists _, _, _. split; [done|]. rewrite getSub_setSub. split; [by eauto|].
  destruct c; simpl; rewrite ?Hfs; eauto.
Qed.

Lemma pareSubType_pass_total c rSubs :
  forall lType (r : ResolverMap) (h : Heap),
    is_Some (getSub c lType) -> is_Some (fields lType) ->
    exists l' r' h',
      forOfH (pareSubType c) rSubs (lType, r) h = (Ok (l', r'), h')
      /\ is_Some (getSub c l') /\ is_Some (fields l').
Proof.
  induction rSubs as [|rSub rSubs IH]; intros lType r h Hget Hfs; [by simpl; eauto 10|].
  cbn [forOfH].
  destruct (pareSubType_total c lType r rSub h Hget Hfs) as (l1 & r1 & h1 & -> & Hget1 & Hfs1).
  by apply IH.
Qed.

Lemma NoDup_delete_lookup (names : list string) (i : nat) (g : string) :
  NoDup names -> names !! i = Some g -> g ∉ delete i names.
Proof.
  intros Hnd Hi Hin. apply list_elem_of_lookup in Hin as [j Hj].
  destruct (decide (j < i)).
  - rewrite list_lookup_delete_lt in Hj by done.
    pose proof (NoDup_lookup _ _ _ _ Hnd Hi Hj). lia.
  - rewrite list_lookup_delete_ge in Hj by lia.
    pose proof (NoDup_lookup _ _ _ _ Hnd Hi Hj). lia.
Qed.

(** With unique field names, a round of the fields pass leaves no field of
    the name it was given. *)
Lemma pareSubType_fields_removed lType (r : ResolverMap) rSub (h : Heap) l1 r1 h1 :
  pareSubType SubFields (lType, r) rSub h = (Ok (l1, r1), h1) ->
  NoDup (subNames (fields lType)) ->
  NoDup (subNames (fields l1))
  /\ forall f, f ∈ subNames (fields l1) ->
               f ∈ subNames (fields lType) /\ f <> sub_name rSub.
Proof.
  unfold pareSubType. simpl.
  destruct (fields lType) as [lSubs|] eqn:Hfs; [|done].
  destruct (findSub (sub_name rSub) lSubs) as [[i lSub]|] eqn:Hfind.
  - unfold fieldsIndexOf. rewrite Hfs. simpl.
    destruct (deleteResolver (name lType) (sub_name lSub) r h) as [r' h'].
    intros [= <- <- <-] Hnd. simpl in *.
    apply findSub_Some in Hfind as (Hi & Hn & Hlt).
    rewrite splice_remove by done. rewrite list_fmap_delete.
    assert (Hni : (sub_name <$> lSubs) !! i = Some (sub_name rSub))
      by (by rewrite list_lookup_fmap, Hi; simpl; rewrite Hn).
    split; [eapply sublist_NoDup; [done|apply sublist_delete]|].
    intros f Hf. split.
    + eapply elem_of_sublist; [done|apply sublist_delete].
    + intros ->. by eapply NoDup_delete_lookup.
  - intros [= <- <- <-] Hnd. rewrite Hfs. simpl. split; [done|].
    intros f Hf. split; [done|]. intros ->.
    apply list_elem_of_fmap in Hf as (y & Hy & Hin).
    apply list_find_None in Hfind. rewrite Forall_forall in Hfind.
    by apply (Hfind y Hin).
Qed.

Lemma pareSubType_fields_pass_removed rSubs :
  forall lType (r : ResolverMap) (h : Heap) l' r' h',
    forOfH (pareSubType SubFields) rSubs (lType, r) h = (Ok (l', r'), h') ->
    NoDup (subNames (fields lType)) ->
    NoDup (subNames (fields l'))
    /\ forall f, f ∈ subNames (fields l') ->
                 f ∈ subNames (fields lType) /\ f ∉ sub_name <$> rSubs.
Proof.
  induction rSubs as [|rSub rSubs IH]; intros lType r h l' r' h'.
  - simpl. intros [= <- <- <-] Hnd. split; [done|].
    intros f Hf. split; [done|]. apply not_elem_of_nil.
  - cbn [forOfH].
    destruct (pareSubType SubFields (lType, r) rSub h) as [[[l1 r1]|e] h1] eqn:Hround; [|done].
    intros Hrest Hnd.
    apply pareSubType_fields_removed in Hround as [Hnd1 Hsub1]; [|done].
    apply IH in Hrest as [Hnd2 Hsub2]; [|done].
    split; [done|]. intros f Hf.
    destruct (Hsub2 f Hf) as [Hf1 Hnot]. destruct (Hsub1 f Hf1) as [Hf0 Hne].
    split; [done|]. rewrite fmap_cons, not_elem_of_cons. by split.
Qed.

(** The part of the pruning rule that holds: when the source definition
    names every field of a struct-like target definition whose field names
    are unique, the loop body of [pareSDL] returns and the target
    definition is gone from the tree. *)
Lemma pareType_struct_emptied (lAST : Document) (r : ResolverMap) (h : Heap)
    rType0 i lType :
  findDefinition rType0 lAST = Ok (Some (i, lType)) ->
  kindArm (kind lType) = ArmStruct ->
  is_Some (directives lType) -> is_Some (fields lType) ->
  is_Some (directives rType0) -> is_Some (fields rType0) ->
  NoDup (subNames (fields lType)) ->
  (forall f, f ∈ subNames (fields lType) -> f ∈ subNames (fields rType0)) ->
  exists r' h', pareType (lAST, r) rType0 h = (Ok (delete i lAST, r'), h').
Proof.
  intros Hfind Harm Hld Hlf [rds Hrd] [rfs Hrf] Hnd Hall.
  unfold pareType. rewrite Hfind. cbv beta iota zeta. rewrite Harm.
  unfold pareArm, pareTypeAndSubType.
  assert (Hrd' : directives (normalizeExtension rType0) = Some rds).
  { unfold normalizeExtension. by destruct (endsWith _ _). }
  cbn [getSub]. rewrite normalizeExtension_fields, Hrd', Hrf.
  destruct (pareSubType_pass_total SubDirectives rds lType r h Hld Hlf)
    as (l1 & r1 & h1 & Hpass1 & _ & Hlf1).
  rewrite Hpass1.
  apply pareSubType_pass in Hpass1 as (_ & _ & _ & Hsame & _).
  specialize (Hsame ltac:(done)).
  destruct (pareSubType_pass_total SubFields rfs l1 r1 h1 Hlf1 Hlf1)
    as (l2 & r2 & h2 & Hpass2 & _ & [fs2 Hfs2]).
  rewrite Hpass2. exists r2, h2.
  apply pareSubType_fields_pass_removed in Hpass2 as [_ Hsub]; [|by rewrite Hsame].
  unfold dropIfEmpty. cbn [getSub]. rewrite Hfs2 in *.
  destruct fs2 as [|sub subs]; [done|]. exfalso.
  destruct (Hsub (sub_name sub)) as [Hin Hnot]; [simpl; apply list_elem_of_here|].
  apply Hnot. rewrite Hsame in Hin. specialize (Hall _ Hin). by rewrite Hrf in Hall.
Qed.

(** * Further properties of the merge loop *)

Lemma combineSubType_shell c reg rType lType rSub l1 :
  combineSubType c reg rType lType rSub = Ok l1 ->
  exists subs, l1 = setSub c lType subs.
Proof.
  unfold combineSubType. destruct (getSub c lType) as [lSubs|]; [|done].
  destruct (findSub (sub_name rSub) lSubs) as [[i lSub]|].
  - destruct (fieldsIndexOf c lType i); simpl; [|done]. intros [= <-]. eauto.
  - intros [= <-]. eauto.
Qed.

Lemma setSub_setSub c l subs subs' : setSub c (setSub c l subs) subs' = setSub c l subs'.
Proof. by destruct c. Qed.

Lemma setSub_getSub c l subs : getSub c l = Some subs -> setSub c l subs = l.
Proof. destruct l, c; simpl; by intros ->. Qed.

Lemma combineTypeAndSubType_shell c lType rType reg l' :
  combineTypeAndSubType c lType rType reg = Ok l' ->
  l' = lType \/ exists subs, l' = setSub c lType subs.
Proof.
  unfold combineTypeAndSubType. destruct (getSub c rType) as [rSubs|]; [|intros [= <-]; by left].
  revert lType. induction rSubs as [|rSub rSubs IH]; intros lType; simpl.
  - intros [= <-]. by left.
  - destruct (combineSubType c reg rType lType rSub) as [l1|] eqn:E; simpl; [|done].
    apply combineSubType_shell in E as [subs ->]. intros H. right.
    apply IH in H as [->|[subs' ->]]; [by eauto|]. rewrite setSub_setSub. eauto.
Qed.

Lemma combineTypeAndSubType_name_kind c lType rType reg l' :
  combineTypeAndSubType c lType rType reg = Ok l' ->
  name l' = name lType /\ kind l' = kind lType.
Proof.
  intros [->|[subs ->]]%combineTypeAndSubType_shell; [done|].
  by rewrite setSub_name, setSub_kind.
Qed.

(** A round of the merge loop on a name the left tree has rewrites the
    definition found, in place, under the same name and kind. *)
Lemma mergeType_found reg s1 s2 (lAST : Document) fns rType0 i lType lAST' fns' :
  findType (name rType0) lAST = Some (i, lType) ->
  mergeType reg s1 s2 (lAST, fns) rType0 = Ok (lAST', fns') ->
  exists l2, lAST' = <[i := l2]> lAST /\ name l2 = name lType /\ kind l2 = kind lType.
Proof.
  intros Hfind. searched Hfind.
  destruct (kindArm (kind lType));
    (destruct (combineTypeAndSubType SubDirectives lType (normalizeExtension rType0) reg)
       as [l1|] eqn:E1; simpl; [|done];
     apply combineTypeAndSubType_name_kind in E1 as [Hn1 Hk1]).
  1-3: match goal with
       | |- context [combineTypeAndSubType ?c ?l ?r ?g] =>
           destruct (combineTypeAndSubType c l r g) as [l2|] eqn:E2; simpl; [|done];
           apply combineTypeAndSubType_name_kind in E2 as [Hn2 Hk2];
           intros [= <- <-]; exists l2; split; [done|]; split; congruence
       end.
  intros [= <- <-]. exists l1. by split.
Qed.

Lemma addName_elem (acc : list string) (n : string) : n ∈ acc -> addName acc n = acc.
Proof. intros H. unfold addName. by rewrite decide_True. Qed.

Lemma addName_new (acc : list string) (n : string) : n ∉ acc -> addName acc n = acc ++ [n].
Proof. intros H. unfold addName. by rewrite decide_False. Qed.

Lemma addName_NoDup (acc : list string) (n : string) : NoDup acc -> NoDup (addName acc n).
Proof.
  intros H. unfold addName. case_decide; [done|].
  apply NoDup_app. split; [done|]. split; [|apply NoDup_singleton].
  intros x Hx Hin. apply list_elem_of_singleton in Hin as ->. done.
Qed.

Lemma mergeNames_NoDup (left right : list string) :
  NoDup left -> NoDup (mergeNames left right).
Proof.
  unfold mergeNames. revert left. induction right as [|n right IH]; intros left H; [done|].
  simpl. by apply IH, addName_NoDup.
Qed.

Lemma findType_None_names n (l : Document) : findType n l = None -> n ∉ name <$> l.
Proof.
  unfold findType. intros H%list_find_None Hin. rewrite Forall_forall in H.
  apply list_elem_of_fmap in Hin as (y & -> & Hy). by apply (H y).
Qed.

Lemma names_insert_same (l : Document) i x y :
  l !! i = Some x -> name y = name x -> name <$> <[i := y]> l = name <$> l.
Proof.
  intros Hi Hn. rewrite list_fmap_insert, Hn. apply list_insert_id.
  by rewrite list_lookup_fmap, Hi.
Qed.

(** One round of the merge loop: the names, and what it leaves alone. *)
Lemma mergeType_round reg s1 s2 (lAST : Document) fns rType0 lAST' fns' :
  mergeType reg s1 s2 (lAST, fns) rType0 = Ok (lAST', fns') ->
  name <$> lAST' = addName (name <$> lAST) (name rType0)
  /\ forall i node, lAST !! i = Some node ->
       exists node', lAST' !! i = Some node' /\ name node' = name node
                     /\ kind node' = kind node
                     /\ (name node <> name rType0 -> node' = node).
Proof.
  intros Hstep. destruct (findType (name rType0) lAST) as [[j lType]|] eqn:Hfind.
  - destruct (mergeType_found _ _ _ _ _ _ _ _ _ _ Hfind Hstep) as (l2 & -> & Hn2 & Hk2).
    apply findType_Some in Hfind as (Hj & Hname & _). split.
    + rewrite (names_insert_same _ _ lType) by done. symmetry. apply addName_elem.
      rewrite <- Hname. apply list_elem_of_fmap. exists lType. split; [done|].
      by eapply list_elem_of_lookup_2.
    + intros i node Hi. destruct (decide (i = j)) as [->|Hne].
      * rewrite Hj in Hi. injection Hi as <-. exists l2.
        rewrite list_lookup_insert_eq by (by eapply lookup_lt_Some).
        split; [done|]. split; [done|]. split; [done|]. intros Hdiff. by destruct Hdiff.
      * exists node. by rewrite list_lookup_insert_ne.
  - searched_in Hstep Hfind. injection Hstep as <- <-.
    split.
    + rewrite fmap_app. simpl. rewrite normalizeExtension_name. symmetry.
      by apply addName_new, findType_None_names.
    + intros i node Hi. exists node. split; [by apply lookup_app_l_Some|done].
Qed.

Lemma mergeLoop_inv reg s1 s2 rAST :
  forall (lAST : Document) fns0 lAST' fns,
    forOf (mergeType reg s1 s2) rAST (lAST, fns0) = Ok (lAST', fns) ->
    name <$> lAST' = mergeNames (name <$> lAST) (name <$> rAST)
    /\ forall i node, lAST !! i = Some node ->
         exists node', lAST' !! i = Some node' /\ name node' = name node
                       /\ kind node' = kind node
                       /\ (name node ∉ name <$> rAST -> node' = node).
Proof.
  induction rAST as [|x rAST IH]; intros lAST fns0 lAST' fns.
  - simpl. intros [= <- <-]. split; [done|]. intros i node Hi. by exists node.
  - cbn [forOf]. destruct (mergeType reg s1 s2 (lAST, fns0) x) as [[l1 f1]|] eqn:Hstep; [|done].
    simpl. intros Hrest. apply mergeType_round in Hstep as [Hnames1 Hframe1].
    apply IH in Hrest as [Hnames2 Hframe2]. split.
    + rewrite Hnames2, Hnames1. reflexivity.
    + intros i node Hi. destruct (Hframe1 i node Hi) as (n1 & Hi1 & Hn1 & Hk1 & Hsame1).
      destruct (Hframe2 i n1 Hi1) as (n2 & Hi2 & Hn2 & Hk2 & Hsame2).
      exists n2. split; [done|]. split; [congruence|]. split; [congruence|].
      intros Hout.
      assert (Hne : name node <> name x)
        by (intros E; apply Hout; rewrite E; apply list_elem_of_here).
      assert (Hnot : name node ∉ name <$> rAST)
        by (intros E; apply Hout; by apply list_elem_of_further).
      rewrite Hsame2 by (by rewrite Hn1). by apply Hsame1.
Qed.

(** X1: a merge that returns keeps every definition of the left tree at
    its position, under its name, and appends each right-hand name the
    left tree did not have, in source order, once; so definition names
    that were unique stay unique. *)
Theorem merge_definition_names :
  forall reg s1 s2 (lAST rAST lAST' : Document) fns,
    mergeDefinitions reg s1 s2 lAST rAST = Ok (lAST', fns) ->
    name <$> lAST' = mergeNames (name <$> lAST) (name <$> rAST)
    /\ (NoDup (name <$> lAST) -> NoDup (name <$> lAST')).
Proof.
  intros * Hmerge. apply mergeLoop_inv in Hmerge as [Hnames _].
  split; [done|]. rewrite Hnames. apply mergeNames_NoDup.
Qed.

Lemma merge_definition_names_witness :
  name <$> [ objectType "Query" [] [mkSub "hello" "String"; mkSub "world" "String"];
             objectType "Foo" [] [mkSub "a" "Int"; mkSub "b" "Int"];
             objectType "Bar" [] [mkSub "c" "Int"] ]
  = mergeNames (name <$> docA) (name <$> (docB ++ [objectExtension "Bar" [] [mkSub "c" "Int"]])).
Proof.
  apply (merge_definition_names DefaultConflictResolvers None None docA
           (docB ++ [objectExtension "Bar" [] [mkSub "c" "Int"]]) _ ∅).
  vm_compute. reflexivity.
Defined.

(** X2: a merge that returns never changes the kind of a definition the
    left tree had, and leaves a definition whose name the right tree does
    not use exactly as it was. *)
Theorem merge_frame :
  forall reg s1 s2 (lAST rAST lAST' : Document) fns i node,
    mergeDefinitions reg s1 s2 lAST rAST = Ok (lAST', fns) ->
    lAST !! i = Some node ->
    exists node', lAST' !! i = Some node' /\ name node' = name node
                  /\ kind node' = kind node
                  /\ (name node ∉ name <$> rAST -> node' = node).
Proof.
  intros * Hmerge Hi. apply mergeLoop_inv in Hmerge as [_ Hframe]. by apply Hframe.
Qed.

Lemma merge_frame_witness :
  exists node',
    [ objectType "Query" [] [mkSub "hello" "String"];
      objectType "Foo" [] [mkSub "a" "Int"; mkSub "b" "Int"] ] !! 0 = Some node'
    /\ name node' = "Query" /\ kind node' = "ObjectTypeDefinition"
    /\ ("Query" ∉ name <$> [objectType "Foo" [] [mkSub "b" "Int"]] ->
        node' = objectType "Query" [] [mkSub "hello" "String"]).
Proof.
  apply (merge_frame DefaultConflictResolvers None None docA
           [objectType "Foo" [] [mkSub "b" "Int"]] _ ∅ 0
           (objectType "Query" [] [mkSub "hello" "String"])).
  - vm_compute. reflexivity.
  - reflexivity.
Defined.

(** ** Merging the fields of two definitions *)

Lemma findSub_None_names n (l : list SubNode) : findSub n l = None -> n ∉ sub_name <$> l.
Proof.
  unfold findSub. intros H%list_find_None Hin. rewrite Forall_forall in H.
  apply list_elem_of_fmap in Hin as (y & -> & Hy). by apply (H y).
Qed.

Lemma subNames_insert_same (l : list SubNode) i x y :
  l !! i = Some x -> sub_name y = sub_name x -> sub_name <$> <[i := y]> l = sub_name <$> l.
Proof.
  intros Hi Hn. rewrite list_fmap_insert, Hn. apply list_insert_id.
  by rewrite list_lookup_fmap, Hi.
Qed.

(** One round on the fields array: it never throws. *)
Lemma combineSubType_fields_round reg rType lType rSub ls :
  fields lType = Some ls ->
  exists ls1,
    combineSubType SubFields reg rType lType rSub = Ok (setSub SubFields lType ls1)
    /\ (match findSub (sub_name rSub) ls with
        | Some (i, l) =>
            (ls !! i = Some l) /\ (sub_name l = sub_name rSub)
            /\ (ls1 = <[i := fieldMergeResolver reg lType l rType rSub]> ls)
        | None => (sub_name rSub ∉ sub_name <$> ls) /\ (ls1 = ls ++ [rSub])
        end).
Proof.
  intros Hfs. destruct (findSub (sub_name rSub) ls) as [[i l]|] eqn:Hfind.
  - rewrite (combineSubType_collision SubFields reg rType lType rSub ls i l Hfs Hfind).
    rewrite Hfs. apply findSub_Some in Hfind as (Hi & Hn & _). by eauto 10.
  - unfold combineSubType. simpl. rewrite Hfs, Hfind.
    eexists. split; [done|]. split; [by apply findSub_None_names|done].
Qed.

Lemma combineFields_loop reg rType rs :
  forall lType ls,
    fields lType = Some ls ->
    exists ls',
      forOf (combineSubType SubFields reg rType) rs lType = Ok (setSub SubFields lType ls')
      /\ (forall j x, ls !! j = Some x -> sub_name x ∉ sub_name <$> rs -> ls' !! j = Some x)
      /\ (keepsName (fieldMergeResolver reg) ->
          sub_name <$> ls' = mergeNames (sub_name <$> ls) (sub_name <$> rs))
      /\ ((forall lt l rt r, fieldMergeResolver reg lt l rt r = l) ->
          forall j x, ls !! j = Some x -> ls' !! j = Some x).
Proof.
  induction rs as [|r rs IH]; intros lType ls Hfs.
  - exists ls. cbn [forOf]. rewrite setSub_getSub by done. by repeat split.
  - cbn [forOf].
    destruct (combineSubType_fields_round reg rType lType r ls Hfs) as (ls1 & -> & Hround).
    cbn [bindR]. destruct (IH (setSub SubFields lType ls1) ls1 eq_refl)
      as (ls' & Hloop & Hframe & Hnames & Hleft).
    exists ls'. rewrite setSub_setSub in Hloop. split; [done|].
    destruct (findSub (sub_name r) ls) as [[i l]|] eqn:Hfind.
    + destruct Hround as (Hi & Hn & ->). split; [|split].
      * intros j x Hj Hout. apply Hframe.
        -- rewrite list_lookup_insert_ne; [done|]. intros <-.
           apply Hout. apply list_elem_of_fmap. exists r.
           split; [congruence|apply list_elem_of_here].
        -- intros Hin. apply Hout. by apply list_elem_of_further.
      * intros Hkeep. rewrite (Hnames Hkeep). rewrite fmap_cons. unfold mergeNames. simpl.
        rewrite (subNames_insert_same _ _ l) by (by rewrite ?Hkeep). f_equal.
        symmetry. apply addName_elem. rewrite <- Hn.
        apply list_elem_of_fmap. exists l. split; [done|]. by eapply list_elem_of_lookup_2.
      * intros Hres j x Hj. apply (Hleft Hres). rewrite Hres.
        by rewrite list_insert_id.
    + destruct Hround as (Hnot & ->). split; [|split].
      * intros j x Hj Hout. apply Hframe; [by apply lookup_app_l_Some|].
        intros Hin. apply Hout. by apply list_elem_of_further.
      * intros Hkeep. rewrite (Hnames Hkeep). rewrite fmap_cons, fmap_app. unfold mergeNames.
        simpl. f_equal. symmetry. by apply addName_new.
      * intros Hres j x Hj. apply (Hleft Hres). by apply lookup_app_l_Some.
Qed.

Lemma default_keepsName : keepsName (fieldMergeResolver DefaultConflictResolvers).
Proof. by intros lType lSub rType rSub _. Qed.

(** Under the default handlers a right-hand field whose name occurs once
    on the right ends up in the merged array as it is. *)
Lemma combineFields_default_right rType rs :
  forall lType ls ls',
    fields lType = Some ls ->
    forOf (combineSubType SubFields DefaultConflictResolvers rType) rs lType
    = Ok (setSub SubFields lType ls') ->
    NoDup (sub_name <$> rs) ->
    forall r, r ∈ rs -> r ∈ ls'.
Proof.
  induction rs as [|r0 rs IH]; intros lType ls ls' Hfs Hloop Hnd r Hin.
  - by apply elem_of_nil in Hin.
  - cbn [forOf] in Hloop.
    destruct (combineSubType_fields_round DefaultConflictResolvers rType lType r0 ls Hfs)
      as (ls1 & Hr & Hround).
    rewrite Hr in Hloop. cbn [bindR] in Hloop.
    rewrite fmap_cons in Hnd. apply NoDup_cons in Hnd as [Hfresh Hnd].
    destruct (combineFields_loop DefaultConflictResolvers rType rs
                (setSub SubFields lType ls1) ls1 eq_refl) as (ls2 & Hloop2 & Hframe & _).
    rewrite Hloop2 in Hloop. rewrite !setSub_setSub in Hloop.
    assert (ls2 = ls') as ->.
    { by injection Hloop. }
    apply elem_of_cons in Hin as [->|Hin].
    + assert (Hr0 : r0 ∈ ls1).
      { destruct (findSub (sub_name r0) ls) as [[i l]|].
        - destruct Hround as (Hi & _ & ->). simpl.
          eapply list_elem_of_lookup_2. apply list_lookup_insert_eq. by eapply lookup_lt_Some.
        - destruct Hround as (_ & ->). apply elem_of_app. right. apply list_elem_of_here. }
      apply list_elem_of_lookup in Hr0 as [j Hj]. eapply list_elem_of_lookup_2.
      by apply Hframe.
    + eapply (IH (setSub SubFields lType ls1) ls1 ls'); done.
Qed.

(** X3: merging the fields of a right-hand definition into a left-hand
    definition that has a fields array never throws; a left field whose
    name the right does not use stays at its position as it is; with a
    handler that answers a field of the colliding name (the default does)
    the field names are the left names followed by the new right names. *)
Theorem merge_fields_total_and_frame :
  forall reg (lType rType : TypeNode) ls rs,
    fields lType = Some ls -> fields rType = Some rs ->
    exists ls',
      combineTypeAndSubType SubFields lType rType reg = Ok (setSub SubFields lType ls')
      /\ (forall j x, ls !! j = Some x -> sub_name x ∉ sub_name <$> rs -> ls' !! j = Some x)
      /\ (keepsName (fieldMergeResolver reg) ->
          sub_name <$> ls' = mergeNames (sub_name <$> ls) (sub_name <$> rs)
          /\ (NoDup (sub_name <$> ls) -> NoDup (sub_name <$> ls'))).
Proof.
  intros * Hl Hr. unfold combineTypeAndSubType. cbn [getSub]. rewrite Hr.
  destruct (combineFields_loop reg rType rs lType ls Hl) as (ls' & Hloop & Hframe & Hnames & _).
  exists ls'. split; [done|]. split; [done|]. intros Hkeep. split; [by apply Hnames|].
  rewrite (Hnames Hkeep). apply mergeNames_NoDup.
Qed.

Lemma merge_fields_total_and_frame_witness :
  exists ls',
    combineTypeAndSubType SubFields
      (objectType "T" [] [mkSub "f" "Int"; mkSub "g" "Int"])
      (objectType "T" [] [mkSub "g" "String"; mkSub "h" "Int"]) DefaultConflictResolvers
    = Ok (setSub SubFields (objectType "T" [] [mkSub "f" "Int"; mkSub "g" "Int"]) ls')
    /\ ls' !! 0 = Some (mkSub "f" "Int")
    /\ sub_name <$> ls' = ["f"; "g"; "h"].
Proof.
  destruct (merge_fields_total_and_frame DefaultConflictResolvers
              (objectType "T" [] [mkSub "f" "Int"; mkSub "g" "Int"])
              (objectType "T" [] [mkSub "g" "String"; mkSub "h" "Int"])
              [mkSub "f" "Int"; mkSub "g" "Int"] [mkSub "g" "String"; mkSub "h" "Int"]
              eq_refl eq_refl) as (ls' & Hloop & Hframe & Hnames).
  exists ls'. split; [exact Hloop|]. split.
  - apply (Hframe 0 (mkSub "f" "Int") eq_refl). vm_compute.
    intros H. repeat (apply elem_of_cons in H as [H|H]; [discriminate|]).
    by apply elem_of_nil in H.
  - destruct (Hnames default_keepsName) as [-> _]. vm_compute. reflexivity.
Defined.

(** X4: under the default handlers, when the field names of the right-hand
    definition are unique, every right-hand field is in the merged fields
    array verbatim. *)
Theorem merge_fields_right_wins :
  forall (lType rType : TypeNode) ls rs ls',
    fields lType = Some ls -> fields rType = Some rs ->
    NoDup (sub_name <$> rs) ->
    combineTypeAndSubType SubFields lType rType DefaultConflictResolvers
    = Ok (setSub SubFields lType ls') ->
    forall r, r ∈ rs -> r ∈ ls'.
Proof.
  intros * Hl Hr Hnd Hloop. unfold combineTypeAndSubType in Hloop. cbn [getSub] in Hloop.
  rewrite Hr in Hloop. intros r Hin.
  by apply (combineFields_default_right rType rs lType ls ls').
Qed.

Lemma merge_fields_right_wins_witness :
  mkSub "g" "String" ∈ [mkSub "f" "Int"; mkSub "g" "String"; mkSub "h" "Int"].
Proof.
  apply (merge_fields_right_wins
           (objectType "T" [] [mkSub "f" "Int"; mkSub "g" "Int"])
           (objectType "T" [] [mkSub "g" "String"; mkSub "h" "Int"])
           [mkSub "f" "Int"; mkSub "g" "Int"] [mkSub "g" "String"; mkSub "h" "Int"]
           [mkSub "f" "Int"; mkSub "g" "String"; mkSub "h" "Int"] eq_refl eq_refl).
  - vm_compute. apply NoDup_cons. split.
    + intros H. apply elem_of_cons in H as [H|H]; [discriminate|]. by apply elem_of_nil in H.
    + apply NoDup_singleton.
  - vm_compute. reflexivity.
  - apply list_elem_of_here.
Defined.

(** X5: with a field handler that answers the left field (what the doc
    comment of the handler type prescribes to ignore changes), every left
    field stays at its position as it is, and the merge only appends. *)
Theorem merge_fields_keep_left :
  forall reg (lType rType : TypeNode) ls rs,
    (forall lt l rt r, fieldMergeResolver reg lt l rt r = l) ->
    fields lType = Some ls -> fields rType = Some rs ->
    exists extra,
      combineTypeAndSubType SubFields lType rType reg
      = Ok (setSub SubFields lType (ls ++ extra))
      /\ forall r, r ∈ extra -> r ∈ rs /\ sub_name r ∉ sub_name <$> ls.
Proof.
  intros reg lType rType ls rs Hres Hl Hr. unfold combineTypeAndSubType. cbn [getSub].
  rewrite Hr.
  clear Hr. revert lType ls Hl. induction rs as [|r rs IH]; intros lType ls Hl.
  - exists []. cbn [forOf]. rewrite app_nil_r, setSub_getSub by done. split; [done|].
    intros r Hin. by apply elem_of_nil in Hin.
  - cbn [forOf].
    destruct (combineSubType_fields_round reg rType lType r ls Hl) as (ls1 & -> & Hround).
    cbn [bindR]. destruct (findSub (sub_name r) ls) as [[i l]|].
    + destruct Hround as (Hi & Hn & ->). rewrite Hres, list_insert_id by done.
      destruct (IH (setSub SubFields lType ls) ls eq_refl) as (extra & Hloop & Hextra).
      exists extra. rewrite setSub_setSub in Hloop. split; [done|].
      intros x Hx. destruct (Hextra x Hx). split; [by apply list_elem_of_further|done].
    + destruct Hround as (Hnot & ->).
      destruct (IH (setSub SubFields lType (ls ++ [r])) (ls ++ [r]) eq_refl)
        as (extra & Hloop & Hextra).
      exists (r :: extra). rewrite setSub_setSub in Hloop.
      rewrite <- app_assoc in Hloop. split; [done|].
      intros x Hx. apply elem_of_cons in Hx as [->|Hx].
      * split; [apply list_elem_of_here|done].
      * destruct (Hextra x Hx) as [Hin Hout]. split; [by apply list_elem_of_further|].
        intros Hmem. apply Hout. rewrite fmap_app. apply elem_of_app. by left.
Qed.

Lemma merge_fields_keep_left_witness :
  exists extra,
    combineTypeAndSubType SubFields
      (objectType "T" [] [mkSub "f" "Int"; mkSub "g" "Int"])
      (objectType "T" [] [mkSub "g" "String"; mkSub "h" "Int"]) keepLeftResolvers
    = Ok (setSub SubFields (objectType "T" [] [mkSub "f" "Int"; mkSub "g" "Int"])
            ([mkSub "f" "Int"; mkSub "g" "Int"] ++ extra))
    /\ forall r, r ∈ extra ->
         r ∈ [mkSub "g" "String"; mkSub "h" "Int"]
         /\ sub_name r ∉ sub_name <$> [mkSub "f" "Int"; mkSub "g" "Int"].
Proof.
  apply (merge_fields_keep_left keepLeftResolvers
           (objectType "T" [] [mkSub "f" "Int"; mkSub "g" "Int"])
           (objectType "T" [] [mkSub "g" "String"; mkSub "h" "Int"])
           [mkSub "f" "Int"; mkSub "g" "Int"] [mkSub "g" "String"; mkSub "h" "Int"]);
    reflexivity.
Defined.

(** ** Folding an extension into its base definition *)

Lemma findSub_absent n (l : list SubNode) : n ∉ sub_name <$> l -> findSub n l = None.
Proof.
  intros Hout. unfold findSub. apply list_find_None, Forall_forall.
  intros x Hx Heq. apply Hout. rewrite <- Heq. apply list_elem_of_fmap. by exists x.
Qed.

(** Sub-nodes under names the left-hand collection does not have, and no
    two of them under the same name, are appended in source order. *)
Lemma combineSubType_append c reg rType rSubs :
  forall lType lSubs,
    getSub c lType = Some lSubs ->
    NoDup (sub_name <$> rSubs) ->
    (forall d, d ∈ rSubs -> sub_name d ∉ sub_name <$> lSubs) ->
    forOf (combineSubType c reg rType) rSubs lType = Ok (setSub c lType (lSubs ++ rSubs)).
Proof.
  induction rSubs as [|d rSubs IH]; intros lType lSubs Hget Hnd Hout.
  - cbn [forOf]. by rewrite app_nil_r, setSub_getSub.
  - rewrite fmap_cons in Hnd. apply NoDup_cons in Hnd as [Hfresh Hnd].
    cbn [forOf]. unfold combineSubType at 1.
    rewrite Hget, (findSub_absent _ _ (Hout d (list_elem_of_here _ _))). cbn [bindR].
    rewrite (IH (setSub c lType (lSubs ++ [d])) (lSubs ++ [d])); [| |done|].
    + by rewrite setSub_setSub, <- app_assoc.
    + apply getSub_setSub.
    + intros d' Hd' Hin. rewrite fmap_app in Hin. apply elem_of_app in Hin as [Hin|Hin].
      * by apply (Hout d' (list_elem_of_further _ _ _ Hd')).
      * simpl in Hin. apply list_elem_of_singleton in Hin. apply Hfresh. rewrite <- Hin.
        apply list_elem_of_fmap. by exists d'.
Qed.

Lemma setSub_fields_inj lType (ls ls' : list SubNode) :
  setSub SubFields lType ls = setSub SubFields lType ls' -> ls = ls'.
Proof. by intros [= ->]. Qed.

(** Under handlers that keep the name of a collision, a right-hand field
    under a new name is in the merged fields array. *)
Lemma combineFields_new reg rType rs :
  keepsName (fieldMergeResolver reg) ->
  forall lType ls ls',
    fields lType = Some ls ->
    forOf (combineSubType SubFields reg rType) rs lType = Ok (setSub SubFields lType ls') ->
    NoDup (sub_name <$> rs) ->
    forall r, r ∈ rs -> sub_name r ∉ sub_name <$> ls -> r ∈ ls'.
Proof.
  intros Hkeep. induction rs as [|r0 rs IH]; intros lType ls ls' Hfs Hloop Hnd r Hin Hout.
  - by apply elem_of_nil in Hin.
  - rewrite fmap_cons in Hnd. apply NoDup_cons in Hnd as [Hfresh Hnd].
    cbn [forOf] in Hloop.
    destruct (combineSubType_fields_round reg rType lType r0 ls Hfs) as (ls1 & Hround & Hshape).
    rewrite Hround in Hloop. cbn [bindR] in Hloop.
    destruct (combineFields_loop reg rType rs (setSub SubFields lType ls1) ls1 eq_refl)
      as (ls2 & Hrest & Hframe & _).
    rewrite Hrest in Hloop. rewrite setSub_setSub in Hloop.
    injection Hloop as Hls. subst ls2.
    apply elem_of_cons in Hin as [->|Hin].
    + rewrite (findSub_absent _ _ Hout) in Hshape. destruct Hshape as [_ ->].
      eapply list_elem_of_lookup_2. apply Hframe; [|done].
      rewrite lookup_app_r by done. by rewrite Nat.sub_diag.
    + assert (Hne : sub_name r <> sub_name r0).
      { intros Heq. apply Hfresh. rewrite <- Heq. apply list_elem_of_fmap. by exists r. }
      apply (IH (setSub SubFields lType ls1) ls1 ls' eq_refl Hrest Hnd r Hin).
      destruct (findSub (sub_name r0) ls) as [[i l]|] eqn:Hfind.
      * destruct Hshape as (Hi & Hn & ->).
        rewrite (subNames_insert_same _ _ l) by (by rewrite ?Hkeep). done.
      * destruct Hshape as [_ ->]. rewrite fmap_app. apply not_elem_of_app. split; [done|].
        simpl. intros Hmem. by apply list_elem_of_singleton in Hmem.
Qed.

(** C7: a right-hand node whose kind ends in "Extension" is replaced, for
    the merge, by a copy whose kind is the same name with "Definition" in
    place of the suffix and whose other properties are those of the node;
    a node whose kind does not end in "Extension" passes through as it is;
    and merging the extension node gives what merging the base definition
    with the same content gives, both when the left tree has a definition
    of that name and when the node is appended as a new one (the pare loop
    folds the node the same way). Where the left tree has a struct-like
    definition of the name, the merge rewrites that definition in place:
    the directives of the extension, under names the definition does not
    have, are appended to its directives; its fields under names the
    extension does not use stay where they are; and under handlers that
    keep the name of a collision, the field names are merged in order and
    every field the extension has under a new name is in the result. *)
Theorem extension_folding :
  forall (rType : TypeNode) (base : string),
    kind rType = String.append base "Extension" ->
    let folded := setKind rType (String.append base "Definition") in
    normalizeExtension rType = folded
    /\ kind folded = String.append base "Definition"
    /\ (name folded, directives folded, fields folded, values folded, types folded, rest folded)
       = (name rType, directives rType, fields rType, values rType, types rType, rest rType)
    /\ (forall node, (forall b, kind node <> String.append b "Extension") ->
                     normalizeExtension node = node)
    /\ normalizeExtension folded = folded
    /\ (forall conflictResolvers thisSchema sourceSchema (lAST more : Document),
           mergeDefinitions conflictResolvers thisSchema sourceSchema lAST (rType :: more)
           = mergeDefinitions conflictResolvers thisSchema sourceSchema lAST (folded :: more))
    /\ (forall conflictResolvers thisSchema sourceSchema (lAST : Document),
           findDefinition rType lAST = Ok None ->
           mergeDefinitions conflictResolvers thisSchema sourceSchema lAST [rType]
           = Ok (lAST ++ [folded], ∅))
    /\ (forall conflictResolvers thisSchema sourceSchema (lAST : Document)
               (i : nat) (lType : TypeNode) (lds ls rds rs : list SubNode),
           findDefinition rType lAST = Ok (Some (i, lType)) ->
           kindArm (kind lType) = ArmStruct ->
           directives lType = Some lds -> fields lType = Some ls ->
           directives rType = Some rds -> fields rType = Some rs ->
           NoDup (sub_name <$> rds) ->
           (forall d, d ∈ rds -> sub_name d ∉ sub_name <$> lds) ->
           exists fs',
             mergeDefinitions conflictResolvers thisSchema sourceSchema lAST [rType]
             = Ok (<[i := setSub SubFields (setSub SubDirectives lType (lds ++ rds)) fs']> lAST,
                   ∅)
             /\ (forall j x, ls !! j = Some x -> sub_name x ∉ sub_name <$> rs ->
                             fs' !! j = Some x)
             /\ (keepsName (fieldMergeResolver conflictResolvers) ->
                 sub_name <$> fs' = mergeNames (sub_name <$> ls) (sub_name <$> rs)
                 /\ (NoDup (sub_name <$> rs) ->
                     forall r, r ∈ rs -> sub_name r ∉ sub_name <$> ls -> r ∈ fs')))
    /\ (forall (lAST more : Document) (resolverMap : ResolverMap) (heap : Heap),
           pareDefinitions lAST (rType :: more) resolverMap heap
           = pareDefinitions lAST (folded :: more) resolverMap heap).
Proof.
  intros rType base Hk folded.
  pose proof (normalizeExtension_extension rType base Hk) as Hnorm.
  assert (Hfold : normalizeExtension folded = folded)
    by (apply (normalizeExtension_definition folded base); reflexivity).
  split; [exact Hnorm|]. split; [reflexivity|]. split; [reflexivity|].
  split; [exact normalizeExtension_other|]. split; [exact Hfold|]. split.
  - intros. unfold mergeDefinitions. cbn [forOf].
    pose proof (mergeType_normalized conflictResolvers thisSchema sourceSchema
                  (lAST, ∅) rType) as E.
    rewrite Hnorm in E. rewrite <- E; [done|exact Hfold].
  - split; [|split].
    + intros * Hnone. unfold mergeDefinitions. cbn [forOf]. unfold mergeType.
      by rewrite Hnone, Hnorm.
    + intros reg s1 s2 lAST i lType lds ls rds rs Hfind Harm Hld Hlf Hrd Hrf Hnd Hout.
      unfold mergeDefinitions. cbn [forOf]. unfold mergeType.
      rewrite Hfind. cbn [bindR]. rewrite Harm. unfold combineTypeAndSubType.
      cbn [getSub]. rewrite normalizeExtension_directives, normalizeExtension_fields, Hrd, Hrf.
      rewrite (combineSubType_append SubDirectives reg _ rds lType lds Hld Hnd Hout).
      cbn [bindR].
      set (l1 := setSub SubDirectives lType (lds ++ rds)).
      assert (Hl1 : fields l1 = Some ls) by done.
      destruct (combineFields_loop reg (normalizeExtension rType) rs l1 ls Hl1)
        as (fs' & Hloop & Hframe & Hnames & _).
      rewrite Hloop. cbn [bindR]. exists fs'. split; [done|]. split; [done|].
      intros Hkeep. split; [by apply Hnames|]. intros Hndr r Hr Hnew.
      by eapply (combineFields_new reg (normalizeExtension rType) rs Hkeep l1 ls fs').
    + intros. unfold pareDefinitions. cbn [forOfH].
      pose proof (pareType_normalized (lAST, resolverMap) rType heap) as E.
      rewrite Hnorm in E. rewrite <- E; [done|exact Hfold].
Qed.

(** The extension of Foo with the directive key and the field b, merged
    into "type Query { hello: String } type Foo { a: Int }". *)
Lemma extension_folding_witness :
  let rType := objectExtension "Foo" [mkSub "key" ""] [mkSub "b" "Int"] in
  let folded := objectType "Foo" [mkSub "key" ""] [mkSub "b" "Int"] in
  kind rType = String.append "ObjectType" "Extension"
  /\ normalizeExtension rType = folded
  /\ mergeDefinitions DefaultConflictResolvers None None docA [rType]
     = mergeDefinitions DefaultConflictResolvers None None docA [folded]
  /\ mergeDefinitions DefaultConflictResolvers None None docA [rType]
     = Ok ([ objectType "Query" [] [mkSub "hello" "String"];
             objectType "Foo" [mkSub "key" ""] [mkSub "a" "Int"; mkSub "b" "Int"] ], ∅)
  /\ exists fs',
       mergeDefinitions DefaultConflictResolvers None None docA [rType]
       = Ok (<[1 := setSub SubFields
                      (setSub SubDirectives (objectType "Foo" [] [mkSub "a" "Int"])
                         ([] ++ [mkSub "key" ""])) fs']> docA, ∅)
       /\ sub_name <$> fs' = mergeNames ["a"] ["b"]
       /\ mkSub "b" "Int" ∈ fs'.
Proof.
  split; [reflexivity|].
  pose proof (extension_folding (objectExtension "Foo" [mkSub "key" ""] [mkSub "b" "Int"])
                "ObjectType" eq_refl) as (Hnorm & _ & _ & _ & _ & Hmerge & _ & Hbase & _).
  split; [exact Hnorm|]. split; [exact (Hmerge DefaultConflictResolvers None None docA [])|].
  split; [vm_compute; reflexivity|].
  destruct (Hbase DefaultConflictResolvers None None docA 1
              (objectType "Foo" [] [mkSub "a" "Int"]) [] [mkSub "a" "Int"]
              [mkSub "key" ""] [mkSub "b" "Int"])
    as (fs' & Hcall & _ & Hkeep); try reflexivity.
  - apply NoDup_singleton.
  - intros d _. apply not_elem_of_nil.
  - exists fs'. split; [exact Hcall|].
    destruct Hkeep as [Hnames Hnew]; [by intros lType lSub rType rSub Hsame|].
    split; [exact Hnames|].
    apply Hnew; [apply NoDup_singleton|apply list_elem_of_here|].
    simpl. intros Hin. apply list_elem_of_singleton in Hin. discriminate.
Defined.

(** ** Struct-like documents *)

Lemma hasArrays_setSub c l subs : hasArrays l -> hasArrays (setSub c l subs).
Proof. intros (Hnm & Hd & Hf). destruct c; repeat split; simpl; eauto. Qed.

Lemma combineSubType_total c reg rType lType rSub :
  is_Some (getSub c lType) -> is_Some (fields lType) ->
  exists subs, combineSubType c reg rType lType rSub = Ok (setSub c lType subs).
Proof.
  intros [ls Hget] [fs Hfs]. unfold combineSubType. rewrite Hget.
  destruct (findSub (sub_name rSub) ls) as [[i l]|]; [|by eauto].
  unfold fieldsIndexOf. rewrite Hfs. simpl. eauto.
Qed.

Lemma combineTypeAndSubType_total c lType rType reg :
  hasArrays lType -> c = SubDirectives \/ c = SubFields ->
  exists l', combineTypeAndSubType c lType rType reg = Ok l'
             /\ hasArrays l' /\ name l' = name lType /\ kind l' = kind lType.
Proof.
  intros Harr Hc. unfold combineTypeAndSubType.
  destruct (getSub c rType) as [rs|]; [|by eauto].
  revert lType Harr. induction rs as [|r rs IH]; intros lType Harr; [by simpl; eauto|].
  cbn [forOf].
  destruct (combineSubType_total c reg rType lType r) as [subs ->].
  { destruct Harr as (_ & ? & ?), Hc as [->| ->]; done. }
  { by destruct Harr as (_ & _ & ?). }
  cbn [bindR]. destruct (IH (setSub c lType subs)) as (l' & -> & Harr' & Hn & Hk).
  { by apply hasArrays_setSub. }
  exists l'. by rewrite Hn, Hk, setSub_name, setSub_kind.
Qed.

Lemma structRight_normalized node : structRight node -> structLeft (normalizeExtension node).
Proof.
  intros [(Hnm & Hd & Hf) Hk]. split; [|done]. unfold normalizeExtension.
  by destruct (endsWith _ _).
Qed.

(** X6: on documents whose definitions all have a name, a directives
    array and a fields array and take the struct-like arm, a merge never
    throws, whatever the handlers, collects no scalar config, and returns
    such a document again. *)
Theorem merge_struct_documents_total :
  forall reg s1 s2 (lAST rAST : Document),
    Forall structLeft lAST -> Forall structRight rAST ->
    exists lAST',
      mergeDefinitions reg s1 s2 lAST rAST = Ok (lAST', ∅)
      /\ Forall structLeft lAST'.
Proof.
  intros reg s1 s2 lAST rAST Hl Hr. unfold mergeDefinitions.
  generalize (∅ : ScalarFns) as fns. revert lAST Hl.
  induction Hr as [|x rAST Hx Hr IH]; intros lAST Hl fns; [by simpl; eauto|].
  cbn [forOf].
  assert (exists l1, mergeType reg s1 s2 (lAST, fns) x = Ok (l1, fns) /\ Forall structLeft l1)
    as (l1 & -> & Hl1).
  { unfold mergeType. rewrite findDefinition_named; cycle 1.
    { eapply Forall_impl; [exact Hl|]. by intros node [[Hnm _] _]. }
    { by destruct Hx as [[Hnm _] _]. }
    cbn [bindR]. destruct (findType (name x) lAST) as [[i lType]|] eqn:Hfind.
    - apply findType_Some in Hfind as (Hi & _ & _).
      pose proof (Forall_lookup_1 _ _ _ _ Hl Hi) as [Harr Hk]. rewrite Hk.
      destruct (combineTypeAndSubType_total SubDirectives lType (normalizeExtension x) reg Harr)
        as (l1 & -> & Harr1 & Hn1 & Hk1); [by left|].
      cbn [bindR].
      destruct (combineTypeAndSubType_total SubFields l1 (normalizeExtension x) reg Harr1)
        as (l2 & -> & Harr2 & Hn2 & Hk2); [by right|].
      cbn [bindR]. eexists. split; [done|].
      apply Forall_insert; [done|]. split; [done|]. congruence.
    - eexists. split; [done|]. apply Forall_app. split; [done|].
      apply Forall_singleton. by apply structRight_normalized. }
  cbn [bindR]. by apply IH.
Qed.

Lemma merge_struct_documents_total_witness :
  exists lAST',
    mergeDefinitions keepLeftResolvers None None docA docB = Ok (lAST', ∅)
    /\ Forall structLeft lAST'.
Proof.
  apply (merge_struct_documents_total keepLeftResolvers None None docA docB).
  - repeat constructor; unfold named; simpl; eauto.
  - repeat constructor; unfold named; simpl; eauto.
Defined.

(** ** Merging a document with itself, or with one of other names *)

Lemma findSub_NoDup (l : list SubNode) i x :
  NoDup (sub_name <$> l) -> l !! i = Some x -> findSub (sub_name x) l = Some (i, x).
Proof.
  intros Hnd Hi. unfold findSub. apply list_find_Some. split; [done|]. split; [done|].
  intros j y Hj Hlt Heq.
  assert (j = i); [|lia].
  eapply (NoDup_lookup (sub_name <$> l)); [done|..].
  - by rewrite list_lookup_fmap, Hj.
  - by rewrite list_lookup_fmap, Hi; simpl; rewrite Heq.
Qed.

Lemma findType_NoDup (l : Document) i x :
  NoDup (name <$> l) -> l !! i = Some x -> findType (name x) l = Some (i, x).
Proof.
  intros Hnd Hi. unfold findType. apply list_find_Some. split; [done|]. split; [done|].
  intros j y Hj Hlt Heq.
  assert (j = i); [|lia].
  eapply (NoDup_lookup (name <$> l)); [done|..].
  - by rewrite list_lookup_fmap, Hj.
  - by rewrite list_lookup_fmap, Hi; simpl; rewrite Heq.
Qed.

Lemma findType_absent n (l : Document) : n ∉ name <$> l -> findType n l = None.
Proof.
  intros Hout. unfold findType. apply list_find_None, Forall_forall.
  intros x Hx Heq. apply Hout. rewrite <- Heq. apply list_elem_of_fmap. by exists x.
Qed.

(** Merging a definition's own fields into it changes nothing. *)
Lemma combineFields_self rType lType fs rs :
  fields lType = Some fs -> NoDup (sub_name <$> fs) ->
  (forall r, r ∈ rs -> r ∈ fs) ->
  forOf (combineSubType SubFields DefaultConflictResolvers rType) rs lType = Ok lType.
Proof.
  intros Hfs Hnd. induction rs as [|r rs IH]; intros Hsub; [done|].
  cbn [forOf].
  destruct (combineSubType_fields_round DefaultConflictResolvers rType lType r fs Hfs)
    as (ls1 & -> & Hround).
  assert (Hr : r ∈ fs) by (apply Hsub, list_elem_of_here).
  apply list_elem_of_lookup in Hr as [i Hi].
  rewrite (findSub_NoDup fs i r Hnd Hi) in Hround. destruct Hround as (_ & _ & ->).
  simpl fieldMergeResolver. unfold DefaultFieldMergeResolver.
  rewrite list_insert_id by done. rewrite setSub_getSub by done.
  cbn [bindR]. apply IH. intros x Hx. by apply Hsub, list_elem_of_further.
Qed.

Lemma combineDirectives_self rType lType ds :
  directives lType = Some ds -> is_Some (fields lType) -> length ds <= 1 ->
  forOf (combineSubType SubDirectives DefaultConflictResolvers rType) ds lType = Ok lType.
Proof.
  intros Hds [fs Hfs] Hlen. destruct ds as [|d [|d' ds]]; [done| |simpl in Hlen; lia].
  cbn [forOf].
  assert (Hfind : findSub (sub_name d) [d] = Some (0, d)).
  { unfold findSub. simpl. by rewrite decide_True. }
  rewrite (combineSubType_collision SubDirectives DefaultConflictResolvers rType lType d
             [d] 0 d Hds Hfind).
  rewrite Hfs. simpl take. simpl app. by rewrite setSub_getSub.
Qed.

(** X7: under the default handlers, merging a document with itself gives
    the document back, when definition names and field names are unique,
    every definition has a name and is struct-like and none has more than
    one directive. *)
Theorem merge_self_identity :
  forall s1 s2 (lAST : Document),
    NoDup (name <$> lAST) -> Forall plainStruct lAST ->
    mergeDefinitions DefaultConflictResolvers s1 s2 lAST lAST = Ok (lAST, ∅).
Proof.
  intros s1 s2 lAST Hnd Hall. unfold mergeDefinitions.
  assert (Hloop : forall rs, (forall r, r ∈ rs -> r ∈ lAST) ->
            forOf (mergeType DefaultConflictResolvers s1 s2) rs (lAST, ∅) = Ok (lAST, ∅)).
  { induction rs as [|r rs IH]; intros Hsub; [done|]. cbn [forOf].
    assert (Hr : r ∈ lAST) by (apply Hsub, list_elem_of_here).
    assert (Hnamed : Forall named lAST).
    { eapply Forall_impl; [exact Hall|]. by intros node [Hnm _]. }
    rewrite Forall_forall in Hall.
    destruct (Hall r Hr) as (Hnm & Hk & ds & fs & Hds & Hfs & Hlen & Hnf).
    apply list_elem_of_lookup in Hr as [i Hi].
    unfold mergeType at 1. rewrite (findDefinition_named r lAST Hnamed Hnm).
    cbn [bindR]. rewrite (findType_NoDup lAST i r Hnd Hi), Hk.
    unfold combineTypeAndSubType.
    assert (Hnd' : directives (normalizeExtension r) = Some ds).
    { unfold normalizeExtension. by destruct (endsWith _ _). }
    cbn [getSub]. rewrite Hnd', normalizeExtension_fields, Hfs.
    rewrite (combineDirectives_self _ r ds Hds) by (by eauto). cbn [bindR].
    rewrite (combineFields_self _ r fs fs Hfs Hnf) by done. cbn [bindR].
    rewrite list_insert_id by done. apply IH.
    intros x Hx. by apply Hsub, list_elem_of_further. }
  by apply Hloop.
Qed.

Lemma merge_self_identity_witness :
  mergeDefinitions DefaultConflictResolvers None None docB docB = Ok (docB, ∅).
Proof.
  apply (merge_self_identity None None docB).
  - vm_compute. apply NoDup_cons. split.
    + intros H. apply elem_of_cons in H as [H|H]; [discriminate|]. by apply elem_of_nil in H.
    + apply NoDup_singleton.
  - repeat constructor; unfold named; simpl; eauto.
    + exists [], [mkSub "world" "String"]. repeat split; simpl; [lia|apply NoDup_singleton].
    + exists [], [mkSub "a" "Int"; mkSub "b" "Int"]. repeat split; simpl; [lia|].
      apply NoDup_cons. split; [|apply NoDup_singleton].
      intros H. apply elem_of_cons in H as [H|H]; [discriminate|]. by apply elem_of_nil in H.
Defined.

Lemma disjoint_names_loops reg s1 s2 (lAST rAST : Document) (resolverMap : ResolverMap)
    (heap : Heap) :
  Forall named lAST -> Forall named rAST ->
  (forall r, r ∈ rAST -> name r ∉ name <$> lAST) ->
  NoDup (name <$> rAST) ->
  mergeDefinitions reg s1 s2 lAST rAST = Ok (lAST ++ (normalizeExtension <$> rAST), ∅)
  /\ pareDefinitions lAST rAST resolverMap heap
     = (Ok (lAST ++ (normalizeExtension <$> rAST), resolverMap), heap).
Proof.
  revert reg s1 s2 lAST rAST resolverMap heap.
  intros reg s1 s2 lAST rAST resolverMap heap. unfold mergeDefinitions, pareDefinitions.
  generalize (∅ : ScalarFns) as fns. revert lAST.
  induction rAST as [|r rAST IH]; intros lAST fns Hleft Hright Hout Hnd.
  - simpl. by rewrite app_nil_r.
  - rewrite fmap_cons in Hnd. apply NoDup_cons in Hnd as [Hfresh Hnd].
    apply Forall_cons in Hright as [Hr Hright].
    cbn [forOf forOfH]. unfold mergeType at 1. unfold pareType at 1.
    rewrite (findDefinition_named r lAST Hleft Hr).
    rewrite (findType_absent (name r) lAST) by (apply Hout, list_elem_of_here).
    cbn [bindR]. rewrite fmap_cons.
    replace (lAST ++ normalizeExtension r :: (normalizeExtension <$> rAST))
      with ((lAST ++ [normalizeExtension r]) ++ (normalizeExtension <$> rAST))
      by (by rewrite <- app_assoc).
    apply IH; [|done| |done].
    { apply Forall_app. split; [done|]. apply Forall_singleton.
      unfold named. by rewrite normalizeExtension_nameNode. }
    intros x Hx Hin. rewrite fmap_app in Hin.
    apply elem_of_app in Hin as [Hin|Hin].
    + by apply (Hout x (list_elem_of_further _ _ _ Hx)).
    + simpl in Hin. apply list_elem_of_singleton in Hin.
      rewrite normalizeExtension_name in Hin. apply Hfresh. rewrite <- Hin.
      apply list_elem_of_fmap. by exists x.
Qed.

(** X8: when every definition of the two trees has a name, the right tree
    shares no definition name with the left tree and its own names are
    unique, merge and pare both return the left tree followed by the
    normalized right-hand definitions: the pare subtracts nothing, adds
    the source's definitions, and leaves the resolver map and its objects
    as they were. *)
Theorem disjoint_names_append :
  forall reg s1 s2 (lAST rAST : Document) (resolverMap : ResolverMap) (heap : Heap),
    Forall named lAST -> Forall named rAST ->
    (forall r, r ∈ rAST -> name r ∉ name <$> lAST) ->
    NoDup (name <$> rAST) ->
    mergeDefinitions reg s1 s2 lAST rAST = Ok (lAST ++ (normalizeExtension <$> rAST), ∅)
    /\ pareDefinitions lAST rAST resolverMap heap
       = (Ok (lAST ++ (normalizeExtension <$> rAST), resolverMap), heap).
Proof. intros. by apply disjoint_names_loops. Qed.

Lemma disjoint_names_append_witness :
  mergeDefinitions DefaultConflictResolvers None None docT docA
  = Ok (docT ++ (normalizeExtension <$> docA), ∅)
  /\ pareDefinitions docT docA callerMap callerHeap
     = (Ok (docT ++ (normalizeExtension <$> docA), callerMap), callerHeap).
Proof.
  apply (disjoint_names_append DefaultConflictResolvers None None docT docA callerMap callerHeap).
  - repeat constructor; unfold named; simpl; eauto.
  - repeat constructor; unfold named; simpl; eauto.
  - intros r Hr. vm_compute.
    repeat (apply elem_of_cons in Hr as [->|Hr];
            [intros H; apply list_elem_of_singleton in H; discriminate|]).
    by apply elem_of_nil in Hr.
  - vm_compute. apply NoDup_cons. split.
    + intros H. apply elem_of_cons in H as [H|H]; [discriminate|]. by apply elem_of_nil in H.
    + apply NoDup_singleton.
Defined.

(** ** Paring a document with itself *)


Lemma findType_head (a : TypeNode) (l : Document) :
  findType (name a) (a :: l) = Some (0, a).
Proof. unfold findType. simpl. by rewrite decide_True. Qed.





(** ** What a pare leaves alone *)

Lemma heapFrame_refl (r : ResolverMap) (h : Heap) : heapFrame r h h.
Proof. split; [done|]. split; [|done]. intros l o Ho. by exists o. Qed.

Lemma refersTo_weaken (r1 r : ResolverMap) l : r1 ⊆ r -> refersTo r1 l -> refersTo r l.
Proof.
  intros Hsub (key & entry & Hkey & Haddr). exists key, entry.
  split; [by eapply lookup_weaken|done].
Qed.

Lemma heapFrame_trans (r r1 : ResolverMap) (h h1 h2 : Heap) :
  heapFrame r h h1 -> r1 ⊆ r -> heapFrame r1 h1 h2 -> heapFrame r h h2.
Proof.
  intros (Hlen & Hsub & Hout) Hr (Hlen' & Hsub' & Hout').
  split; [congruence|]. split.
  - intros l o2 Ho2. destruct (Hsub' l o2 Ho2) as (o1 & Ho1 & H12).
    destruct (Hsub l o1 Ho1) as (o & Ho & H1). exists o. split; [done|]. by etrans.
  - intros l Hl. rewrite Hout'; [by apply Hout|].
    intros Hrefers. apply Hl. by eapply refersTo_weaken.
Qed.

Lemma deleteResolver_frame typeName subName (r : ResolverMap) (h : Heap) r' h' :
  deleteResolver typeName subName r h = (r', h') -> heapFrame r h h' /\ r' ⊆ r.
Proof.
  unfold deleteResolver.
  destruct (nestedTruthy r h typeName subName).
  - destruct (r !! typeName) as [target|] eqn:Hr; intros [= <- <-];
      [|split; [apply heapFrame_refl|done]].
    split; [|done].
    split; [apply length_alter|]. split.
    + intros l' o'. rewrite list_lookup_alter.
      destruct (decide (entryAddress target = l')) as [<-|_].
      * destruct (h !! entryAddress target) as [o|]; simpl; [|done]. intros [= <-].
        exists o. split; [done|]. apply delete_subseteq.
      * intros Ho. by exists o'.
    + intros l' Hl'. rewrite list_lookup_alter.
      destruct (decide (entryAddress target = l')) as [<-|_]; [|done].
      exfalso. apply Hl'. by exists typeName, target.
  - destruct (r !! subName); intros [= <- <-].
    + split; [apply heapFrame_refl|apply delete_subseteq].
    + split; [apply heapFrame_refl|done].
Qed.

Lemma forOfH_frame {S A} (proj : S -> ResolverMap)
    (body : S -> A -> Heap -> result S * Heap) :
  (forall s x h, frameStep proj s h (body s x h)) ->
  forall xs s h, frameStep proj s h (forOfH body xs s h).
Proof.
  intros Hbody. induction xs as [|x xs IH]; intros s h.
  - simpl. split; [apply heapFrame_refl|]. by intros s' [= <-].
  - cbn [forOfH]. destruct (Hbody s x h) as [Hframe Hsub].
    destruct (body s x h) as [[s1|e] h1]; simpl in *.
    + specialize (Hsub s1 eq_refl). destruct (IH s1 h1) as [Hframe' Hsub'].
      split; [by eapply heapFrame_trans|].
      intros s' Hs'. etrans; [by apply Hsub'|done].
    + by split.
Qed.

Lemma pareSubType_frame c st rSub (h : Heap) :
  frameStep snd st h (pareSubType c st rSub h).
Proof.
  destruct st as [lType r]. unfold pareSubType.
  destruct (getSub c lType) as [lSubs|]; [|by split; [apply heapFrame_refl|]].
  destruct (findSub (sub_name rSub) lSubs) as [[i lSub]|];
    [|by split; [apply heapFrame_refl|intros s' [= <-]]].
  destruct (fieldsIndexOf c lType i); [|by split; [apply heapFrame_refl|]].
  destruct (deleteResolver (name lType) (sub_name lSub) r h) as [r' h'] eqn:Hdel.
  apply deleteResolver_frame in Hdel as [Hframe Hsub].
  split; [done|]. by intros s' [= <-].
Qed.

Lemma pareTypeAndSubType_frame c lType rType (r : ResolverMap) (h : Heap) :
  frameStep snd (lType, r) h (pareTypeAndSubType c lType rType r h).
Proof.
  unfold pareTypeAndSubType.
  destruct (getSub c rType) as [rSubs|]; [|by split; [apply heapFrame_refl|]].
  apply forOfH_frame. intros s x h0. apply pareSubType_frame.
Qed.

Lemma pareArm_frame c i lType rType (lAST : Document) (r : ResolverMap) (h : Heap) :
  frameStep snd (lAST, r) h (pareArm c i lType rType lAST r h).
Proof.
  unfold pareArm.
  destruct (pareTypeAndSubType_frame SubDirectives lType rType r h) as [Hf1 Hs1].
  destruct (pareTypeAndSubType SubDirectives lType rType r h) as [[[l1 r1]|e1] h1];
    simpl in *; [|by split].
  specialize (Hs1 _ eq_refl). simpl in Hs1.
  destruct (pareTypeAndSubType_frame c l1 rType r1 h1) as [Hf2 Hs2].
  destruct (pareTypeAndSubType c l1 rType r1 h1) as [[[l2 r2]|e2] h2];
    simpl in *; [|by split; [eapply heapFrame_trans|]].
  specialize (Hs2 _ eq_refl). simpl in Hs2.
  split; [by eapply heapFrame_trans|].
  destruct (dropIfEmpty c i l2 lAST); simpl; [|done].
  intros s' [= <-]. simpl. by etrans.
Qed.

Lemma pareType_frame st rType0 (h : Heap) : frameStep snd st h (pareType st rType0 h).
Proof.
  destruct st as [lAST r]. unfold pareType.
  destruct (findDefinition rType0 lAST) as [[[i lType]|]|e];
    [|by split; [apply heapFrame_refl|intros s' [= <-]]|by split; [apply heapFrame_refl|]].
  destruct (kindArm (kind lType)); try apply pareArm_frame.
  split; [apply heapFrame_refl|]. by intros s' [= <-].
Qed.

(** X10: whatever a pare does, and also when it throws half-way, the
    heap of nested resolver objects and of the resolvers' own properties
    keeps its objects, an object only loses keys, and an object the
    supplied map does not refer to is left as it was; in particular a map
    whose entries carry no own property leaves the whole heap as it was. *)
Theorem pare_heap_frame :
  forall (lAST rAST : Document) (resolverMap : ResolverMap) (heap : Heap),
    let heap' := (pareDefinitions lAST rAST resolverMap heap).2 in
    (length heap' = length heap
     /\ (forall l o', heap' !! l = Some o' -> exists o, heap !! l = Some o /\ o' ⊆ o)
     /\ (forall l, ~ refersTo resolverMap l -> heap' !! l = heap !! l))
    /\ ((forall key entry o,
            resolverMap !! key = Some entry -> heap !! entryAddress entry = Some o -> o = ∅) ->
        heap' = heap).
Proof.
  intros lAST rAST r h heap'.
  assert (Hframe : heapFrame r h heap').
  { unfold heap', pareDefinitions.
    apply (forOfH_frame snd pareType pareType_frame rAST (lAST, r) h). }
  split; [exact Hframe|].
  intros Hempty. destruct Hframe as (Hlen & Hsub & Hout).
  apply list_eq. intros l.
  destruct (decide (map_Exists (fun _ entry => entryAddress entry = l) r))
    as [(key & entry & Hkey & <-)|Hno].
  - destruct (heap' !! entryAddress entry) as [o'|] eqn:E'.
    + destruct (Hsub _ _ E') as (o & Ho & Hsubo). rewrite Ho. f_equal.
      rewrite (Hempty key entry o Hkey Ho) in *. apply map_eq. intros k.
      rewrite lookup_empty. destruct (o' !! k) as [fn|] eqn:Ek; [|done].
      eapply lookup_weaken in Ek; [|done]. by rewrite lookup_empty in Ek.
    + destruct (h !! entryAddress entry) as [o|] eqn:E; [|done]. exfalso.
      apply lookup_lt_Some in E. apply lookup_ge_None in E'. lia.
  - apply Hout. intros (key & entry & Hkey & Haddr). apply Hno. by exists key, entry.
Qed.

Lemma filter_delete_not {A} (P : A -> Prop) `{!forall x, Decision (P x)} (l : list A) j y :
  l !! j = Some y -> ~ P y -> filter P (delete j l) = filter P l.
Proof.
  revert j. induction l as [|x l IH]; intros [|j] Hj Hy; simplify_eq/=.
  - by rewrite filter_cons_False.
  - destruct (decide (P x)).
    + rewrite !filter_cons_True by done. f_equal. by apply IH.
    + rewrite !filter_cons_False by done. by apply IH.
Qed.

Lemma filter_insert_not {A} (P : A -> Prop) `{!forall x, Decision (P x)} (l : list A) j y z :
  l !! j = Some y -> ~ P y -> ~ P z -> filter P (<[j := z]> l) = filter P l.
Proof.
  revert j. induction l as [|x l IH]; intros [|j] Hj Hy Hz; simplify_eq/=.
  - by rewrite !filter_cons_False.
  - destruct (decide (P x)).
    + rewrite !filter_cons_True by done. f_equal. by apply IH.
    + rewrite !filter_cons_False by done. by apply IH.
Qed.

Lemma pareType_keeps (names : list string)
    (lAST : Document) (r : ResolverMap) rType0 (h : Heap) lAST' r' h' :
  pareType (lAST, r) rType0 h = (Ok (lAST', r'), h') ->
  name rType0 ∈ names ->
  filter (fun node => name node ∉ names) lAST' = filter (fun node => name node ∉ names) lAST.
Proof.
  intros Hstep Hin. assert (Hnot : ~ (name rType0 ∉ names)) by (by intros Hout).
  destruct (findType (name rType0) lAST) as [[j lj]|] eqn:Hfind.
  - destruct (pareType_found _ _ _ _ _ _ _ _ _ Hfind Hstep) as (_ & Hshape & _).
    apply findType_Some in Hfind as (Hj & Hn & _).
    destruct Hshape as [->|(l2 & -> & Hn2 & _)].
    + eapply filter_delete_not; [done|]. by rewrite Hn.
    + eapply filter_insert_not; [done|by rewrite Hn|by rewrite Hn2, Hn].
  - searched_in Hstep Hfind. injection Hstep as <- <- <-.
    rewrite filter_app, filter_cons_False, filter_nil, app_nil_r; [done|].
    by rewrite normalizeExtension_name.
Qed.

(** X11: a pare that returns keeps, unchanged and in order, the
    definitions whose name the source tree does not use, and every other
    definition of the result carries a name of the source tree. *)
Theorem pare_keeps_unnamed_definitions :
  forall (lAST rAST : Document) (resolverMap : ResolverMap) (heap : Heap)
         (lAST' : Document) (pared : ResolverMap) (heap' : Heap),
    pareDefinitions lAST rAST resolverMap heap = (Ok (lAST', pared), heap') ->
    filter (fun node => name node ∉ name <$> rAST) lAST'
    = filter (fun node => name node ∉ name <$> rAST) lAST.
Proof.
  intros lAST rAST r h lAST' r' h'. unfold pareDefinitions.
  assert (Hin : forall x, x ∈ rAST -> name x ∈ name <$> rAST).
  { intros x Hx. apply list_elem_of_fmap. by exists x. }
  revert Hin. generalize (name <$> rAST). intros names Hnames. revert lAST r h.
  induction rAST as [|x rAST IH]; intros lAST r h.
  - simpl. by intros [= <- <- <-].
  - cbn [forOfH].
    destruct (pareType (lAST, r) x h) as [[[l1 r1]|e] h1] eqn:Hstep; [|done].
    intros Hrest. apply IH in Hrest.
    + rewrite Hrest. eapply pareType_keeps; [done|]. apply Hnames, list_elem_of_here.
    + intros n Hn. by apply Hnames, list_elem_of_further.
Qed.

Lemma pare_keeps_unnamed_definitions_witness :
  filter (fun node => name node ∉ name <$> docTf)
         (docA ++ [objectType "T" [] [mkSub "g" "Int"]])
  = filter (fun node => name node ∉ name <$> docTf) (docA ++ docT).
Proof.
  apply (pare_keeps_unnamed_definitions (docA ++ docT) docTf callerMap callerHeap
           (docA ++ [objectType "T" [] [mkSub "g" "Int"]]) callerMap
           [ {["g" := "resolveG"]} ]).
  vm_compute; reflexivity.
Defined.

(** ** The fields a pare leaves *)






(** ** The resolver map read off a schema *)







(** ** Merge, then pare by the same source *)






(** ** The listing of an [ExtendedResolver] *)

Lemma splice_insert_at {A} (l1 l2 : list A) (x : A) :
  splice (l1 ++ l2) (Z.of_nat (length l1)) 0 [x] = l1 ++ x :: l2.
Proof.
  unfold splice, spliceStart.
  destruct (Z.ltb_spec (Z.of_nat (length l1)) 0) as [Hneg|_]; [lia|].
  rewrite Nat2Z.id, length_app, Nat.min_l by lia.
  rewrite Nat.min_0_l, Nat.add_0_r, take_app_length, drop_app_length. done.
Qed.

Lemma elem_of_splice_insert {A} (l : list A) (i : nat) (x y : A) :
  y ∈ splice l (Z.of_nat i) 0 [x] <-> y ∈ l \/ y = x.
Proof.
  unfold splice, spliceStart.
  destruct (Z.ltb_spec (Z.of_nat i) 0) as [Hneg|_]; [lia|].
  rewrite Nat.min_0_l, Nat.add_0_r.
  set (n := Nat.min (Z.to_nat (Z.of_nat i)) (length l)).
  assert (Hl : y ∈ l <-> y ∈ take n l \/ y ∈ drop n l)
    by (by rewrite <- elem_of_app, take_drop).
  rewrite Hl, !elem_of_app, list_elem_of_singleton. tauto.
Qed.

Lemma indexOfOriginal_shape (e : ExtendedResolver.t) pre post :
  ExtendedResolver.listing e = pre ++ ExtendedResolver.original e :: post ->
  ExtendedResolver.original e ∉ pre ->
  ExtendedResolver.indexOfOriginal e = Some (length pre).
Proof.
  intros Hshape Hout. unfold ExtendedResolver.indexOfOriginal. rewrite Hshape.
  rewrite list_find_app_r.
  - cbn [list_find]. by rewrite decide_True.
  - apply list_find_None, Forall_forall. by intros f Hf ->.
Qed.

Lemma functionsOf_cons a l :
  ExtendedResolver.functionsOf (a :: l)
  = if ExtendedResolver.isFn a
    then ExtendedResolver.argId a :: ExtendedResolver.functionsOf l
    else ExtendedResolver.functionsOf l.
Proof.
  unfold ExtendedResolver.functionsOf.
  destruct (ExtendedResolver.isFn a) eqn:Hfn.
  - by rewrite filter_cons_True.
  - rewrite filter_cons_False; [done|]. by rewrite Hfn.
Qed.

Lemma isFn_truthy a :
  ExtendedResolver.argTruthy a && ExtendedResolver.isFn a = ExtendedResolver.isFn a.
Proof. by destruct a as [| |? []]. Qed.

Lemma prepend_shape (e : ExtendedResolver.t) a pre post :
  ExtendedResolver.listing e = pre ++ ExtendedResolver.original e :: post ->
  ExtendedResolver.original e ∉ pre ->
  ExtendedResolver.prepend e a
  = if ExtendedResolver.isFn a
    then ExtendedResolver.setListing e
           (pre ++ ExtendedResolver.argId a :: ExtendedResolver.original e :: post)
    else e.
Proof.
  intros Hshape Hpre. unfold ExtendedResolver.prepend. rewrite isFn_truthy.
  destruct (ExtendedResolver.isFn a); [|done].
  by rewrite (indexOfOriginal_shape e pre post Hshape Hpre), Hshape, splice_insert_at.
Qed.

Lemma append_shape (e : ExtendedResolver.t) a pre post :
  ExtendedResolver.listing e = pre ++ ExtendedResolver.original e :: post ->
  ExtendedResolver.original e ∉ pre ->
  ExtendedResolver.append e a
  = if ExtendedResolver.isFn a
    then ExtendedResolver.setListing e
           (pre ++ ExtendedResolver.original e :: ExtendedResolver.argId a :: post)
    else e.
Proof.
  intros Hshape Hpre. unfold ExtendedResolver.append. rewrite isFn_truthy.
  destruct (ExtendedResolver.isFn a); [|done].
  rewrite (indexOfOriginal_shape e pre post Hshape Hpre), Hshape.
  replace (Z.of_nat (length pre + 1))
    with (Z.of_nat (length (pre ++ [ExtendedResolver.original e])))
    by (by rewrite length_app).
  rewrite (cons_middle (ExtendedResolver.original e) pre post), app_assoc.
  rewrite splice_insert_at. by rewrite <- app_assoc.
Qed.

Lemma prepends_shape ps :
  forall (e : ExtendedResolver.t) pre post,
    ExtendedResolver.listing e = pre ++ ExtendedResolver.original e :: post ->
    ExtendedResolver.original e ∉ pre ->
    ExtendedResolver.original e ∉ ExtendedResolver.functionsOf ps ->
    ExtendedResolver.listing (fold_left ExtendedResolver.prepend ps e)
    = (pre ++ ExtendedResolver.functionsOf ps) ++ ExtendedResolver.original e :: post
    /\ ExtendedResolver.original (fold_left ExtendedResolver.prepend ps e)
       = ExtendedResolver.original e
    /\ ExtendedResolver.patcher (fold_left ExtendedResolver.prepend ps e)
       = ExtendedResolver.patcher e.
Proof.
  induction ps as [|a ps IH]; intros e pre post Hshape Hpre Hps.
  - simpl. by rewrite app_nil_r.
  - rewrite functionsOf_cons in Hps. cbn [fold_left].
    rewrite (prepend_shape e a pre post Hshape Hpre), functionsOf_cons.
    destruct (ExtendedResolver.isFn a) eqn:Hfn; [|by apply IH].
    apply not_elem_of_cons in Hps as [Hne Hps].
    set (e1 := ExtendedResolver.setListing e _).
    destruct (IH e1 (pre ++ [ExtendedResolver.argId a]) post) as (Hl & Ho & Hp).
    + unfold e1. simpl. by rewrite <- app_assoc.
    + simpl. rewrite not_elem_of_app, not_elem_of_cons. split; [done|].
      split; [done|apply not_elem_of_nil].
    + done.
    + split; [|split; [by rewrite Ho|by rewrite Hp]].
      rewrite Hl. simpl. by rewrite <- !app_assoc.
Qed.

Lemma appends_shape xs :
  forall (e : ExtendedResolver.t) pre post,
    ExtendedResolver.listing e = pre ++ ExtendedResolver.original e :: post ->
    ExtendedResolver.original e ∉ pre ->
    ExtendedResolver.listing (fold_left ExtendedResolver.append xs e)
    = pre ++ ExtendedResolver.original e :: rev (ExtendedResolver.functionsOf xs) ++ post
    /\ ExtendedResolver.original (fold_left ExtendedResolver.append xs e)
       = ExtendedResolver.original e
    /\ ExtendedResolver.patcher (fold_left ExtendedResolver.append xs e)
       = ExtendedResolver.patcher e.
Proof.
  induction xs as [|a xs IH]; intros e pre post Hshape Hpre.
  - done.
  - cbn [fold_left].
    rewrite (append_shape e a pre post Hshape Hpre), functionsOf_cons.
    destruct (ExtendedResolver.isFn a) eqn:Hfn; [|by apply IH].
    set (e1 := ExtendedResolver.setListing e _).
    destruct (IH e1 pre (ExtendedResolver.argId a :: post)) as (Hl & Ho & Hp); [done..|].
    split; [|split; [by rewrite Ho|by rewrite Hp]].
    rewrite Hl. simpl. by rewrite <- !app_assoc.
Qed.

(** X16: [ExtendedResolver.wrap] on a plain original that is not itself
    among the prepended functions lists the prepended functions in the
    order given, then the original, then the appended functions in the
    REVERSE of the order given; values that are not plain functions
    (among them [ExtendedResolver] instances) are left out. *)
Theorem wrap_listing_order :
  forall (r : Fn) (prepends appends : ExtendedResolver.Extras)
         (patcherArg : option ExtendedResolver.Arg),
    r ∉ ExtendedResolver.functionsOf (ExtendedResolver.extrasList prepends) ->
    let e := ExtendedResolver.wrap (ExtendedResolver.FromValue r) prepends appends patcherArg in
    ExtendedResolver.listing e
    = ExtendedResolver.functionsOf (ExtendedResolver.extrasList prepends)
      ++ r :: rev (ExtendedResolver.functionsOf (ExtendedResolver.extrasList appends))
    /\ ExtendedResolver.original e = r
    /\ ExtendedResolver.originalIndex e
       = Z.of_nat (length (ExtendedResolver.functionsOf (ExtendedResolver.extrasList prepends))).
Proof.
  intros r prepends appends patcherArg Hout e.
  set (ps := ExtendedResolver.extrasList prepends) in *.
  set (xs := ExtendedResolver.extrasList appends) in *.
  set (e0 := match patcherArg with
             | Some p =>
                 if ExtendedResolver.argTruthy p && ExtendedResolver.isFn p
                 then ExtendedResolver.mk [r] r (Some p)
                 else ExtendedResolver.mk [r] r None
             | None => ExtendedResolver.mk [r] r None
             end).
  assert (He : e = fold_left ExtendedResolver.append xs (fold_left ExtendedResolver.prepend ps e0)).
  { unfold e, ExtendedResolver.wrap, ExtendedResolver.from, ExtendedResolver.new, e0.
    destruct patcherArg as [p|]; [|done].
    by destruct (ExtendedResolver.argTruthy p && ExtendedResolver.isFn p). }
  assert (H0 : ExtendedResolver.listing e0 = [] ++ ExtendedResolver.original e0 :: []
               /\ ExtendedResolver.original e0 = r).
  { unfold e0. destruct patcherArg as [p|]; [|done].
    by destruct (ExtendedResolver.argTruthy p && ExtendedResolver.isFn p). }
  destruct H0 as [Hshape0 Horig0].
  destruct (prepends_shape ps e0 [] [] Hshape0) as (Hl1 & Ho1 & _);
    [apply not_elem_of_nil|by rewrite Horig0|].
  simpl in Hl1. rewrite <- Ho1 in Hl1.
  assert (Hfresh : ExtendedResolver.original (fold_left ExtendedResolver.prepend ps e0)
                   ∉ ExtendedResolver.functionsOf ps) by (by rewrite Ho1, Horig0).
  destruct (appends_shape xs _ _ [] Hl1 Hfresh) as (Hl2 & Ho2 & _).
  rewrite <- He in Hl2, Ho2. rewrite app_nil_r in Hl2.
  assert (Hr : ExtendedResolver.original e = r) by congruence.
  rewrite Ho1, Horig0 in Hl2.
  split; [done|]. split; [done|].
  unfold ExtendedResolver.originalIndex.
  rewrite (indexOfOriginal_shape e (ExtendedResolver.functionsOf ps)
             (rev (ExtendedResolver.functionsOf xs))); [done|by rewrite Hr|by rewrite Hr].
Qed.

Lemma wrap_listing_order_witness :
  ExtendedResolver.listing
    (ExtendedResolver.wrap (ExtendedResolver.FromValue "orig")
       (ExtendedResolver.ExtrasArray
          [ExtendedResolver.AFunction "p1"; ExtendedResolver.AOther "x" true;
           ExtendedResolver.AFunction "p2"])
       (ExtendedResolver.ExtrasArray
          [ExtendedResolver.AFunction "a1"; ExtendedResolver.AExtended "e";
           ExtendedResolver.AFunction "a2"])
       None)
  = ["p1"; "p2"; "orig"; "a2"; "a1"].
Proof.
  refine (proj1 (wrap_listing_order "orig" _ _ None _)).
  vm_compute. intros H.
  repeat (apply elem_of_cons in H as [H|H]; [discriminate|]).
  by apply elem_of_nil in H.
Defined.

Lemma listing_step (e : ExtendedResolver.t) (a : ExtendedResolver.Arg) (f : Fn) :
  (f ∈ ExtendedResolver.listing (ExtendedResolver.prepend e a)
   <-> f ∈ ExtendedResolver.listing e
       \/ (ExtendedResolver.isFn a = true /\ f = ExtendedResolver.argId a))
  /\ (f ∈ ExtendedResolver.listing (ExtendedResolver.append e a)
      <-> f ∈ ExtendedResolver.listing e
          \/ (ExtendedResolver.isFn a = true /\ f = ExtendedResolver.argId a))
  /\ (f ∈ ExtendedResolver.listing (ExtendedResolver.push e a)
      <-> f ∈ ExtendedResolver.listing e
          \/ (ExtendedResolver.isFn a = true /\ f = ExtendedResolver.argId a)).
Proof.
  unfold ExtendedResolver.prepend, ExtendedResolver.append, ExtendedResolver.push.
  rewrite isFn_truthy. destruct (ExtendedResolver.isFn a); simpl.
  - rewrite !elem_of_splice_insert, elem_of_app, list_elem_of_singleton. tauto.
  - intuition congruence.
Qed.

Lemma originalIndex_nonneg (e : ExtendedResolver.t) :
  (0 <= ExtendedResolver.originalIndex e)%Z
  <-> ExtendedResolver.original e ∈ ExtendedResolver.listing e.
Proof.
  unfold ExtendedResolver.originalIndex, ExtendedResolver.indexOfOriginal.
  destruct (list_find _ _) as [[i x]|] eqn:Hfind; simpl.
  - apply list_find_Some in Hfind as (Hi & -> & _). split; [|lia].
    intros _. by eapply list_elem_of_lookup_2.
  - split; [lia|]. intros Hin. apply list_find_None in Hfind.
    rewrite Forall_forall in Hfind. by destruct (Hfind _ Hin).
Qed.

(** X17: [prepend], [append] and [push] never lose a resolver: each keeps
    the original and every listed function, adds the argument when it is
    a plain function and nothing otherwise, so [originalIndex] never
    becomes -1 through them. *)
Theorem listing_only_grows :
  forall (e : ExtendedResolver.t) (a : ExtendedResolver.Arg) (op : _ -> _ -> ExtendedResolver.t),
    op = ExtendedResolver.prepend \/ op = ExtendedResolver.append
    \/ op = ExtendedResolver.push ->
    ExtendedResolver.original (op e a) = ExtendedResolver.original e
    /\ ExtendedResolver.patcher (op e a) = ExtendedResolver.patcher e
    /\ (forall f, f ∈ ExtendedResolver.listing (op e a)
          <-> f ∈ ExtendedResolver.listing e
              \/ (ExtendedResolver.isFn a = true /\ f = ExtendedResolver.argId a))
    /\ ((0 <= ExtendedResolver.originalIndex e)%Z ->
        (0 <= ExtendedResolver.originalIndex (op e a))%Z).
Proof.
  intros e a op Hop.
  assert (Ho : ExtendedResolver.original (op e a) = ExtendedResolver.original e
               /\ ExtendedResolver.patcher (op e a) = ExtendedResolver.patcher e).
  { destruct Hop as [-> | [-> | ->] ];
      unfold ExtendedResolver.prepend, ExtendedResolver.append, ExtendedResolver.push;
      by destruct (_ && _). }
  assert (Hl : forall f, f ∈ ExtendedResolver.listing (op e a)
                 <-> f ∈ ExtendedResolver.listing e
                     \/ (ExtendedResolver.isFn a = true /\ f = ExtendedResolver.argId a)).
  { intros f. destruct (listing_step e a f) as (H1 & H2 & H3).
    by destruct Hop as [-> | [-> | ->] ]. }
  destruct Ho as [Ho Hp]. split; [done|]. split; [done|]. split; [done|].
  rewrite !originalIndex_nonneg, Ho. intros Hin. apply Hl. by left.
Qed.

Lemma listing_only_grows_witness :
  ExtendedResolver.original
    (ExtendedResolver.prepend (ExtendedResolver.new ExtendedResolver.Omitted)
       (ExtendedResolver.AFunction "log"))
  = ExtendedResolver.defaultFieldResolver.
Proof.
  exact (proj1 (listing_only_grows (ExtendedResolver.new ExtendedResolver.Omitted)
                  (ExtendedResolver.AFunction "log") ExtendedResolver.prepend
                  (or_introl eq_refl))).
Defined.

(** ** What the calls hand on *)

(** X18: a value [normalizeSource] wraps becomes an instance with a
    non-empty text, the text [normalizeSource] answers without wrapping,
    and with neither the resolvers nor the schema object the value may
    have carried; wrapping that instance again gives it back. *)
Theorem normalize_wrap_drops_resolvers :
  forall (inline : JsValue -> string) (typeDefs : JsValue) (source : Schemata),
    normalizeSourceWrap inline typeDefs = Ok source ->
    normalizeSource inline typeDefs = Ok (sdl source)
    /\ sdl source <> ""
    /\ resolvers source = None
    /\ storedSchema source = None
    /\ normalizeSourceWrap inline (JsSchemata source) = Ok source.
Proof.
  intros inline v source. unfold normalizeSourceWrap, SchemataFrom.
  destruct (normalizeSource inline v) as [text|e]; [|done]. cbn [bindR].
  unfold normalizeSource at 1. cbn [falsy].
  destruct (String.eqb_spec text "") as [->|Hne]; [done|].
  cbn [bindR]. intros [= <-]. cbn [sdl resolvers storedSchema].
  split; [done|]. split; [done|]. split; [done|]. split; [done|].
  unfold normalizeSource. cbn [falsy sdl bindR].
  apply String.eqb_neq in Hne. by rewrite Hne.
Qed.

Lemma normalize_wrap_drops_resolvers_witness :
  let carrier := mkSchemata "type T { f: Int }" (Some callerMap) (Some (dateRegistry "cfg")) in
  let source := mkSchemata "type T { f: Int }" None None in
  normalizeSource inlineText (JsSchemata carrier) = Ok (sdl source)
  /\ sdl source <> ""
  /\ resolvers source = None
  /\ storedSchema source = None
  /\ normalizeSourceWrap inlineText (JsSchemata source) = Ok source.
Proof.
  intros carrier source.
  apply (normalize_wrap_drops_resolvers inlineText (JsSchemata carrier) source). reflexivity.
Defined.

(** X19: a [mergeSDL] call that returns has collected no scalar config,
    and answers an instance without resolvers and without a schema
    object, whose text is the print of the merged tree; the module-level
    registry is then the one the call started with, overwritten by the
    handlers passed. *)
Theorem mergeSDL_returns_bare_instance :
  forall inline parse print buildSchema (this : Schemata) (schemaLanguage : JsValue)
         (custom : option CustomResolvers) (defaults defaults' : ConflictResolvers)
         (merged : Schemata),
    mergeSDL inline parse print buildSchema this schemaLanguage custom defaults = (Ok merged, defaults') ->
    resolvers merged = None
    /\ storedSchema merged = None
    /\ defaults' = match custom with
                   | None => defaults
                   | Some c => Object_assign defaults c
                   end
    /\ exists source lAST rAST lAST',
         normalizeSourceWrap inline schemaLanguage = Ok source
         /\ ast parse this = Some lAST /\ ast parse source = Some rAST
         /\ mergeDefinitions defaults' (schemaOf buildSchema this) (schemaOf buildSchema source)
              lAST rAST = Ok (lAST', ∅)
         /\ sdl merged = print lAST' /\ print lAST' <> "".
Proof.
  intros inline parse print buildSchema this v custom defaults defaults' merged.
  unfold mergeSDL.
  destruct (normalizeSourceWrap inline v) as [source|e] eqn:Hsrc; [|done].
  unfold falsyObject. intros [= Hbody <-].
  set (assigned := match custom with
                   | None => defaults
                   | Some c => Object_assign defaults c
                   end) in *.
  unfold mergeBody in Hbody.
  destruct (ast parse source) as [rAST|] eqn:Hr; [|done].
  destruct (ast parse this) as [lAST|] eqn:Hl; [|by destruct rAST].
  assert (Hloop :
    (let* st := mergeDefinitions assigned (schemaOf buildSchema this)
                  (schemaOf buildSchema source) lAST rAST in
     let* merged := SchemataFrom inline (print (fst st)) None in
     attachScalarFns buildSchema merged (snd st)) = Ok merged) by (by destruct rAST).
  clear Hbody.
  destruct (mergeDefinitions assigned _ _ lAST rAST) as [[lAST' fns]|e] eqn:Hmerge; [|done].
  cbn [bindR fst snd] in Hloop. unfold SchemataFrom, normalizeSource in Hloop.
  cbn [falsy] in Hloop.
  destruct (String.eqb_spec (print lAST') "") as [Hempty|Hne]; [done|].
  cbn [bindR] in Hloop. unfold attachScalarFns in Hloop.
  destruct (decide (fns = ∅)) as [->|Hfns].
  - injection Hloop as <-. cbn [sdl resolvers storedSchema].
    split; [done|]. split; [done|]. split; [done|].
    exists source, lAST, rAST, lAST'. by repeat split.
  - match type of Hloop with
    | context [schemaOf ?b ?m] => by destruct (schemaOf b m)
    end.
Qed.

Lemma mergeSDL_returns_bare_instance_witness :
  let this := mkSchemata "type T { f: Int g: Int }" (Some callerMap) None in
  let merged := mkSchemata "ObjectTypeDefinition T" None None in
  mergeSDL inlineText exampleParse printNames (fun _ => None) this (JsString "type T { f: Int }") None
    DefaultConflictResolvers = (Ok merged, DefaultConflictResolvers)
  /\ resolvers merged = None.
Proof.
  intros this merged.
  assert (Hcall : mergeSDL inlineText exampleParse printNames (fun _ => None) this
                    (JsString "type T { f: Int }") None DefaultConflictResolvers
                  = (Ok merged, DefaultConflictResolvers)) by (vm_compute; reflexivity).
  split; [exact Hcall|].
  exact (proj1 (mergeSDL_returns_bare_instance inlineText exampleParse printNames (fun _ => None) this
                  (JsString "type T { f: Int }") None DefaultConflictResolvers
                  DefaultConflictResolvers merged Hcall)).
Defined.

(** X20: a [pareSDL] call that returns answers an instance that always
    has a resolver map (an empty one when neither the caller nor the
    instance had any) and the print of the pared tree as its text; its
    schema object is the one [executableSchema] has built from that text
    and bound to the pared map, and it has none when that text does not
    build. *)
Theorem pareSDL_returns_map :
  forall inline parse print buildSchema bindResolvers
         (this : Schemata) (schemaLanguage : JsValue)
         (resolverMap : option ResolverMap) (heap heap' : Heap) (pared : Schemata),
    pareSDL inline parse print buildSchema bindResolvers this schemaLanguage resolverMap heap
    = (Ok pared, heap') ->
    exists source lAST rAST lAST' given heap1 paredMap,
      normalizeSourceWrap inline schemaLanguage = Ok source
      /\ ast parse this = Some lAST /\ ast parse source = Some rAST
      /\ pareDefinitions lAST rAST given heap1 = (Ok (lAST', paredMap), heap')
      /\ resolvers pared = Some paredMap
      /\ sdl pared = print lAST' /\ print lAST' <> ""
      /\ storedSchema pared
         = match buildSchema (print lAST') with
           | Some schema => bindResolvers schema paredMap
           | None => None
           end
      /\ (resolverMap = None -> resolvers this = None ->
          (forall g, schemaLanguage <> JsGraphQLSchema g) ->
          given = ∅ /\ paredMap = ∅).
Proof.
  intros inline parse print buildSchema bindResolvers this v resolverMap heap heap' pared.
  unfold pareSDL.
  destruct (normalizeSourceWrap inline v) as [source|e] eqn:Hsrc; [|done].
  unfold falsyObject.
  set (picked := match v, resolverMap with
                 | JsGraphQLSchema g, None =>
                     let '(stripped, h) := stripResolversFromSchema g heap in (Some stripped, h)
                 | _, _ => (resolverMap, heap)
                 end).
  assert (Hpicked : resolverMap = None -> (forall g, v <> JsGraphQLSchema g) ->
                    picked.1 = None).
  { intros -> Hv. unfold picked. destruct v; try done. by destruct (Hv g). }
  destruct picked as [resolverMap1 heap1]. simpl in Hpicked.
  set (cloned := match resolverMap1 with
                 | Some m => m
                 | None => default ∅ (resolvers this)
                 end).
  destruct (ast parse source) as [rAST|] eqn:Hr; [|done].
  destruct (ast parse this) as [lAST|] eqn:Hl; [|by destruct rAST].
  intros Hbody.
  assert (Hloop :
    match pareDefinitions lAST rAST cloned heap1 with
    | (Throw e, heap2) => (Throw e, heap2)
    | (Ok (lAST', paredMap), heap2) =>
        (let* result := SchemataFrom inline (print lAST') (Some paredMap) in
         executableSchema buildSchema bindResolvers result paredMap, heap2)
    end = (Ok pared, heap')) by (by destruct rAST).
  clear Hbody.
  destruct (pareDefinitions lAST rAST cloned heap1) as [[[lAST' paredMap]|e] heap2] eqn:Hpare;
    [|done].
  injection Hloop as Hfrom <-. unfold SchemataFrom, normalizeSource in Hfrom.
  cbn [falsy] in Hfrom.
  destruct (String.eqb_spec (print lAST') "") as [Hempty|Hne]; [done|].
  cbn [bindR] in Hfrom. unfold executableSchema in Hfrom. cbn [sdl resolvers] in Hfrom.
  assert (Hpared : resolvers pared = Some paredMap /\ sdl pared = print lAST'
                   /\ storedSchema pared
                      = match buildSchema (print lAST') with
                        | Some schema => bindResolvers schema paredMap
                        | None => None
                        end).
  { destruct (buildSchema (print lAST')) as [schema|]; [|by injection Hfrom as <-].
    destruct (bindResolvers schema paredMap) as [bound|]; [|done]. by injection Hfrom as <-. }
  destruct Hpared as (Hmap & Htext & Hschema).
  exists source, lAST, rAST, lAST', cloned, heap1, paredMap.
  do 8 (split; [done|]).
  intros Hnone Hthis Hv.
  assert (Hcloned : cloned = ∅).
  { unfold cloned. by rewrite (Hpicked Hnone Hv), Hthis. }
  split; [done|]. rewrite Hcloned in Hpare.
  pose proof (forOfH_frame snd pareType pareType_frame rAST (lAST, ∅) heap1) as [_ Hsub].
  fold (pareDefinitions lAST rAST ∅ heap1) in Hsub. rewrite Hpare in Hsub.
  specialize (Hsub _ eq_refl). simpl in Hsub.
  apply map_eq. intros key. rewrite lookup_empty.
  destruct (paredMap !! key) as [entry|] eqn:Hkey; [|done].
  eapply lookup_weaken in Hkey; [|exact Hsub]. by rewrite lookup_empty in Hkey.
Qed.

Lemma pareSDL_returns_map_witness :
  let this := mkSchemata "type T { f: Int g: Int }" None None in
  let built := fun text : string => Some (dateRegistry text) in
  let bound := fun (schema : SchemaRegistry) (_ : ResolverMap) => Some schema in
  let pared :=
    mkSchemata "ObjectTypeDefinition T" (Some callerMap)
      (Some (dateRegistry "ObjectTypeDefinition T")) in
  pareSDL inlineText exampleParse printNames built bound this (JsString "type T { f: Int }")
    (Some callerMap) callerHeap
  = (Ok pared, [ {["g" := "resolveG"]} ])
  /\ exists lAST' paredMap,
       resolvers pared = Some paredMap /\ sdl pared = printNames lAST'
       /\ storedSchema pared
          = match built (printNames lAST') with
            | Some schema => bound schema paredMap
            | None => None
            end.
Proof.
  intros this built bound pared.
  assert (Hcall : pareSDL inlineText exampleParse printNames built bound this
                    (JsString "type T { f: Int }") (Some callerMap) callerHeap
                  = (Ok pared, [ {["g" := "resolveG"]} ])) by (vm_compute; reflexivity).
  split; [exact Hcall|].
  destruct (pareSDL_returns_map inlineText exampleParse printNames built bound this
              (JsString "type T { f: Int }")
              (Some callerMap) callerHeap [ {["g" := "resolveG"]} ] pared Hcall)
    as (source & lAST & rAST & lAST' & given & heap1 & paredMap
        & _ & _ & _ & _ & Hmap & Htext & _ & Hschema & _).
  by exists lAST', paredMap.
Defined.

(** ** Looking into the tree of an instance *)

Lemma ast_of_parsed parse (s : Schemata) defs :
  parse (sdl s) = Some defs -> sdl s <> "" ->
  validSDL parse s = true /\ astDefinitions parse s = Ok defs.
Proof.
  intros Hparse Hne. unfold validSDL, astDefinitions, ast. rewrite Hparse.
  apply String.eqb_neq in Hne. by rewrite Hne.
Qed.

(** The search for a name throws exactly when it comes to a definition
    without a name before it comes to a match. *)
Lemma findByName_nameless n (l : Document) :
  namelessBefore n l -> findByName n l = Throw TypeError.
Proof.
  intros (i & a & Hi & Ha & Hbefore). revert i Hi Hbefore.
  induction l as [|b l IH]; intros i Hi Hbefore; [done|].
  cbn [findByName]. destruct i as [|i].
  - injection Hi as ->. by rewrite Ha.
  - destruct (nameNode b) as [bn|] eqn:Hb; [|done].
    rewrite decide_False.
    + rewrite (IH i); [done|done|]. intros j c Hj Hlt. apply (Hbefore (S j) c); [done|lia].
    + intros ->. apply (Hbefore 0 b); [done|lia|done].
Qed.

Lemma findByName_Throw_nameless n (l : Document) e :
  findByName n l = Throw e -> namelessBefore n l.
Proof.
  revert e. induction l as [|a l IH]; intros e; [done|]. cbn [findByName].
  destruct (nameNode a) as [an|] eqn:Ha.
  - destruct (decide (an = n)) as [->|Hne]; [done|].
    destruct (findByName n l) as [found|e'] eqn:Hrest; [done|]. intros _.
    destruct (IH e' eq_refl) as (i & b & Hi & Hb & Hbefore).
    exists (S i), b. split; [done|]. split; [done|].
    intros [|j] c Hj Hlt.
    + injection Hj as <-. rewrite Ha. congruence.
    + apply (Hbefore j c); [done|lia].
  - intros _. exists 0, a. split; [done|]. split; [done|]. intros j c _ Hlt. lia.
Qed.

Lemma findByName_found n (l : Document) :
  ~ namelessBefore n l -> findByName n l = Ok (findType n l).
Proof.
  intros Hnot. destruct (findByName n l) as [found|e] eqn:Hfind.
  - by rewrite (findByName_Ok _ _ _ Hfind).
  - by apply findByName_Throw_nameless in Hfind.
Qed.

(** X21: [astFieldByName] on an instance whose text parses. When the
    tree has a definition without a name (a schema definition, say) and
    no definition of the type name asked for before it, the call THROWS a
    [TypeError]. Otherwise it answers [null] when no definition has the
    name; it THROWS a [TypeError] when the first definition of that name
    has no fields array (an enum, a union, a scalar); and else it answers
    the first field of the name asked for, if any. A field it answers has
    the name asked for and is a field of a definition of the type name
    asked for. *)
Theorem ast_field_lookup :
  forall parse (s : Schemata) (defs : Document) (type field : string),
    parse (sdl s) = Some defs -> sdl s <> "" ->
    (namelessBefore type defs -> astFieldByName parse s type field = Throw TypeError)
    /\ (~ namelessBefore type defs ->
        (findType type defs = None -> astFieldByName parse s type field = Ok None)
        /\ (forall i node, findType type defs = Some (i, node) -> fields node = None ->
              astFieldByName parse s type field = Throw TypeError)
        /\ (forall i node fs, findType type defs = Some (i, node) -> fields node = Some fs ->
              astFieldByName parse s type field = Ok (snd <$> findSub field fs)))
    /\ (forall fieldNode, astFieldByName parse s type field = Ok (Some fieldNode) ->
          sub_name fieldNode = field /\ hasField defs type field).
Proof.
  intros parse s defs type field Hparse Hne.
  destruct (ast_of_parsed parse s defs Hparse Hne) as [Hvalid Hdefs].
  unfold astFieldByName. rewrite Hvalid, Hdefs. cbn [bindR].
  split; [by intros ->%findByName_nameless|]. split.
  { intros ->%findByName_found. cbn [bindR].
    split; [by intros ->|]. split; [by intros i node -> ->|]. by intros i node fs -> ->. }
  intros fieldNode.
  destruct (findByName type defs) as [found|e] eqn:Hsearch; [|done].
  apply findByName_Ok in Hsearch as ->. cbn [bindR].
  destruct (findType type defs) as [[i node]|] eqn:Hfind; [|done].
  destruct (fields node) as [fs|] eqn:Hfs; [|done].
  destruct (findSub field fs) as [[j x]|] eqn:Hsub; [|done].
  intros [= <-]. apply findSub_Some in Hsub as (Hj & Hn & _).
  apply findType_Some in Hfind as (Hi & Hname & _).
  split; [done|]. exists node. split; [by eapply list_elem_of_lookup_2|].
  split; [done|]. rewrite Hfs. simpl. rewrite <- Hn.
  apply list_elem_of_fmap. exists x. split; [done|]. by eapply list_elem_of_lookup_2.
Qed.

Lemma ast_field_lookup_witness :
  let table :=
    parseTable [ ("enum Color { RED }", [enumType "Color" [] [mkSub "RED" ""]]);
                 ("schema { query: Q } type Q { f: Int }",
                  [schemaDefinition; objectType "Q" [] [mkSub "f" "Int"]]) ] in
  astFieldByName table (mkSchemata "enum Color { RED }" None None) "Color" "RED"
  = Throw TypeError
  /\ astFieldByName table (mkSchemata "schema { query: Q } type Q { f: Int }" None None) "Q" "f"
     = Throw TypeError.
Proof.
  intros table. split.
  - destruct (ast_field_lookup table (mkSchemata "enum Color { RED }" None None)
                [enumType "Color" [] [mkSub "RED" ""]] "Color" "RED" eq_refl)
      as (_ & Hfound & _); [discriminate|].
    destruct Hfound as (_ & Hthrow & _).
    + intros (i & a & Hi & Ha & _). destruct i as [|i]; [|done].
      injection Hi as <-. discriminate.
    + by apply (Hthrow 0 (enumType "Color" [] [mkSub "RED" ""])).
  - destruct (ast_field_lookup table
                (mkSchemata "schema { query: Q } type Q { f: Int }" None None)
                [schemaDefinition; objectType "Q" [] [mkSub "f" "Int"]] "Q" "f" eq_refl)
      as (Hthrow & _); [discriminate|].
    apply Hthrow. exists 0, schemaDefinition. split; [done|]. split; [done|].
    intros j b _ Hlt. lia.
Defined.

Lemma rootHasResolverKey_true (m : ResolverMap) (found : option (nat * TypeNode)) :
  rootHasResolverKey m found = true
  <-> exists i node f, found = Some (i, node) /\ f ∈ subNames (fields node)
                       /\ (is_Some (m !! f) \/ f ∈ objectPrototypeMembers).
Proof.
  assert (Hkey : forall f, keyIn f m = true <-> is_Some (m !! f) \/ f ∈ objectPrototypeMembers).
  { intros f. unfold keyIn. by rewrite orb_true_iff, !bool_decide_eq_true. }
  unfold rootHasResolverKey. split.
  - destruct found as [[i node]|]; [|done].
    destruct (fields node) as [fs|] eqn:Hfs; [|done].
    intros (x & Hin & Hx)%existsb_exists. apply Hkey in Hx.
    exists i, node, (sub_name x). split; [done|]. split; [|done].
    rewrite Hfs. cbn [subNames]. apply list_elem_of_fmap. exists x.
    split; [done|]. by apply list_elem_of_In.
  - intros (i & node & f & -> & Hf & Hx).
    destruct (fields node) as [fs|]; [|by apply elem_of_nil in Hf].
    simpl in Hf. apply list_elem_of_fmap in Hf as (x & -> & Hin).
    apply existsb_exists. exists x. split; [by apply list_elem_of_In|].
    by apply Hkey.
Qed.

(** X22: [hasFlattenedResolvers] on an instance whose text parses and
    that has a resolver map. When the tree has a definition without a
    name and, for one of Query, Mutation and Subscription, no definition
    of that name before it, the call THROWS a [TypeError]. Otherwise it
    answers [true] exactly when the first definition called Query,
    Mutation or Subscription has a field whose name is [in] the map: a
    key of the map, whatever is stored under it, or the name of a member
    every object inherits ([constructor], [toString], ...). *)
Theorem flattened_resolvers_test :
  forall parse (s : Schemata) (defs : Document) (resolverMap : ResolverMap),
    parse (sdl s) = Some defs -> sdl s <> "" -> resolvers s = Some resolverMap ->
    ((exists root, root ∈ rootTypeNames /\ namelessBefore root defs) ->
     hasFlattenedResolvers parse s = Throw TypeError)
    /\ ((forall root, root ∈ rootTypeNames -> ~ namelessBefore root defs) ->
        exists answer,
          hasFlattenedResolvers parse s = Ok answer
          /\ (answer = true
              <-> exists root i node f,
                    root ∈ rootTypeNames /\ findType root defs = Some (i, node)
                    /\ f ∈ subNames (fields node)
                    /\ (is_Some (resolverMap !! f) \/ f ∈ objectPrototypeMembers))).
Proof.
  intros parse s defs m Hparse Hne Hmap.
  destruct (ast_of_parsed parse s defs Hparse Hne) as [Hvalid Hdefs].
  unfold hasFlattenedResolvers. rewrite Hvalid, Hdefs, Hmap. cbn [bindR].
  split.
  { intros (root & Hroot & Hnameless). apply findByName_nameless in Hnameless.
    unfold rootTypeNames in Hroot.
    repeat (apply elem_of_cons in Hroot as [->|Hroot];
            [destruct (findByName "Query" defs) as [q|eq] eqn:Hq;
             [|by apply findByName_Throw in Hq as ->]; cbn [bindR];
             destruct (findByName "Mutation" defs) as [mu|em] eqn:Hm;
             [|by apply findByName_Throw in Hm as ->]; cbn [bindR];
             destruct (findByName "Subscription" defs) as [su|es] eqn:Hs;
             [|by apply findByName_Throw in Hs as ->]; congruence|]).
    by apply elem_of_nil in Hroot. }
  intros Hnamed.
  rewrite !findByName_found
    by (apply Hnamed; unfold rootTypeNames; repeat constructor).
  cbn [bindR].
  exists (existsb (rootHasResolverKey m)
            [findType "Query" defs; findType "Mutation" defs; findType "Subscription" defs]).
  split.
  - destruct (findType "Query" defs), (findType "Mutation" defs),
      (findType "Subscription" defs); done.
  - rewrite existsb_exists. split.
    + intros (found & Hin & Htrue).
      apply rootHasResolverKey_true in Htrue as (i & node & f & -> & Hf & Hkey).
      simpl in Hin. unfold rootTypeNames.
      destruct Hin as [Hq|[Hm|[Hs|[]]]].
      * exists "Query", i, node, f. split; [apply list_elem_of_here|done].
      * exists "Mutation", i, node, f.
        split; [apply list_elem_of_further, list_elem_of_here|done].
      * exists "Subscription", i, node, f.
        split; [do 2 apply list_elem_of_further; apply list_elem_of_here|done].
    + intros (root & i & node & f & Hroot & Hfind & Hf & Hkey).
      exists (findType root defs). split.
      * unfold rootTypeNames in Hroot. simpl.
        repeat (apply elem_of_cons in Hroot as [->|Hroot]; [tauto|]).
        by apply elem_of_nil in Hroot.
      * apply rootHasResolverKey_true. by exists i, node, f.
Qed.

(** With no resolver at all in the map, a root field called [toString] is
    enough for the answer [true]. *)
Lemma flattened_resolvers_test_witness :
  let table :=
    parseTable [ ("type Query { toString: String }",
                  [objectType "Query" [] [mkSub "toString" "String"]]) ] in
  hasFlattenedResolvers table (mkSchemata "type Query { toString: String }" (Some ∅) None)
  = Ok true.
Proof.
  intros table.
  destruct (flattened_resolvers_test table
              (mkSchemata "type Query { toString: String }" (Some ∅) None)
              [objectType "Query" [] [mkSub "toString" "String"]] ∅ eq_refl)
    as (_ & Hanswer); [discriminate|reflexivity|].
  destruct Hanswer as (answer & Hcall & Htrue).
  - intros root _ (i & a & Hi & Ha & _). destruct i as [|i]; [|done].
    injection Hi as <-. discriminate.
  - rewrite Hcall. f_equal. apply Htrue.
    exists "Query", 0, (objectType "Query" [] [mkSub "toString" "String"]), "toString".
    split; [apply list_elem_of_here|]. split; [reflexivity|].
    split; [simpl; apply list_elem_of_here|].
    right. unfold objectPrototypeMembers. do 8 apply list_elem_of_further.
    apply list_elem_of_here.
Defined.

(** ** Calling an [ExtendedResolver] *)

Lemma reduce_app call all pre post args acc :
  ExtendedResolver.reduce call all (pre ++ post) args acc
  = match ExtendedResolver.reduce call all pre args acc with
    | inl acc' => ExtendedResolver.reduce call all post args acc'
    | inr e => inr e
    end.
Proof.
  revert acc. induction pre as [|f pre IH]; intros acc; [done|].
  simpl. destruct (call f (args ++ [acc])); [apply IH|done].
Qed.

(** X23: when the last listed function returns a primitive (a logging
    function appended after the original that returns nothing, say), that
    primitive is the result of the whole call: everything the functions
    before it returned is dropped. *)
Theorem apply_last_primitive_wins :
  forall call (e : ExtendedResolver.t) (args : list ExtendedResolver.Value)
         (pre : list Fn) (f : Fn) (acc : ExtendedResolver.Value) (p : string),
    ExtendedResolver.listing e = pre ++ [f] ->
    ExtendedResolver.patcher e = None ->
    ExtendedResolver.reduce call (ExtendedResolver.listing e) pre args
      (ExtendedResolver.VObject ∅) = inl acc ->
    call f (args ++ [acc]) = inl (ExtendedResolver.VPrimitive p) ->
    ExtendedResolver.apply call e args = inl (ExtendedResolver.VPrimitive p).
Proof.
  intros call e args pre f acc p Hshape Hpatch Hpre Hlast.
  unfold ExtendedResolver.apply. rewrite Hpatch.
  rewrite Hshape at 2. rewrite reduce_app, Hpre. simpl. rewrite Hlast.
  by destruct acc.
Qed.

Lemma apply_last_primitive_wins_witness :
  let call := fun (f : Fn) (_ : list ExtendedResolver.Value) =>
    if String.eqb f "orig"
    then inl (ExtendedResolver.VObject {["id" := "1"]})
    else inl (ExtendedResolver.VPrimitive "undefined") : ExtendedResolver.Value + string in
  ExtendedResolver.apply call
    (ExtendedResolver.wrap (ExtendedResolver.FromValue "orig") (ExtendedResolver.ExtrasArray [])
       (ExtendedResolver.ExtrasSingle (ExtendedResolver.AFunction "log")) None) []
  = inl (ExtendedResolver.VPrimitive "undefined").
Proof.
  intros call.
  apply (apply_last_primitive_wins call _ [] ["orig"] "log"
           (ExtendedResolver.VObject {["id" := "1"]}) "undefined");
    vm_compute; reflexivity.
Defined.

(** X24: with no patcher, and when every listed function returns an
    object (here: the same one whatever it is passed), the call returns
    an object with the properties of all of them, a later function's
    property winning over an earlier one's. *)
Theorem apply_objects_union :
  forall call (e : ExtendedResolver.t) (args : list ExtendedResolver.Value)
         (out : Fn -> gmap string string),
    ExtendedResolver.patcher e = None ->
    (forall f a, f ∈ ExtendedResolver.listing e ->
                 call f a = inl (ExtendedResolver.VObject (out f))) ->
    ExtendedResolver.apply call e args
    = inl (ExtendedResolver.VObject
             (fold_left (fun acc f => out f ∪ acc) (ExtendedResolver.listing e) ∅)).
Proof.
  intros call e args out Hpatch Hcalls. unfold ExtendedResolver.apply. rewrite Hpatch.
  assert (Hloop : forall fns acc,
            (forall f, f ∈ fns -> f ∈ ExtendedResolver.listing e) ->
            ExtendedResolver.reduce call (ExtendedResolver.listing e) fns args
              (ExtendedResolver.VObject acc)
            = inl (ExtendedResolver.VObject (fold_left (fun acc f => out f ∪ acc) fns acc))).
  { induction fns as [|f fns IH]; intros acc Hsub; [done|].
    simpl. rewrite (Hcalls f _ (Hsub f (list_elem_of_here _ _))). simpl.
    apply IH. intros g Hg. by apply Hsub, list_elem_of_further. }
  by rewrite Hloop.
Qed.

Lemma apply_objects_union_witness :
  let out := fun (f : Fn) =>
    if String.eqb f "orig" then <["id" := "1"]> {["name" := "a"]} else {["name" := "b"]}
    : gmap string string in
  let call := fun (f : Fn) (_ : list ExtendedResolver.Value) =>
    inl (ExtendedResolver.VObject (out f)) : ExtendedResolver.Value + string in
  let e := ExtendedResolver.wrap (ExtendedResolver.FromValue "orig")
             (ExtendedResolver.ExtrasArray [])
             (ExtendedResolver.ExtrasSingle (ExtendedResolver.AFunction "post")) None in
  ExtendedResolver.apply call e []
  = inl (ExtendedResolver.VObject
           (fold_left (fun acc f => out f ∪ acc) (ExtendedResolver.listing e) ∅)).
Proof.
  intros out call e. apply (apply_objects_union call e [] out); [reflexivity|].
  intros f a _. reflexivity.
Defined.

Lemma indexOf_first (l pre post : list Fn) (f : Fn) :
  l = pre ++ f :: post ->
  (0 <= ExtendedResolver.indexOf l f <= Z.of_nat (length pre))%Z
  /\ (f ∉ pre -> ExtendedResolver.indexOf l f = Z.of_nat (length pre)).
Proof.
  intros ->. unfold ExtendedResolver.indexOf.
  destruct (list_find (fun g => g = f) (pre ++ f :: post)) as [[i x]|] eqn:Hfind.
  - apply list_find_Some in Hfind as (Hi & -> & Hfirst). split.
    + split; [lia|]. destruct (decide (i <= length pre)) as [|Hgt]; [lia|]. exfalso.
      apply (Hfirst (length pre) f); [|lia|done].
      by rewrite lookup_app_r, Nat.sub_diag.
    + intros Hout. destruct (decide (i < length pre)) as [Hlt|Hge].
      * exfalso. apply Hout. rewrite lookup_app_l in Hi by done.
        by eapply list_elem_of_lookup_2.
      * destruct (decide (i = length pre)) as [->|Hne]; [done|]. exfalso.
        apply (Hfirst (length pre) f); [|lia|done].
        by rewrite lookup_app_r, Nat.sub_diag.
  - exfalso. apply list_find_None in Hfind. rewrite Forall_forall in Hfind.
    apply (Hfind f); [|done]. apply elem_of_app. right. apply list_elem_of_here.
Qed.

(** X25: when a listed function throws, the call stops there: the
    functions after it and the patcher are not called, and the error
    reported carries the arguments that function was given and the index
    of its FIRST occurrence in the listing, which is its position only
    when it is not listed before. *)
Theorem apply_first_failure :
  forall call (e : ExtendedResolver.t) (args : list ExtendedResolver.Value)
         (pre post : list Fn) (f : Fn) (acc : ExtendedResolver.Value) (error : string),
    ExtendedResolver.listing e = pre ++ f :: post ->
    ExtendedResolver.reduce call (ExtendedResolver.listing e) pre args
      (ExtendedResolver.VObject ∅) = inl acc ->
    call f (args ++ [acc]) = inr error ->
    ExtendedResolver.apply call e args
    = inr (ExtendedResolver.WrappedResolverExecutionError error
             (ExtendedResolver.indexOf (ExtendedResolver.listing e) f) (args ++ [acc]))
    /\ (0 <= ExtendedResolver.indexOf (ExtendedResolver.listing e) f <= Z.of_nat (length pre))%Z
    /\ (f ∉ pre ->
        ExtendedResolver.indexOf (ExtendedResolver.listing e) f = Z.of_nat (length pre)).
Proof.
  intros call e args pre post f acc error Hshape Hpre Hthrow.
  split; [|by eapply indexOf_first].
  unfold ExtendedResolver.apply. rewrite Hshape at 2.
  rewrite reduce_app, Hpre. simpl. by rewrite Hthrow.
Qed.

Lemma apply_first_failure_witness :
  let call := fun (f : Fn) (_ : list ExtendedResolver.Value) =>
    if String.eqb f "orig"
    then inr "boom"
    else inl (ExtendedResolver.VPrimitive "undefined") : ExtendedResolver.Value + string in
  ExtendedResolver.apply call
    (ExtendedResolver.wrap (ExtendedResolver.FromValue "orig")
       (ExtendedResolver.ExtrasSingle (ExtendedResolver.AFunction "pre"))
       (ExtendedResolver.ExtrasSingle (ExtendedResolver.AFunction "post")) None) []
  = inr (ExtendedResolver.WrappedResolverExecutionError "boom" 1
           [ExtendedResolver.VPrimitive "undefined"]).
Proof.
  intros call.
  refine (proj1 (apply_first_failure call _ [] ["pre"] ["post"] "orig"
                   (ExtendedResolver.VPrimitive "undefined") "boom" _ _ _));
    vm_compute; reflexivity.
Defined.
